(** * create-vue: deepMerge, sortDependencies, directoryTraverse, renderTemplate

    A shallow embedding of the scaffolding core of the repository
    ([src/utils/deepMerge.js], [src/utils/sortDependencies.js],
    [src/utils/directoryTraverse.js], [src/utils/renderTemplate.js]) and the
    properties of its specification.

    JavaScript objects are mutable and shared, so documents live in an explicit
    heap and [deepMerge] is a heap transformer.  The file system is an explicit
    tree that the traversal and the renderer thread through their calls. *)

From Stdlib Require Import ZArith Lia Ascii.
From stdpp Require Import base list strings pretty.

Set Warnings "-register-all".
Set Default Proof Using "Type".

Local Open Scope Z_scope.

(** ** Outcomes of a JavaScript computation *)

(** The exceptions the modelled code can raise: those of the language, those of
    the file system, and whatever a callback throws. *)
Inductive error : Type :=
  | RangeError
  | TypeError
  | SyntaxError
  | ENOENT
  | ENOTDIR
  | EISDIR
  | EEXIST
  | ENOTEMPTY
  | Thrown (msg : string).

(** [OutOfFuel] is the model's stand-in for a computation that has not finished
    within the given recursion budget.  [Unsupported] marks the few places where
    the source leaves the modelled fragment of JavaScript (coercions of
    non-numbers to an array length, reads through the prototype chain that
    return an object, dangling references). *)
Inductive res (A : Type) : Type :=
  | Ok (a : A)
  | Throw (e : error)
  | Unsupported
  | OutOfFuel.
Arguments Ok {A} a.
Arguments Throw {A} e.
Arguments Unsupported {A}.
Arguments OutOfFuel {A}.

Definition rbind {A B} (m : res A) (f : A -> res B) : res B :=
  match m with
  | Ok a => f a
  | Throw e => Throw e
  | Unsupported => Unsupported
  | OutOfFuel => OutOfFuel
  end.

Notation "'let*' x ':=' m 'in' k" := (rbind m (fun x => k))
  (at level 10, x name, m at level 100, k at level 200).

(** [for (const x of xs) body(x)] over a threaded state. *)
Fixpoint forEach {X S} (body : X -> S -> res S) (xs : list X) (s : S)
  : res S :=
  match xs with
  | [] => Ok s
  | x :: xs' => let* s' := body x s in forEach body xs' s'
  end.

(** ** JavaScript values and the heap *)

Module JS.

Abbreviation loc := nat.

(** The values a JSON document is made of.  Numbers are the integers; a
    string is a sequence of UTF-16 code units below 256, one character each. *)
Inductive val : Type :=
  | VUndef
  | VNull
  | VBool (b : bool)
  | VNum (n : Z)
  | VStr (s : string)
  | VRef (l : loc).

Global Instance val_eq_dec : EqDecision val.
Proof. solve_decision. Defined.

(** A property key is either an array index (a canonical numeric string below
    2^32 - 1) or any other string. *)
Inductive key : Type :=
  | KIdx (i : nat)
  | KName (s : string).

Global Instance key_eq_dec : EqDecision key.
Proof. solve_decision. Defined.

(** The string a key stands for; it is what [Array.prototype.sort] compares. *)
Definition key_to_string (k : key) : string :=
  match k with
  | KIdx i => pretty i
  | KName s => s
  end.

Abbreviation props := (list (key * val)).

(** An ordinary object, or an array: its elements ([None] is a hole) and the
    named properties that were set on it. *)
Inductive obj : Type :=
  | OObj (ps : props)
  | OArr (es : list (option val)) (ps : props).

Abbreviation heap := (list obj).

Abbreviation jsres := res.

Definition alloc (o : obj) (h : heap) : loc * heap := (List.length h, h ++ [o]).

(** *** Own properties *)

Fixpoint own (ps : props) (k : key) : option val :=
  match ps with
  | [] => None
  | (k', v) :: ps' => if decide (k' = k) then Some v else own ps' k
  end.

(** Replace the value of an existing key, keeping its position. *)
Fixpoint replace_prop (k : key) (v : val) (ps : props) : props :=
  match ps with
  | [] => []
  | (k', v') :: ps' =>
      if decide (k' = k) then (k, v) :: ps' else (k', v') :: replace_prop k v ps'
  end.

(** Position of a new key among the own keys: array indices come first, in
    ascending order, then names in creation order. *)
Fixpoint add_prop (k : key) (v : val) (ps : props) : props :=
  match ps with
  | [] => [(k, v)]
  | (k', v') :: ps' =>
      match k, k' with
      | KIdx i, KIdx i' =>
          if (i <? i')%nat then (k, v) :: ps else (k', v') :: add_prop k v ps'
      | KIdx _, KName _ => (k, v) :: ps
      | KName _, _ => (k', v') :: add_prop k v ps'
      end
  end.

Definition insert_prop (k : key) (v : val) (ps : props) : props :=
  match own ps k with
  | Some _ => replace_prop k v ps
  | None => add_prop k v ps
  end.

Definition elem_val (e : option val) : val :=
  match e with Some v => v | None => VUndef end.

(** Indices of the elements of an array that are not holes. *)
Fixpoint elem_keys (i : nat) (es : list (option val)) : list key :=
  match es with
  | [] => []
  | Some _ :: es' => KIdx i :: elem_keys (S i) es'
  | None :: es' => elem_keys (S i) es'
  end.

Definition proto_key : key := KName "__proto__"%string.
Definition length_key : key := KName "length"%string.

(** [o[k]] for an object or array [o].  Inherited properties are functions,
    which neither [Array.isArray] nor [isObject] accepts, so they are read as
    [VUndef]; the inherited accessor [__proto__] returns the prototype object
    and is outside the model. *)
Definition obj_get (o : obj) (k : key) : jsres val :=
  match o with
  | OObj ps =>
      match own ps k with
      | Some v => Ok v
      | None => if decide (k = proto_key) then Unsupported else Ok VUndef
      end
  | OArr es ps =>
      match k with
      | KIdx i => Ok (elem_val (default None (es !! i)))
      | KName _ =>
          if decide (k = length_key) then Ok (VNum (Z.of_nat (List.length es)))
          else match own ps k with
               | Some v => Ok v
               | None => if decide (k = proto_key) then Unsupported else Ok VUndef
               end
      end
  end.

(** [Object.keys(o)]. *)
Definition obj_keys (o : obj) : list key :=
  match o with
  | OObj ps => ps.*1
  | OArr es ps => elem_keys 0 es ++ ps.*1
  end.

Definition max_length : Z := 4294967295.

(** An array resized to length [n]: truncated, or padded with holes. *)
Definition array_resize (es : list (option val)) (n : Z)
  : jsres (list (option val)) :=
  if (0 <=? n) && (n <=? max_length) then
    let n' := Z.to_nat n in
    Ok (take n' es ++ replicate (n' - List.length es) None)
  else Throw RangeError.

(** Assigning [length] on an array: the value converted to a number must be a
    valid array length. *)
Definition set_length (es : list (option val)) (v : val)
  : jsres (list (option val)) :=
  match v with
  | VNum n => array_resize es n
  | VNull => array_resize es 0
  | VBool b => array_resize es (if b then 1 else 0)
  | VUndef => Throw RangeError
  | VStr _ | VRef _ => Unsupported
  end.

(** [o[k] = v] for an object or array [o]. *)
Definition obj_set (o : obj) (k : key) (v : val) : jsres obj :=
  match o with
  | OObj ps =>
      match own ps k with
      | Some _ => Ok (OObj (replace_prop k v ps))
      | None =>
          if decide (k = proto_key) then Unsupported
          else Ok (OObj (add_prop k v ps))
      end
  | OArr es ps =>
      match k with
      | KIdx i =>
          if (i <? List.length es)%nat then Ok (OArr (<[i := Some v]> es) ps)
          else Ok (OArr (es ++ replicate (i - List.length es) None ++ [Some v]) ps)
      | KName _ =>
          if decide (k = length_key) then
            let* es' := set_length es v in Ok (OArr es' ps)
          else match own ps k with
               | Some _ => Ok (OArr es (replace_prop k v ps))
               | None =>
                   if decide (k = proto_key) then Unsupported
                   else Ok (OArr es (add_prop k v ps))
               end
      end
  end.

(** *** Property access on values *)

(** Own properties of a string: its characters and its length. *)
Definition str_get (s : string) (k : key) : jsres val :=
  match k with
  | KIdx i =>
      Ok (match String.get i s with
          | Some c => VStr (String c EmptyString)
          | None => VUndef
          end)
  | KName _ =>
      if decide (k = length_key) then Ok (VNum (Z.of_nat (String.length s)))
      else if decide (k = proto_key) then Unsupported
      else Ok VUndef
  end.

(** [v[k]]: reading a property of [null] or [undefined] is a TypeError;
    primitives other than strings have no own properties. *)
Definition get (h : heap) (v : val) (k : key) : jsres val :=
  match v with
  | VRef l =>
      match h !! l with
      | Some o => obj_get o k
      | None => Unsupported
      end
  | VStr s => str_get s k
  | VBool _ | VNum _ => if decide (k = proto_key) then Unsupported else Ok VUndef
  | VUndef | VNull => Throw TypeError
  end.

(** [v[k] = x]: module code is strict, so assigning a property on a primitive
    is a TypeError. *)
Definition set (h : heap) (v : val) (k : key) (x : val) : jsres heap :=
  match v with
  | VRef l =>
      match h !! l with
      | Some o => let* o' := obj_set o k x in Ok (<[l := o']> h)
      | None => Unsupported
      end
  | _ => Throw TypeError
  end.

(** [Object.keys(v)]. *)
Definition keys (h : heap) (v : val) : jsres (list key) :=
  match v with
  | VRef l =>
      match h !! l with
      | Some o => Ok (obj_keys o)
      | None => Unsupported
      end
  | VStr s => Ok (KIdx <$> seq 0 (String.length s))
  | VBool _ | VNum _ => Ok []
  | VUndef | VNull => Throw TypeError
  end.

(** [Array.isArray(v)]. *)
Definition isArray (h : heap) (v : val) : bool :=
  match v with
  | VRef l => match h !! l with Some (OArr _ _) => true | _ => false end
  | _ => false
  end.

(** [const isObject = (val) => val && typeof val === 'object']: every reference
    is an object (arrays included), [null] is falsy, the rest are not objects. *)
Definition isObject (v : val) : bool :=
  match v with
  | VRef _ => true
  | _ => false
  end.

(** The values [[...a]] iterates over: holes are read as [undefined]. *)
Definition spread (h : heap) (v : val) : list val :=
  match v with
  | VRef l => match h !! l with
              | Some (OArr es _) => elem_val <$> es
              | _ => []
              end
  | _ => []
  end.

End JS.

(** ** [src/utils/deepMerge.js] *)

Module DeepMerge.
Import JS.

(** A JavaScript [Set] of values: insertion-ordered, membership by
    SameValueZero, which on this value type is equality of primitives and of
    references. *)
Definition Set_add (s : list val) (x : val) : list val :=
  if decide (x ∈ s) then s else s ++ [x].

Definition new_Set (xs : list val) : list val := foldl Set_add [] xs.

(** [const mergeArrayWithDedupe = (a, b) => Array.from(new Set([...a, ...b]))]:
    a fresh array. *)
Definition mergeArrayWithDedupe (h : heap) (a b : val) : loc * heap :=
  alloc (OArr (Some <$> new_Set (spread h a ++ spread h b)) []) h.

(** The body of the [for (const key of Object.keys(obj))] loop; [rec] is the
    recursive call. *)
Definition merge_key (rec : val -> val -> heap -> jsres heap)
    (target obj : val) (key : key) (h : heap) : jsres heap :=
  let* oldVal := get h target key in
  let* newVal := get h obj key in
  if isArray h oldVal && isArray h newVal then
    let '(l, h') := mergeArrayWithDedupe h oldVal newVal in
    set h' target key (VRef l)
  else if isObject oldVal && isObject newVal then
    let* h' := rec oldVal newVal h in
    set h' target key oldVal
  else
    set h target key newVal.

(** [function deepMerge(target, obj)].  The function returns [target]; the
    model returns the heap in which [target] has been updated.  The keys are
    listed once, before the loop; the properties are read in the current
    heap. *)
Fixpoint deepMerge (fuel : nat) (target obj : val) (h : heap) : jsres heap :=
  match fuel with
  | O => OutOfFuel
  | S fuel' =>
      let* ks := keys h obj in
      forEach (merge_key (deepMerge fuel') target obj) ks h
  end.

(** *** Documents in the heap *)

(** The locations of a document laid out as a tree: a node and the trees of the
    objects and arrays it refers to. *)
Inductive ltree : Type :=
  | LNode (l : loc) (kids : list ltree).

Definition root (t : ltree) : loc :=
  match t with LNode l _ => l end.

Fixpoint locs (t : ltree) : list loc :=
  match t with
  | LNode l kids => l :: mjoin (locs <$> kids)
  end.

Fixpoint height (t : ltree) : nat :=
  match t with
  | LNode _ kids => S (foldr Nat.max 0%nat (height <$> kids))
  end.

Definition val_refs (v : val) : list loc :=
  match v with VRef l => [l] | _ => [] end.

(** The references an object holds, in property order. *)
Definition obj_refs (o : obj) : list loc :=
  match o with
  | OObj ps => ps.*2 ≫= val_refs
  | OArr es ps => (es ≫= (fun e => val_refs (elem_val e))) ++ (ps.*2 ≫= val_refs)
  end.

(** [owns h t]: in [h], the object at the root of [t] refers exactly to the
    roots of the subtrees of [t], and so on below. *)
Fixpoint owns (h : heap) (t : ltree) : bool :=
  match t with
  | LNode l kids =>
      match h !! l with
      | Some o => bool_decide (obj_refs o = root <$> kids) && forallb (owns h) kids
      | None => false
      end
  end.

(** A tree-shaped (acyclic, unshared) document: no location occurs twice. *)
Definition tree_doc (h : heap) (t : ltree) : Prop :=
  owns h t = true /\ NoDup (locs t).

Definition is_name (k : key) : bool :=
  match k with KName _ => true | KIdx _ => false end.

(** Own keys are unique; the named properties of an array are names other
    than [length]. *)
Definition obj_wf (o : obj) : Prop :=
  match o with
  | OObj ps => NoDup ps.*1
  | OArr es ps =>
      NoDup ps.*1 /\ Forall (fun k => is_name k = true /\ k <> length_key) ps.*1
  end.

Definition heap_wf (h : heap) : Prop := Forall obj_wf h.

(** *** Vocabulary of the loop invariants *)

Definition kids_locs (kids : list ltree) : list loc := mjoin (locs <$> kids).

Definition rec_ok (f : nat) (rec : val -> val -> heap -> jsres heap) : Prop :=
  forall K y h, heap_wf h -> owns h K = true -> NoDup (locs K) ->
    match rec (VRef (root K)) y h with
    | Ok h' => (length h <= length h')%nat /\ heap_wf h' /\
               (forall l, (l < length h)%nat -> l ∉ locs K -> h' !! l = h !! l)
    | OutOfFuel => (f <= height K)%nat
    | _ => True
    end.

Definition covers (o : obj) (ks : list key) (kids : list ltree) : Prop :=
  (forall k r, k ∈ ks -> obj_get o k = Ok (VRef r) ->
     exists K, K ∈ kids /\ root K = r) /\
  (forall k1 k2 r, k1 ∈ ks -> k2 ∈ ks -> k1 <> k2 ->
     obj_get o k1 = Ok (VRef r) -> obj_get o k2 = Ok (VRef r) -> False).

Definition loop_post (f : nat) (x : loc) (ks : list key) (kids : list ltree)
    (h : heap) (o : obj) (r : jsres heap) : Prop :=
  match r with
  | Ok h' =>
      (length h <= length h')%nat /\ heap_wf h' /\
      (forall l, (l < length h)%nat -> l <> x -> l ∉ kids_locs kids ->
         h' !! l = h !! l) /\
      (exists o', h' !! x = Some o' /\
         forall ps, o = OObj ps ->
           exists ps', o' = OObj ps' /\ forall k, k ∉ ks -> own ps' k = own ps k)
  | OutOfFuel => exists K, K ∈ kids /\ (f <= height K)%nat
  | _ => True
  end.

(** The kid of a plain target object that key [k] refers to. *)
Definition kid_at (ps0 : props) (kids : list ltree) (k : key) (K : ltree) : Prop :=
  K ∈ kids /\ own ps0 k = Some (VRef (root K)).

Definition keyed_post (f : nat) (x : loc) (ks : list key) (kids : list ltree)
    (ps0 : props) (h : heap) (ps : props) (r : jsres heap) : Prop :=
  match r with
  | Ok h' =>
      (length h <= length h')%nat /\ heap_wf h' /\
      (exists ps', h' !! x = Some (OObj ps') /\
         forall k, k ∉ ks -> own ps' k = own ps k) /\
      (forall l, (l < length h)%nat -> l <> x ->
         (forall k K, k ∈ ks -> kid_at ps0 kids k K -> l ∉ locs K) ->
         h' !! l = h !! l)
  | OutOfFuel => exists K, K ∈ kids /\ (f <= height K)%nat
  | _ => True
  end.

(** In the words of the specification: [es] is the deduplicated union of the
    sequences [xs] and [ys] in first-seen order.  It has no duplicates, it
    holds exactly the values of the two sequences, and a value that comes
    before another in [es] occurs in [xs ++ ys] before every occurrence of the
    other. *)
Definition union_first_seen (xs ys es : list val) : Prop :=
  NoDup es /\
  (forall v, v ∈ es <-> v ∈ xs \/ v ∈ ys) /\
  (forall i j u v, (i < j)%nat -> es !! i = Some u -> es !! j = Some v ->
     exists p, (xs ++ ys) !! p = Some u /\
       forall q, (xs ++ ys) !! q = Some v -> (p < q)%nat).

End DeepMerge.


(** ** Example documents *)

Module MergeExamples.
Import JS DeepMerge.

Definition name (s : string) : key := KName s.

(** [user1 = {name: 'jack', age: 22, links: {a: 1, b: 2}}] at 0 and
    [user2 = {name: 'tony', links: {a: 3, c: 4}}] at 2. *)
Definition users : heap :=
  [ OObj [(name "name", VStr "jack"); (name "age", VNum 22);
          (name "links", VRef 1%nat)];
    OObj [(name "a", VNum 1); (name "b", VNum 2)];
    OObj [(name "name", VStr "tony"); (name "links", VRef 3%nat)];
    OObj [(name "a", VNum 3); (name "c", VNum 4)] ].

Definition users_tree : ltree := LNode 0 [LNode 1 []].

(** [{x: [1, 2]}] at 0 and [{x: [2, 3]}] at 2. *)
Definition seqs : heap :=
  [ OObj [(name "x", VRef 1%nat)];
    OArr [Some (VNum 1); Some (VNum 2)] [];
    OObj [(name "x", VRef 3%nat)];
    OArr [Some (VNum 2); Some (VNum 3)] [] ].

Definition seqs_tree : ltree := LNode 0 [LNode 1 []].

(** [{x: {a: 1}}] at 0 and [{x: [5]}] at 2: a mapping against a sequence. *)
Definition mismatch : heap :=
  [ OObj [(name "x", VRef 1%nat)];
    OObj [(name "a", VNum 1)];
    OObj [(name "x", VRef 3%nat)];
    OArr [Some (VNum 5)] [] ].

(** [{x: [1]}] at 0 and [{x: {length: -1}}] at 2: a sequence against a
    mapping. *)
Definition bad_length : heap :=
  [ OObj [(name "x", VRef 1%nat)];
    OArr [Some (VNum 1)] [];
    OObj [(name "x", VRef 3%nat)];
    OObj [(name "length", VNum (-1))] ].

(** [{x: [{a: 1}]}] at 0 and [{x: [{a: 1}]}] at 3: two sequences, each with
    its own mapping [{a: 1}]. *)
Definition twins : heap :=
  [ OObj [(name "x", VRef 1%nat)];
    OArr [Some (VRef 2%nat)] [];
    OObj [(name "a", VNum 1)];
    OObj [(name "x", VRef 4%nat)];
    OArr [Some (VRef 5%nat)] [];
    OObj [(name "a", VNum 1)] ].

(** [[1, 2, 3]] at 0 and [{length: 1}] at 1: a sequence as the target. *)
Definition shrink : heap :=
  [ OArr [Some (VNum 1); Some (VNum 2); Some (VNum 3)] [];
    OObj [(name "length", VNum 1)] ].

(** [{keep: o, x: o}] at 0, with the one object [o = {n: 1}] at 1 under both
    keys, and [{x: {n: 2}}] at 2. *)
Definition shared : heap :=
  [ OObj [(name "keep", VRef 1%nat); (name "x", VRef 1%nat)];
    OObj [(name "n", VNum 1)];
    OObj [(name "x", VRef 3%nat)];
    OObj [(name "n", VNum 2)] ].

(** [t = {k: 1, self: t}] at 0 and [{k: 2, self: {k: 3}}] at 1: a target that
    contains itself. *)
Definition cyclic : heap :=
  [ OObj [(name "k", VNum 1); (name "self", VRef 0%nat)];
    OObj [(name "k", VNum 2); (name "self", VRef 2%nat)];
    OObj [(name "k", VNum 3)] ].

(** A mapping in the sense of the specification: a structured value that is
    not a sequence. *)
Definition isMapping (h : heap) (v : val) : bool :=
  isObject v && negb (isArray h v).

End MergeExamples.
(** ** Documents in the heap and the skeleton of a merge *)

Module Documents.
Import JS DeepMerge.

(** A JSON document. *)
Inductive doc : Type :=
  | DPrim (p : val)
  | DArr (ds : list doc)
  | DObj (fs : list (key * doc)).

(** Two lists aligned element by element. *)
Definition all2b {A B : Type} (R : A -> B -> bool) : list A -> list B -> bool :=
  fix go l1 l2 :=
    match l1, l2 with
    | [], [] => true
    | a :: l1, b :: l2 => R a b && go l1 l2
    | _, _ => false
    end.

Definition join2 {A B : Type} (F : A -> B -> list loc)
  : list A -> list B -> list loc :=
  fix go l1 l2 :=
    match l1, l2 with
    | a :: l1, b :: l2 => F a b ++ go l1 l2
    | _, _ => []
    end.

(** [lay h d v]: in [h], the value [v] is the document [d]. *)
Fixpoint lay (h : heap) (d : doc) (v : val) : bool :=
  match d with
  | DPrim p => bool_decide (v = p) && negb (isObject p)
  | DArr ds =>
      match v with
      | VRef l =>
          match h !! l with
          | Some (OArr es []) =>
              all2b (fun d e => match e with
                                | Some x => lay h d x
                                | None => false
                                end) ds es
          | _ => false
          end
      | _ => false
      end
  | DObj fs =>
      match v with
      | VRef l =>
          match h !! l with
          | Some (OObj ps) =>
              all2b (fun f p => bool_decide (p.1 = f.1) && lay h f.2 p.2) fs ps
          | _ => false
          end
      | _ => false
      end
  end.

(** The locations [lay] visits. *)
Fixpoint locs_of (h : heap) (d : doc) (v : val) : list loc :=
  match d with
  | DPrim _ => []
  | DArr ds =>
      match v with
      | VRef l =>
          l :: match h !! l with
               | Some (OArr es _) =>
                   join2 (fun d e => locs_of h d (elem_val e)) ds es
               | _ => []
               end
      | _ => []
      end
  | DObj fs =>
      match v with
      | VRef l =>
          l :: match h !! l with
               | Some (OObj ps) => join2 (fun f p => locs_of h f.2 p.2) fs ps
               | _ => []
               end
      | _ => []
      end
  end.

(** No mapping of the document has a key twice. *)
Fixpoint wf_doc (d : doc) : bool :=
  match d with
  | DPrim _ => true
  | DArr ds => forallb wf_doc ds
  | DObj fs => bool_decide (NoDup fs.*1) && forallb (fun f => wf_doc f.2) fs
  end.

Fixpoint depth (d : doc) : nat :=
  match d with
  | DObj fs => S (foldr Nat.max 0%nat ((fun f => depth f.2) <$> fs))
  | _ => 0%nat
  end.

(** The mappings a merge updates in place, the target's at [lc] against the
    source's at [la], with what the merge reads at the leaves: the source's
    value of a scalar field, the elements of the two sequences. *)
Inductive skel : Type :=
  | KPrim (p : val)
  | KArr (ec ea : list val)
  | KObj (lc la : loc) (fs : list (key * skel)).

Fixpoint clocs (s : skel) : list loc :=
  match s with
  | KObj lc _ fs => lc :: mjoin ((fun f => clocs f.2) <$> fs)
  | _ => []
  end.

Fixpoint alocs (s : skel) : list loc :=
  match s with
  | KObj _ la fs => la :: mjoin ((fun f => alocs f.2) <$> fs)
  | _ => []
  end.

Fixpoint sdepth (s : skel) : nat :=
  match s with
  | KObj _ _ fs => S (foldr Nat.max 0%nat ((fun f => sdepth f.2) <$> fs))
  | _ => 0%nat
  end.

Fixpoint keys_ok (s : skel) : Prop :=
  match s with
  | KObj _ _ fs => NoDup fs.*1 /\ foldr (fun f P => keys_ok f.2 /\ P) True fs
  | _ => True
  end.

(** The skeleton after a merge: the target's sequences are the unions. *)
Fixpoint next (s : skel) : skel :=
  match s with
  | KPrim p => KPrim p
  | KArr ec ea => KArr (new_Set (ec ++ ea)) ea
  | KObj lc la fs => KObj lc la ((fun f => (f.1, next f.2)) <$> fs)
  end.

(** Properties aligned with the fields of a skeleton. *)
Definition rows {A : Type} (R : A -> val -> Prop)
  : list (key * A) -> props -> Prop :=
  fix go fs ps :=
    match fs, ps with
    | [], [] => True
    | f :: fs, p :: ps => p.1 = f.1 /\ R f.2 p.2 /\ go fs ps
    | _, _ => False
    end.

Definition rows2 {A : Type} (R : A -> val -> val -> Prop)
  : list (key * A) -> props -> props -> Prop :=
  fix go fs pc pa :=
    match fs, pc, pa with
    | [], [], [] => True
    | f :: fs, c :: pc, a :: pa =>
        c.1 = f.1 /\ a.1 = f.1 /\ R f.2 c.2 a.2 /\ go fs pc pa
    | _, _, _ => False
    end.

(** Before a merge: the target value [vc] and the source value [va] have the
    skeleton [s] in [h]. *)
Fixpoint pre (h : heap) (s : skel) (vc va : val) : Prop :=
  match s with
  | KPrim p => isObject vc = false /\ va = p /\ isObject p = false
  | KArr ec ea =>
      isArray h vc = true /\ isArray h va = true /\
      spread h vc = ec /\ spread h va = ea
  | KObj lc la fs =>
      vc = VRef lc /\ va = VRef la /\
      exists pc pa, h !! lc = Some (OObj pc) /\ h !! la = Some (OObj pa) /\
        rows2 (pre h) fs pc pa
  end.

(** After a merge: the target value [v] in [h]. *)
Fixpoint post (h : heap) (s : skel) (v : val) : Prop :=
  match s with
  | KPrim p => v = p
  | KArr ec ea =>
      exists n, v = VRef n /\
        h !! n = Some (OArr (Some <$> new_Set (ec ++ ea)) [])
  | KObj lc la fs =>
      v = VRef lc /\ exists ps, h !! lc = Some (OObj ps) /\ rows (post h) fs ps
  end.

(** A value that is a document laid out away from [L]. *)
Definition stable (L : list loc) (h : heap) (x : val) : Prop :=
  exists dx, lay h dx x = true /\ forall l, l ∈ locs_of h dx x -> l ∉ L.

Fixpoint elems_stable (L : list loc) (h : heap) (s : skel) : Prop :=
  match s with
  | KPrim _ => True
  | KArr ec ea => Forall (stable L h) (ec ++ ea)
  | KObj _ _ fs => foldr (fun f P => elems_stable L h f.2 /\ P) True fs
  end.

(** [h'] has what [h] has, except at the locations [X]. *)
Definition agree (X : list loc) (h h' : heap) : Prop :=
  forall l o, h !! l = Some o -> l ∉ X -> h' !! l = Some o.

Definition mappings (h : heap) (X : list loc) : Prop :=
  forall l, l ∈ X -> exists ps, h !! l = Some (OObj ps).

(** What a merge along the skeleton [s] does. *)
Definition merge_ok (s : skel) : Prop :=
  forall lc la fs, s = KObj lc la fs ->
  forall n h, (sdepth s <= n)%nat ->
    pre h s (VRef lc) (VRef la) ->
    NoDup (clocs s) -> (forall l, l ∈ alocs s -> l ∉ clocs s) -> keys_ok s ->
    exists h', deepMerge n (VRef lc) (VRef la) h = Ok h' /\
      agree (clocs s) h h' /\ post h' s (VRef lc).

(** The condition on [L] under which the elements of the sequences of a
    document and of its copy are laid out away from [L]. *)
Definition away (L : list loc) (C A S : list loc) : Prop :=
  forall l, l ∈ L -> (l ∉ A) /\ (l ∈ C -> l ∈ S).

Definition skel_for (h : heap) (d : doc) (vc va : val) (s : skel) : Prop :=
  pre h s vc va /\ keys_ok s /\ (sdepth s <= depth d)%nat /\
  (forall l, l ∈ clocs s -> l ∈ locs_of h d vc) /\ NoDup (clocs s) /\
  (forall l, l ∈ alocs s -> l ∈ locs_of h d va) /\
  (forall L, away L (locs_of h d vc) (locs_of h d va) (clocs s) ->
     elems_stable L h s).

(** [{name: 'app', tags: ['a', {x: 1}], deps: {vue: '3'}}]. *)
Definition app_doc : doc :=
  DObj [(KName "name", DPrim (VStr "app"));
        (KName "tags", DArr [DPrim (VStr "a");
                             DObj [(KName "x", DPrim (VNum 1))]]);
        (KName "deps", DObj [(KName "vue", DPrim (VStr "3"))])].

(** The document at 0 and a copy of it at 4. *)
Definition app_and_copy : heap :=
  [ OObj [(KName "name", VStr "app"); (KName "tags", VRef 1%nat);
          (KName "deps", VRef 3%nat)];
    OArr [Some (VStr "a"); Some (VRef 2%nat)] [];
    OObj [(KName "x", VNum 1)];
    OObj [(KName "vue", VStr "3")];
    OObj [(KName "name", VStr "app"); (KName "tags", VRef 5%nat);
          (KName "deps", VRef 7%nat)];
    OArr [Some (VStr "a"); Some (VRef 6%nat)] [];
    OObj [(KName "x", VNum 1)];
    OObj [(KName "vue", VStr "3")] ].

(** What the merge of the copy with the document is: the mapping of the
    sequence is there twice. *)
Definition app_merged : doc :=
  DObj [(KName "name", DPrim (VStr "app"));
        (KName "tags", DArr [DPrim (VStr "a");
                             DObj [(KName "x", DPrim (VNum 1))];
                             DObj [(KName "x", DPrim (VNum 1))]]);
        (KName "deps", DObj [(KName "vue", DPrim (VStr "3"))])].

End Documents.


(** ** The file system *)

Module FS.

(** An absolute, normalised path: its segments from the root. *)
Abbreviation path := (list string).

(** What a path names: a regular file and its bytes, a symbolic link, or a
    directory and its entries in listing order. *)
Inductive node : Type :=
  | File (data : string)
  | Link (target : string)
  | Dir (entries : list (string * node)).

Abbreviation entries := (list (string * node)).

Fixpoint entry (name : string) (es : entries) : option node :=
  match es with
  | [] => None
  | (s, n) :: es' => if decide (s = name) then Some n else entry name es'
  end.

(** Replace the entry of that name, or add it at the end. *)
Fixpoint set_entry (name : string) (n : node) (es : entries) : entries :=
  match es with
  | [] => [(name, n)]
  | (s, n') :: es' =>
      if decide (s = name) then (name, n) :: es' else (s, n') :: set_entry name n es'
  end.

Fixpoint del_entry (name : string) (es : entries) : entries :=
  match es with
  | [] => []
  | (s, n) :: es' => if decide (s = name) then es' else (s, n) :: del_entry name es'
  end.

(** The node a path names, without following a link in the last position.
    Resolution through a symbolic link is outside the model. *)
Fixpoint walk (t : node) (p : path) : res node :=
  match p with
  | [] => Ok t
  | s :: p' =>
      match t with
      | Dir es =>
          match entry s es with
          | Some c => walk c p'
          | None => Throw ENOENT
          end
      | File _ => Throw ENOTDIR
      | Link _ => Unsupported
      end
  end.

(** [fs.lstatSync(p)]. *)
Definition lstatSync (t : node) (p : path) : res node := walk t p.

(** [fs.statSync(p)] follows a link in the last position. *)
Definition statSync (t : node) (p : path) : res node :=
  match walk t p with
  | Ok (Link _) => Unsupported
  | r => r
  end.

(** [stats.isDirectory()]. *)
Definition isDirectory (n : node) : bool :=
  match n with Dir _ => true | _ => false end.

(** [fs.existsSync(p)]: false on any error. *)
Definition existsSync (t : node) (p : path) : res bool :=
  match statSync t p with
  | Ok _ => Ok true
  | Throw _ => Ok false
  | Unsupported => Unsupported
  | OutOfFuel => OutOfFuel
  end.

(** [fs.readdirSync(p)]: the names in the directory. *)
Definition readdirSync (t : node) (p : path) : res (list string) :=
  match statSync t p with
  | Ok (Dir es) => Ok es.*1
  | Ok _ => Throw ENOTDIR
  | Throw e => Throw e
  | Unsupported => Unsupported
  | OutOfFuel => OutOfFuel
  end.

(** [fs.readFileSync(p)]. *)
Definition readFileSync (t : node) (p : path) : res string :=
  match statSync t p with
  | Ok (File data) => Ok data
  | Ok _ => Throw EISDIR
  | Throw e => Throw e
  | Unsupported => Unsupported
  | OutOfFuel => OutOfFuel
  end.

(** Put a node at a path whose parent directory exists. *)
Fixpoint put (t : node) (p : path) (new : node) : res node :=
  match p with
  | [] => Ok new
  | s :: p' =>
      match t with
      | Dir es =>
          match p' with
          | [] => Ok (Dir (set_entry s new es))
          | _ =>
              match entry s es with
              | Some c => let* c' := put c p' new in Ok (Dir (set_entry s c' es))
              | None => Throw ENOENT
              end
          end
      | File _ => Throw ENOTDIR
      | Link _ => Unsupported
      end
  end.

(** [fs.writeFileSync(p, data)]: creates or overwrites a regular file. *)
Definition writeFileSync (t : node) (p : path) (data : string) : res node :=
  match statSync t p with
  | Ok (Dir _) => Throw EISDIR
  | Ok _ | Throw ENOENT => put t p (File data)
  | Throw e => Throw e
  | Unsupported => Unsupported
  | OutOfFuel => OutOfFuel
  end.

(** [fs.copyFileSync(src, dest)]. *)
Definition copyFileSync (t : node) (src dest : path) : res node :=
  let* data := readFileSync t src in
  writeFileSync t dest data.

(** [fs.mkdirSync(p, { recursive: true })]. *)
Fixpoint mkdirSync (t : node) (p : path) : res node :=
  match p with
  | [] =>
      match t with
      | Dir _ => Ok t
      | File _ => Throw EEXIST
      | Link _ => Unsupported
      end
  | s :: p' =>
      match t with
      | Dir es =>
          match entry s es with
          | Some c => let* c' := mkdirSync c p' in Ok (Dir (set_entry s c' es))
          | None => let* c' := mkdirSync (Dir []) p' in Ok (Dir (es ++ [(s, c')]))
          end
      | File _ => Throw ENOTDIR
      | Link _ => Unsupported
      end
  end.

(** Remove the entry a path names, if [ok] accepts the node it names. *)
Fixpoint remove (ok : node -> res unit) (t : node) (p : path) : res node :=
  match p with
  | [] => Unsupported
  | s :: p' =>
      match t with
      | Dir es =>
          match entry s es with
          | Some c =>
              match p' with
              | [] => let* _ := ok c in Ok (Dir (del_entry s es))
              | _ => let* c' := remove ok c p' in Ok (Dir (set_entry s c' es))
              end
          | None => Throw ENOENT
          end
      | File _ => Throw ENOTDIR
      | Link _ => Unsupported
      end
  end.

(** [fs.rmdirSync(p)]: an empty directory. *)
Definition rmdirSync (t : node) (p : path) : res node :=
  remove (fun n => match n with
                   | Dir [] => Ok tt
                   | Dir _ => Throw ENOTEMPTY
                   | _ => Throw ENOTDIR
                   end) t p.

(** [fs.unlinkSync(p)]: a file or a link. *)
Definition unlinkSync (t : node) (p : path) : res node :=
  remove (fun n => match n with
                   | Dir _ => Throw EISDIR
                   | _ => Ok tt
                   end) t p.

(** [path.resolve(dir, name)] for an absolute [dir] and a single segment. *)
Definition path_resolve (dir : path) (name : string) : path :=
  if decide (name = "" \/ name = ".")%string then dir
  else if decide (name = "..")%string then removelast dir
  else dir ++ [name].

(** [path.basename(p)] and [path.dirname(p)]. *)
Definition basename (p : path) : string := List.last p ""%string.
Definition dirname (p : path) : path := removelast p.

(** What the code did, in order: the ghost log the properties speak about. *)
Inductive event : Type :=
  | EReaddir (p : path)
  | EOnDir (p : path)
  | EOnFile (p : path)
  | EExists (p : path) (found : bool)
  | EReadFile (p : path)
  | EWriteFile (p : path)
  | ECopyFile (src dest : path)
  | EMkdir (p : path).

Record world : Type := World { tree : node; log : list event }.

Definition emit (e : event) (w : world) : world :=
  World (tree w) (log w ++ [e]).

(** An operation that reads the tree, logged. *)
Definition observe {A} (e : event) (op : node -> res A) (w : world)
  : res (A * world) :=
  let* a := op (tree w) in Ok (a, emit e w).

(** An operation that changes the tree, logged. *)
Definition change (e : event) (op : node -> res node) (w : world) : res world :=
  let* t := op (tree w) in Ok (World t (log w ++ [e])).

(** File and directory names: a directory lists each name once, and no name is
    empty, [.] or [..]. *)
Definition ok_name (s : string) : Prop :=
  s <> ""%string /\ s <> "."%string /\ s <> ".."%string.

Fixpoint wf_node (t : node) : Prop :=
  match t with
  | Dir es =>
      NoDup es.*1 /\ Forall ok_name es.*1 /\
      (fix all (l : entries) : Prop :=
         match l with
         | [] => True
         | (_, n) :: l' => wf_node n /\ all l'
         end) es
  | _ => True
  end.

Fixpoint depth (t : node) : nat :=
  match t with
  | Dir es =>
      S ((fix go (l : entries) : nat :=
            match l with
            | [] => 0%nat
            | (_, n) :: l' => Nat.max (depth n) (go l')
            end) es)
  | _ => 0%nat
  end.

End FS.

(** ** [src/utils/directoryTraverse.js] *)

Module Traverse.
Import FS.

(** A callback receives a path and may change the file system or throw. *)
Definition callback : Type := path -> node -> res node.

(** The body of the loop of [preOrderDirectoryTraverse]; [rec] is the recursive
    call. *)
Definition preOrder_entry (rec : path -> world -> res world)
    (dir : path) (dirCallback fileCallback : callback)
    (filename : string) (w : world) : res world :=
  let fullpath := path_resolve dir filename in
  let* st := lstatSync (tree w) fullpath in
  if isDirectory st then
    let* w1 := change (EOnDir fullpath) (dirCallback fullpath) w in
    let* ex := existsSync (tree w1) fullpath in
    let w2 := emit (EExists fullpath ex) w1 in
    if ex then rec fullpath w2 else Ok w2
  else
    change (EOnFile fullpath) (fileCallback fullpath) w.

(** [preOrderDirectoryTraverse(dir, dirCallback, fileCallback)]. *)
Fixpoint preOrderDirectoryTraverse (fuel : nat) (dir : path)
    (dirCallback fileCallback : callback) (w : world) : res world :=
  match fuel with
  | O => OutOfFuel
  | S fuel' =>
      let* r := observe (EReaddir dir) (fun t => readdirSync t dir) w in
      let '(names, w0) := r in
      forEach
        (preOrder_entry
           (fun p => preOrderDirectoryTraverse fuel' p dirCallback fileCallback)
           dir dirCallback fileCallback)
        names w0
  end.

(** The body of the loop of [postOrderDirectoryTraverse]. *)
Definition postOrder_entry (rec : path -> world -> res world)
    (dir : path) (dirCallback fileCallback : callback)
    (filename : string) (w : world) : res world :=
  let fullpath := path_resolve dir filename in
  let* st := lstatSync (tree w) fullpath in
  if isDirectory st then
    let* w1 := rec fullpath w in
    change (EOnDir fullpath) (dirCallback fullpath) w1
  else
    change (EOnFile fullpath) (fileCallback fullpath) w.

(** [postOrderDirectoryTraverse(dir, dirCallback, fileCallback)]. *)
Fixpoint postOrderDirectoryTraverse (fuel : nat) (dir : path)
    (dirCallback fileCallback : callback) (w : world) : res world :=
  match fuel with
  | O => OutOfFuel
  | S fuel' =>
      let* r := observe (EReaddir dir) (fun t => readdirSync t dir) w in
      let '(names, w0) := r in
      forEach
        (postOrder_entry
           (fun p => postOrderDirectoryTraverse fuel' p dirCallback fileCallback)
           dir dirCallback fileCallback)
        names w0
  end.

(** The recursive calls, as functions of the directory. *)
Definition pre_rec (dirCallback fileCallback : callback) (fuel : nat)
  : path -> world -> res world :=
  fun p => preOrderDirectoryTraverse fuel p dirCallback fileCallback.

Definition post_rec (dirCallback fileCallback : callback) (fuel : nat)
  : path -> world -> res world :=
  fun p => postOrderDirectoryTraverse fuel p dirCallback fileCallback.

(** A callback that does nothing. *)
Definition noop : callback := fun _ t => Ok t.

(** [emptyDir] of [index.js]: post-order removal of everything below [dir]. *)
Definition emptyDir (fuel : nat) (dir : path) (t : node) : res node :=
  let* w := postOrderDirectoryTraverse fuel dir
              (fun p t => rmdirSync t p) (fun p t => unlinkSync t p)
              (World t []) in
  Ok (tree w).

(** The directory callback of the clean-up pass of [index.js]: directories
    named [cypress] or [__tests__] are emptied and removed. *)
Definition prune (fuel : nat) : callback := fun dirpath t =>
  let dirname := basename dirpath in
  if decide (dirname = "cypress" \/ dirname = "__tests__")%string then
    let* t1 := emptyDir fuel dirpath t in rmdirSync t1 dirpath
  else Ok t.

(** The callback events of a log. *)
Definition is_callback (e : event) : bool :=
  match e with EOnDir _ | EOnFile _ => true | _ => false end.

Definition is_onFile (e : event) : bool :=
  match e with EOnFile _ => true | _ => false end.

(** The path an event is about. *)
Definition event_path (e : event) : path :=
  match e with
  | EReaddir p | EOnDir p | EOnFile p | EExists p _
  | EReadFile p | EWriteFile p | ECopyFile p _ | EMkdir p => p
  end.

(** The shape of what a pre-order traversal logs below its first listing: for
    each entry, the file callback; or the directory callback and a failed
    existence check; or the directory callback, a successful existence check
    and the log of the traversal of that directory. *)
Inductive entries_trace : list event -> Prop :=
  | trace_done : entries_trace []
  | trace_file (p : path) (l : list event) :
      entries_trace l -> entries_trace (EOnFile p :: l)
  | trace_skip (p : path) (l : list event) :
      entries_trace l -> entries_trace (EOnDir p :: EExists p false :: l)
  | trace_descend (p : path) (sub l : list event) :
      entries_trace sub -> entries_trace l ->
      entries_trace (EOnDir p :: EExists p true :: EReaddir p :: sub ++ l).

(** What the pre-order traversal logs for a child [n] at path [p], and for the
    entries [es] of the directory [base], when the callbacks do not change the
    file system. *)
Fixpoint pre_node (p : path) (n : node) : list event :=
  match n with
  | Dir sub =>
      EOnDir p :: EExists p true :: EReaddir p ::
        (fix go (es : entries) : list event :=
           match es with
           | [] => []
           | (name, c) :: es' => pre_node (p ++ [name]) c ++ go es'
           end) sub
  | _ => [EOnFile p]
  end.

Definition pre_events (base : path) (es : entries) : list event :=
  es ≫= (fun e => pre_node (base ++ [e.1]) e.2).

(** The same for the post-order traversal. *)
Fixpoint post_node (p : path) (n : node) : list event :=
  match n with
  | Dir sub =>
      EReaddir p ::
        (fix go (es : entries) : list event :=
           match es with
           | [] => []
           | (name, c) :: es' => post_node (p ++ [name]) c ++ go es'
           end) sub ++ [EOnDir p]
  | _ => [EOnFile p]
  end.

Definition post_events (base : path) (es : entries) : list event :=
  es ≫= (fun e => post_node (base ++ [e.1]) e.2).

(** A project tree with sources, tests and a link. *)
Definition project : node :=
  Dir [("proj",
        Dir [("src", Dir [("a.js", File "x");
                          ("__tests__", Dir [("t.js", File "t")])]);
             ("cypress", Dir [("e2e", Dir [("x", File "1")])]);
             ("lnk", Link "src");
             ("README", File "r")])]%string.

Definition project_entries : entries :=
  [("src", Dir [("a.js", File "x"); ("__tests__", Dir [("t.js", File "t")])]);
   ("cypress", Dir [("e2e", Dir [("x", File "1")])]);
   ("lnk", Link "src");
   ("README", File "r")]%string.

End Traverse.

(** ** [src/utils/sortDependencies.js] *)

Module SortDeps.
Import JS.

(** The truth value of a JavaScript value. *)
Definition truthy (v : val) : bool :=
  match v with
  | VUndef | VNull => false
  | VBool b => b
  | VNum n => negb (n =? 0)
  | VStr s => negb (String.eqb s "")
  | VRef _ => true
  end.

(** [array.sort()] on strings: ascending order of their UTF-16 code units.
    A string of the model is a sequence of code units below 256, one
    character each, and on those [String.leb] is that order; a key with a
    code unit from 256 on is outside the model. *)
Fixpoint sort_insert (k : key) (l : list key) : list key :=
  match l with
  | [] => [k]
  | k' :: l' =>
      if String.leb (key_to_string k) (key_to_string k') then k :: l
      else k' :: sort_insert k l'
  end.

Definition sort (l : list key) : list key := foldr sort_insert [] l.

(** Defining an own property on a fresh plain object, as object spread does. *)
Definition define (h : heap) (l : loc) (k : key) (v : val) : jsres heap :=
  match h !! l with
  | Some (OObj ps) => Ok (<[l := OObj (insert_prop k v ps)]> h)
  | _ => Unsupported
  end.

(** [{...src}] into the object at [l]: the own enumerable properties of [src],
    nothing for [null] and [undefined]. *)
Definition spread_into (l : loc) (src : val) (h : heap) : jsres heap :=
  match src with
  | VUndef | VNull => Ok h
  | _ =>
      let* ks := keys h src in
      forEach (fun k h => let* v := get h src k in define h l k v) ks h
  end.

Definition depTypes : list string :=
  ["dependencies"; "devDependencies"; "peerDependencies"; "optionalDependencies"]
  %string.

(** [(name) => { sorted[depType][name] = packageJson[depType][name] }]. *)
Definition copy_dep (packageJson sorted : val) (depType : string)
    (name : key) (h : heap) : jsres heap :=
  let* target := get h sorted (KName depType) in
  let* source := get h packageJson (KName depType) in
  let* v := get h source name in
  set h target name v.

(** The body of the loop over [depTypes]. *)
Definition sort_depType (packageJson sorted : val) (depType : string) (h : heap)
  : jsres heap :=
  let* d := get h packageJson (KName depType) in
  if truthy d then
    let '(o, h) := alloc (OObj []) h in
    let* h := set h sorted (KName depType) (VRef o) in
    let* d := get h packageJson (KName depType) in
    let* ks := keys h d in
    forEach (copy_dep packageJson sorted depType) (sort ks) h
  else Ok h.

(** [export default function sortDependencies(packageJson)]. *)
Definition sortDependencies (packageJson : val) (h : heap) : jsres (val * heap) :=
  let '(sorted, h) := alloc (OObj []) h in
  let* h := forEach (sort_depType packageJson (VRef sorted)) depTypes h in
  let '(r, h) := alloc (OObj []) h in
  let* h := spread_into r packageJson h in
  let* h := spread_into r (VRef sorted) h in
  Ok (VRef r, h).

(** The object the inner loop builds from the keys [L] of the mapping [dps],
    starting from [{}]. *)
Definition build (dps : props) (L : list key) : props :=
  foldl (fun acc k => add_prop k (default VUndef (own dps k)) acc) [] L.

(** Strings in ascending order of their code units. *)
Fixpoint ascending (l : list string) : Prop :=
  match l with
  | a :: (b :: _) as l' => String.leb a b = true /\ ascending l'
  | _ => True
  end.

(** The order of the own keys of a JavaScript object: array indices first, in
    ascending numeric order, then names. *)
Definition key_le (k k' : key) : Prop :=
  match k, k' with
  | KIdx i, KIdx j => (i < j)%nat
  | KIdx _, KName _ => True
  | KName _, KName _ => True
  | KName _, KIdx _ => False
  end.

Fixpoint key_ordered (ks : list key) : Prop :=
  match ks with
  | [] => True
  | k :: r => Forall (key_le k) r /\ key_ordered r
  end.

(** Own properties replaced by those of a second object, positions kept. *)
Definition overlay (ps sps : props) : props :=
  foldl (fun acc e => replace_prop e.1 e.2 acc) ps sps.

(** What the loop over [depTypes] adds to [sorted] and allocates, [n] being the
    next free location. *)
Fixpoint plan (h : heap) (ps : props) (n : nat) (types : list string)
  : props * list obj :=
  match types with
  | [] => ([], [])
  | t :: ts =>
      match own ps (KName t) with
      | Some (VRef dl) =>
          match h !! dl with
          | Some (OObj dps) =>
              let '(sps, os) := plan h ps (S n) ts in
              ((KName t, VRef n) :: sps,
               OObj (build dps (sort dps.*1)) :: os)
          | _ => plan h ps n ts
          end
      | _ => plan h ps n ts
      end
  end.

(** A field of the manifest is absent, falsy, or a mapping without a
    [__proto__] key. *)
Definition field_ok (h : heap) (ps : props) (t : string) : Prop :=
  match own ps (KName t) with
  | None => True
  | Some v =>
      truthy v = false \/
      exists dl dps, v = VRef dl /\ h !! dl = Some (OObj dps) /\
        NoDup dps.*1 /\ proto_key ∉ dps.*1
  end.

(** [{dependencies: {"9": "y", "10": "x"}}] at 0, as [JSON.parse] builds it. *)
Definition numbered : heap :=
  [ OObj [(KName "dependencies", VRef 1%nat)];
    OObj [(KIdx 9, VStr "y"); (KIdx 10, VStr "x")] ].

(** [{name: "app", dependencies: {vue: "3", pinia: "2"}, version: "1"}] at 0. *)
Definition manifest : heap :=
  [ OObj [(KName "name", VStr "app"); (KName "dependencies", VRef 1%nat);
          (KName "version", VStr "1")];
    OObj [(KName "vue", VStr "3"); (KName "pinia", VStr "2")] ].

End SortDeps.

(** ** [src/utils/renderTemplate.js] *)

Module Render.
Import JS FS.

Section render.

(** [JSON.parse] and [JSON.stringify(value, null, indent)] are the language's;
    the renderer is modelled over any pair of them. *)
Variable JSON_parse : string -> heap -> res (val * heap).
Variable JSON_stringify : heap -> val -> nat -> res string.

(** The fuel given to [deepMerge]. *)
Variable mergeFuel : nat.

(** The manifest branch on the two texts: the text written to [dest]. *)
Definition merge_manifest (existing_text new_text : string) : res string :=
  let* r := JSON_parse existing_text [] in
  let '(existing, h) := r in
  let* r := JSON_parse new_text h in
  let '(newPackage, h) := r in
  let* h := DeepMerge.deepMerge mergeFuel existing newPackage h in
  let* r := SortDeps.sortDependencies existing h in
  let '(pkg, h) := r in
  let* s := JSON_stringify h pkg 2 in
  Ok (s ++ String "010"%char EmptyString)%string.

(** [filename.startsWith('_')] and [filename.replace(/^_/, '.')]. *)
Definition startsWith_underscore (filename : string) : bool :=
  match filename with
  | String "_"%char _ => true
  | _ => false
  end.

Definition replace_underscore (filename : string) : string :=
  match filename with
  | String "_"%char rest => String "."%char rest
  | _ => filename
  end.

(** The part of [renderTemplate] that handles a file. *)
Definition render_file (src dest : path) (w : world) : res world :=
  let filename := basename src in
  let* ex := if decide (filename = "package.json"%string)
             then existsSync (tree w) dest else Ok false in
  if ex then
    let* r := observe (EReadFile dest) (fun t => readFileSync t dest) w in
    let '(existing_text, w) := r in
    let* r := observe (EReadFile src) (fun t => readFileSync t src) w in
    let '(new_text, w) := r in
    let* text := merge_manifest existing_text new_text in
    change (EWriteFile dest) (fun t => writeFileSync t dest text) w
  else
    let dest :=
      if startsWith_underscore filename
      then path_resolve (dirname dest) (replace_underscore filename)
      else dest in
    change (ECopyFile src dest) (fun t => copyFileSync t src dest) w.

(** [function renderTemplate(src, dest)]. *)
Fixpoint renderTemplate (fuel : nat) (src dest : path) (w : world) : res world :=
  match fuel with
  | O => OutOfFuel
  | S fuel' =>
      let* stats := statSync (tree w) src in
      if isDirectory stats then
        let* w := change (EMkdir dest) (fun t => mkdirSync t dest) w in
        let* r := observe (EReaddir src) (fun t => readdirSync t src) w in
        let '(files, w) := r in
        forEach (fun file w =>
                   renderTemplate fuel' (path_resolve src file)
                     (path_resolve dest file) w)
          files w
      else render_file src dest w
  end.

End render.

(** A template with a hidden file and a file named by the marker alone, and an
    empty destination directory. *)
Definition template : node :=
  Dir [("tpl", Dir [("_gitignore", File "node_modules");
                    ("_", File "x");
                    ("main.js", File "m")]);
       ("out", Dir [])]%string.

(** Stand-ins for [JSON.parse] and [JSON.stringify] in the examples: three
    manifests, named by their texts and allocated as [JSON.parse] would, and
    the names of the [dependencies] of a manifest in enumeration order,
    separated by commas. *)
Definition parse_example (text : string) (h : heap) : res (val * heap) :=
  let n := List.length h in
  if String.eqb text "existing" then
    Ok (VRef n,
        h ++ [OObj [(KName "name", VStr "app"); (KName "dependencies", VRef (S n));
                    (KName "version", VStr "1")];
              OObj [(KName "vue", VStr "3"); (KName "pinia", VStr "2")]])
  else if String.eqb text "numbered" then
    Ok (VRef n,
        h ++ [OObj [(KName "dependencies", VRef (S n))];
              OObj [(KIdx 9, VStr "y"); (KIdx 10, VStr "x")]])
  else if String.eqb text "new" then
    Ok (VRef n,
        h ++ [OObj [(KName "dependencies", VRef (S n))];
              OObj [(KName "axios", VStr "1")]])
  else Throw SyntaxError.

Definition stringify_example (h : heap) (v : val) (indent : nat) : res string :=
  let* d := get h v (KName "dependencies") in
  let* ks := keys h d in
  Ok (String.concat "," (key_to_string <$> ks)).

(** A template with a manifest, and two destinations that have one. *)
Definition scaffold : node :=
  Dir [("tpl", Dir [("package.json", File "new")]);
       ("out", Dir [("package.json", File "existing")]);
       ("num", Dir [("package.json", File "numbered")])]%string.

End Render.
(** * [index.js]: the helpers around the traversals *)

Module Index.
Import JS FS Traverse.

(** [function canSafelyOverwrite(dir)] of [index.js]:
    [!fs.existsSync(dir) || fs.readdirSync(dir).length === 0]. *)
Definition canSafelyOverwrite (t : node) (dir : path) : res bool :=
  let* ex := existsSync t dir in
  if negb ex then Ok true
  else let* names := readdirSync t dir in
       Ok (bool_decide (List.length names = 0%nat)).

(** The names the clean-up pass of [index.js] removes. *)
Definition is_test_dir (name : string) : bool :=
  bool_decide (name = "cypress" \/ name = "__tests__")%string.

(** A tree without its directories named [cypress] or [__tests__]. *)
Fixpoint pruned (n : node) : node :=
  match n with
  | Dir es =>
      Dir ((fix go (es : entries) : entries :=
              match es with
              | [] => []
              | (s, c) :: es' =>
                  match c with
                  | Dir _ => if is_test_dir s then go es'
                             else (s, pruned c) :: go es'
                  | _ => (s, c) :: go es'
                  end
              end) es)
  | _ => n
  end.

Definition pruned_entries (es : entries) : entries :=
  match pruned (Dir es) with Dir es' => es' | _ => [] end.

(** The clean-up pass of [index.js] when no tests are wanted. *)
Definition removeTests (fuel : nat) (root : path) (w : world) : res world :=
  preOrderDirectoryTraverse fuel root (prune fuel) noop w.

(** Emptying the directory [c] found at [dir], bottom up, leaves an empty
    directory at [dir]. *)
Definition clears (c : node) : Prop :=
  forall fuel t dir l sub, c = Dir sub -> (depth c <= fuel)%nat ->
    walk t dir = Ok c ->
    exists t' l',
      postOrderDirectoryTraverse fuel dir (fun p t => rmdirSync t p)
        (fun p t => unlinkSync t p) (World t l) = Ok (World t' l') /\
      put t dir (Dir []) = Ok t'.

(** The clean-up pass over the directory [c] found at [dir] leaves [pruned c]
    at [dir]. *)
Definition prunes (c : node) : Prop :=
  forall fuel fuel2 t dir l sub, c = Dir sub ->
    (depth c <= fuel)%nat -> (depth c <= fuel2)%nat ->
    walk t dir = Ok c ->
    exists t' l',
      preOrderDirectoryTraverse fuel dir (prune fuel2) noop (World t l) =
        Ok (World t' l') /\
      put t dir (pruned c) = Ok t'.

(** Nothing at or below [q] is called before the directory callback on [q] in
    the pre-order log. *)
Definition pre_ordered (l : list event) : Prop :=
  forall l1 l2 q, l = l1 ++ EOnDir q :: l2 ->
  forall e, e ∈ l1 -> is_callback e = true -> ~ q `prefix_of` event_path e.

(** Nothing at or below [q] is called after the directory callback on [q] in
    the post-order log. *)
Definition post_ordered (l : list event) : Prop :=
  forall l1 l2 q, l = l1 ++ EOnDir q :: l2 ->
  forall e, e ∈ l2 -> is_callback e = true -> ~ q `prefix_of` event_path e.

End Index.

(** * Words for the copying branches of [renderTemplate] *)

Module RenderWords.
Import JS FS Render.

(** A template without symbolic links in which no file name starts with an
    underscore. *)
Fixpoint plain (n : node) : Prop :=
  match n with
  | File _ => True
  | Link _ => False
  | Dir es =>
      (fix all (l : entries) : Prop :=
         match l with
         | [] => True
         | (s, c) :: l' =>
             (isDirectory c = false -> startsWith_underscore s = false) /\
             plain c /\ all l'
         end) es
  end.

(** Two paths neither of which leads to the other. *)
Definition apart (p q : path) : Prop := ~ p `prefix_of` q /\ ~ q `prefix_of` p.

(** Rendering the node [n] found at [src] into a destination that is not
    there puts [n] at the destination. *)
Definition copies (JSON_parse : string -> heap -> res (val * heap))
    (JSON_stringify : heap -> val -> nat -> res string) (mergeFuel : nat)
    (n : node) : Prop :=
  forall fuel t src l dparent dn ds,
    walk t src = Ok n -> walk t dparent = Ok (Dir ds) -> dn ∉ ds.*1 ->
    apart src (dparent ++ [dn]) ->
    (isDirectory n = false -> startsWith_underscore (basename src) = false) ->
    (depth n <= fuel)%nat ->
    exists t' l',
      renderTemplate JSON_parse JSON_stringify mergeFuel (S fuel) src
        (dparent ++ [dn]) (World t l) = Ok (World t' l') /\
      put t (dparent ++ [dn]) n = Ok t'.

End RenderWords.

(** * Callbacks that delete what they are given *)

Module Deletion.
Import JS FS Traverse.

(** A directory callback that deletes the directory it is given, with all
    that is below it, and nothing else: the tree it returns is the tree
    without that entry. *)
Definition deletes (cb : callback) : Prop :=
  forall dir s t es sub,
    walk t dir = Ok (Dir es) -> entry s es = Some (Dir sub) ->
    cb (dir ++ [s]) t = put t dir (Dir (del_entry s es)).

(** [fs.rmSync(p, { recursive: true })], a callback of that kind. *)
Definition rmSync (p : path) (t : node) : res node :=
  remove (fun _ => Ok tt) t p.

(** The entries of a directory that are not directories. *)
Definition not_dirs (es : entries) : entries :=
  filter (fun e => isDirectory e.2 = false) es.

(** What the pre-order traversal logs for the entries [es] of [base] when no
    directory is there after its callback: the callback and the failed
    existence check for a directory, the callback for a file or a link. *)
Definition skip_events (base : path) (es : entries) : list event :=
  es ≫= (fun e =>
           if isDirectory e.2
           then [EOnDir (base ++ [e.1]); EExists (base ++ [e.1]) false]
           else [EOnFile (base ++ [e.1])]).

End Deletion.

(** * Further examples *)

Module MoreExamples.
Import JS DeepMerge MergeExamples Documents.

(** [{a: {}}] at 0 and, at 2, an object whose property [a] is the object
    itself. *)
Definition looped : heap :=
  [ OObj [(KName "a", VRef 1%nat)];
    OObj [];
    OObj [(KName "a", VRef 2%nat)] ].

(** The incoming document of [users]. *)
Definition user2_doc : doc :=
  DObj [(KName "name", DPrim (VStr "tony"));
        (KName "links", DObj [(KName "a", DPrim (VNum 3));
                              (KName "c", DPrim (VNum 4))])].

(** [{name: "app", version: "1", private: true, dependencies: null}] at 0. *)
Definition bare_manifest : heap :=
  [ OObj [(KName "name", VStr "app"); (KName "version", VStr "1");
          (KName "private", VBool true); (KName "dependencies", VNull)] ].

(** A template directory with a nested directory, beside an empty [out]. *)
Definition starter : FS.node :=
  FS.Dir [("tpl", FS.Dir [("src", FS.Dir [("main.js", FS.File "m")]);
                          ("package.json", FS.File "new");
                          ("README", FS.File "r")]);
          ("out", FS.Dir [])]%string.

End MoreExamples.

(** * Package names and commands *)

Module Names.
Import JS.

(** [export default function getCommand(packageManager, scriptName)]. *)
Definition getCommand (packageManager scriptName : string) : string :=
  if String.eqb scriptName "install" then
    if String.eqb packageManager "yarn" then "yarn"
    else packageManager +:+ " install"
  else
    if String.eqb packageManager "npm" then "npm run " +:+ scriptName
    else packageManager +:+ " " +:+ scriptName.

(** *** Regular expressions *)

(** The regular expressions of the package-name check: character classes,
    sequence, choice and repetition. *)
Inductive regex : Type :=
  | RNone
  | REps
  | RClass (f : ascii -> bool)
  | RSeq (r1 r2 : regex)
  | RAlt (r1 r2 : regex)
  | RStar (r : regex).

Fixpoint nullable (r : regex) : bool :=
  match r with
  | RNone => false
  | REps => true
  | RClass _ => false
  | RSeq r1 r2 => nullable r1 && nullable r2
  | RAlt r1 r2 => nullable r1 || nullable r2
  | RStar _ => true
  end.

(** What is left of [r] after the character [c]. *)
Fixpoint deriv (c : ascii) (r : regex) : regex :=
  match r with
  | RNone | REps => RNone
  | RClass f => if f c then REps else RNone
  | RSeq r1 r2 =>
      if nullable r1 then RAlt (RSeq (deriv c r1) r2) (deriv c r2)
      else RSeq (deriv c r1) r2
  | RAlt r1 r2 => RAlt (deriv c r1) (deriv c r2)
  | RStar r1 => RSeq (deriv c r1) (RStar r1)
  end.

(** [/^r$/.test(s)]. *)
Fixpoint test (r : regex) (s : list ascii) : bool :=
  match s with
  | [] => nullable r
  | c :: s' => test (deriv c r) s'
  end.

(** The strings of [r]. *)
Inductive lang : regex -> list ascii -> Prop :=
  | lang_eps : lang REps []
  | lang_class (f : ascii -> bool) (c : ascii) : f c = true -> lang (RClass f) [c]
  | lang_seq (r1 r2 : regex) (s1 s2 : list ascii) :
      lang r1 s1 -> lang r2 s2 -> lang (RSeq r1 r2) (s1 ++ s2)
  | lang_alt_l (r1 r2 : regex) (s : list ascii) : lang r1 s -> lang (RAlt r1 r2) s
  | lang_alt_r (r1 r2 : regex) (s : list ascii) : lang r2 s -> lang (RAlt r1 r2) s
  | lang_star_nil (r : regex) : lang (RStar r) []
  | lang_star_app (r : regex) (s1 s2 : list ascii) :
      lang r s1 -> lang (RStar r) s2 -> lang (RStar r) (s1 ++ s2).

(** *** Character classes *)

Definition code (c : ascii) : nat := nat_of_ascii c.

Definition between (lo hi : ascii) (c : ascii) : bool :=
  (code lo <=? code c)%nat && (code c <=? code hi)%nat.

Definition chr (x : ascii) (c : ascii) : bool := Ascii.eqb x c.

(** [[a-z0-9-~]]. *)
Definition name_first (c : ascii) : bool :=
  between "a" "z" c || between "0" "9" c || chr "-" c || chr "~" c.

(** [[a-z0-9-._~]]. *)
Definition name_rest (c : ascii) : bool :=
  between "a" "z" c || between "0" "9" c || chr "-" c || chr "." c || chr "_" c
  || chr "~" c.

(** [[a-z0-9-*~]]. *)
Definition scope_first (c : ascii) : bool :=
  between "a" "z" c || between "0" "9" c || chr "-" c || chr "*" c || chr "~" c.

(** [[a-z0-9-*._~]]. *)
Definition scope_rest (c : ascii) : bool :=
  between "a" "z" c || between "0" "9" c || chr "-" c || chr "*" c || chr "." c
  || chr "_" c || chr "~" c.

(** [(?:@[a-z0-9-*~][a-z0-9-*._~]*\/)?[a-z0-9-~][a-z0-9-._~]*]. *)
Definition package_name_re : regex :=
  RSeq
    (RAlt
       (RSeq (RClass (chr "@"))
          (RSeq (RClass scope_first)
             (RSeq (RStar (RClass scope_rest)) (RClass (chr "/")))))
       REps)
    (RSeq (RClass name_first) (RStar (RClass name_rest))).

(** [function isValidPackageName(projectName)]. *)
Definition isValidPackageName (projectName : string) : bool :=
  test package_name_re (String.list_ascii_of_string projectName).

(** The characters a package name is made of: [a-z0-9-*._~], [@] and [/]. *)
Definition name_char (c : ascii) : bool :=
  scope_rest c || chr "@" c || chr "/" c.

(** *** [toValidPackageName] *)

(** White space, for [trim] and for [\s], among the ASCII characters: tab, line
    feed, vertical tab, form feed, carriage return, space. *)
Definition is_space (c : ascii) : bool :=
  ((9 <=? code c) && (code c <=? 13))%nat || (code c =? 32)%nat.

Definition is_ascii (c : ascii) : bool := (code c <? 128)%nat.

(** [toLowerCase] on an ASCII character. *)
Definition lower (c : ascii) : ascii :=
  if between "A" "Z" c then ascii_of_nat (code c + 32) else c.

Fixpoint trim_start (s : list ascii) : list ascii :=
  match s with
  | c :: s' => if is_space c then trim_start s' else s
  | [] => []
  end.

(** [s.trim()]. *)
Definition trim (s : list ascii) : list ascii :=
  rev (trim_start (rev (trim_start s))).

(** [s.replace(/[cls]+/g, rep)] for a character class [cls]: every maximal run
    of characters of the class becomes [rep]. *)
Fixpoint replace_runs (cls : ascii -> bool) (rep : list ascii) (s : list ascii)
  : list ascii :=
  match s with
  | [] => []
  | c :: s' =>
      if cls c then
        match s' with
        | c' :: _ => if cls c' then replace_runs cls rep s'
                     else rep ++ replace_runs cls rep s'
        | [] => rep
        end
      else c :: replace_runs cls rep s'
  end.

(** [s.replace(/^[._]/, '')]. *)
Definition drop_leading_mark (s : list ascii) : list ascii :=
  match s with
  | c :: s' => if chr "." c || chr "_" c then s' else s
  | [] => []
  end.

(** [function toValidPackageName(projectName)], on ASCII strings; the case
    mapping and the white space of other characters are outside the model. *)
Definition toValidPackageName (projectName : string) : res string :=
  let s := String.list_ascii_of_string projectName in
  if forallb is_ascii s then
    Ok (String.string_of_list_ascii
          (replace_runs (fun c => negb (name_first c)) ["-"%char]
             (drop_leading_mark
                (replace_runs is_space ["-"%char]
                   (map lower (trim s))))))
  else Unsupported.

End Names.

(** * Properties of [deepMerge] *)

Module DeepMergeFacts.
Import JS DeepMerge.


Lemma own_None (ps : props) (k : key) : own ps k = None <-> k ∉ ps.*1.
Proof.
  induction ps as [|[k' v] ps IH]; simpl.
  - split; [intros _; apply not_elem_of_nil | done].
  - rewrite not_elem_of_cons. destruct (decide (k' = k)) as [->|Hne].
    + split; [done | intros [? _]; done].
    + rewrite IH. split; [intros ?; split; [congruence | done] | intros [_ ?]; done].
Qed.

Lemma own_Some_elem (ps : props) (k : key) (v : val) :
  own ps k = Some v -> (k, v) ∈ ps.
Proof.
  induction ps as [|[k' v'] ps IH]; simpl; [done|].
  destruct (decide (k' = k)) as [->|Hne].
  - intros [= ->]. apply elem_of_cons. by left.
  - intros H. apply elem_of_cons. right. auto.
Qed.

Lemma fst_replace_prop (k : key) (v : val) (ps : props) :
  (replace_prop k v ps).*1 = ps.*1.
Proof.
  induction ps as [|[k' v'] ps IH]; csimpl; [done|].
  destruct (decide (k' = k)) as [->|Hne]; csimpl; [done | by rewrite IH].
Qed.

Lemma own_replace_ne (k k1 : key) (v : val) (ps : props) :
  k <> k1 -> own (replace_prop k1 v ps) k = own ps k.
Proof.
  intros Hne. induction ps as [|[k' v'] ps IH]; simpl; [done|].
  destruct (decide (k' = k1)) as [->|Hne1]; simpl.
  - destruct (decide (k1 = k)); [congruence | done].
  - destruct (decide (k' = k)); [done | apply IH].
Qed.

Lemma own_replace_eq (k : key) (v : val) (ps : props) :
  is_Some (own ps k) -> own (replace_prop k v ps) k = Some v.
Proof.
  induction ps as [|[k' v'] ps IH]; simpl.
  - intros [? ?]; done.
  - destruct (decide (k' = k)) as [->|Hne]; simpl.
    + intros _. by rewrite decide_True.
    + intros H. rewrite decide_False by done. auto.
Qed.

Lemma own_add_ne (k k1 : key) (v : val) (ps : props) :
  k <> k1 -> own (add_prop k1 v ps) k = own ps k.
Proof.
  intros Hne. induction ps as [|[k' v'] ps IH]; cbn [own add_prop].
  - rewrite decide_False; [done | congruence].
  - destruct k1 as [i|s], k' as [i'|s']; cbn [own].
    + destruct (i <? i')%nat; cbn [own].
      * rewrite (decide_False (P := KIdx i = k)); [done | congruence].
      * destruct (decide (KIdx i' = k)); [done | apply IH].
    + rewrite (decide_False (P := KIdx i = k)); [done | congruence].
    + destruct (decide (KIdx i' = k)); [done | apply IH].
    + destruct (decide (KName s' = k)); [done | apply IH].
Qed.

Lemma own_add_eq (k : key) (v : val) (ps : props) :
  own ps k = None -> own (add_prop k v ps) k = Some v.
Proof.
  induction ps as [|[k' v'] ps IH]; cbn [own add_prop].
  - intros _. by rewrite decide_True.
  - destruct (decide (k' = k)) as [->|Hne]; [done|]. intros H.
    destruct k as [i|s], k' as [i'|s']; cbn [own].
    + destruct (i <? i')%nat; cbn [own].
      * by rewrite decide_True.
      * rewrite decide_False by done. auto.
    + by rewrite decide_True.
    + rewrite decide_False by done. auto.
    + rewrite decide_False by done. auto.
Qed.

Lemma fst_add_prop (k : key) (v : val) (ps : props) :
  (add_prop k v ps).*1 ≡ₚ k :: ps.*1.
Proof.
  induction ps as [|[k' v'] ps IH]; csimpl; [done|].
  destruct k as [i|s], k' as [i'|s']; csimpl.
  - destruct (i <? i')%nat; csimpl; [done|]. rewrite IH. apply Permutation_swap.
  - done.
  - rewrite IH. apply Permutation_swap.
  - rewrite IH. apply Permutation_swap.
Qed.

Lemma snd_replace_prop_refs (k : key) (v : val) (ps : props) (l : loc) :
  l ∈ (replace_prop k v ps).*2 ≫= val_refs ->
  l ∈ val_refs v \/ l ∈ ps.*2 ≫= val_refs.
Proof.
  induction ps as [|[k' v'] ps IH]; csimpl; [by right|].
  destruct (decide (k' = k)) as [->|Hne]; csimpl; rewrite !elem_of_app; [tauto|].
  intros [H|H]; [tauto|]. destruct (IH H); tauto.
Qed.


Lemma elem_keys_idx (i : nat) (es : list (option val)) (k : key) :
  k ∈ elem_keys i es -> exists j, k = KIdx j /\ (i <= j)%nat.
Proof.
  revert i. induction es as [|[v|] es IH]; intros i; cbn [elem_keys].
  - intros H. by apply elem_of_nil in H.
  - rewrite elem_of_cons. intros [->|H]; [eauto|].
    destruct (IH _ H) as (j & -> & ?). exists j. split; [done | lia].
  - intros H. destruct (IH _ H) as (j & -> & ?). exists j. split; [done | lia].
Qed.

Lemma elem_keys_NoDup (i : nat) (es : list (option val)) :
  NoDup (elem_keys i es).
Proof.
  revert i. induction es as [|[v|] es IH]; intros i; cbn [elem_keys].
  - constructor.
  - constructor; [|apply IH].
    intros H. destruct (elem_keys_idx _ _ _ H) as (j & [= <-] & ?). lia.
  - apply IH.
Qed.

Lemma obj_keys_NoDup (o : obj) : obj_wf o -> NoDup (obj_keys o).
Proof.
  destruct o as [ps|es ps]; cbn [obj_wf obj_keys]; [done|].
  intros [Hnd Hnames]. apply NoDup_app. split; [apply elem_keys_NoDup|].
  split; [|done].
  intros k Hk Hk'. destruct (elem_keys_idx _ _ _ Hk) as (j & -> & _).
  rewrite Forall_forall in Hnames. by destruct (Hnames _ Hk') as [? _].
Qed.

Lemma props_set_NoDup (k : key) (v : val) (ps : props) :
  NoDup ps.*1 ->
  NoDup (match own ps k with
         | Some _ => replace_prop k v ps
         | None => add_prop k v ps
         end).*1.
Proof.
  intros Hnd. destruct (own ps k) eqn:Hown.
  - by rewrite fst_replace_prop.
  - rewrite fst_add_prop. constructor; [by apply own_None | done].
Qed.

Lemma obj_set_wf (o o' : obj) (k : key) (v : val) :
  obj_wf o -> obj_set o k v = Ok o' -> obj_wf o'.
Proof.
  destruct o as [ps|es ps]; cbn [obj_wf obj_set].
  - intros Hnd. pose proof (props_set_NoDup k v ps Hnd) as Hnd'.
    destruct (own ps k); [by intros [= <-]|].
    destruct (decide (k = proto_key)); [done | by intros [= <-]].
  - intros [Hnd Hnames]. destruct k as [i|s].
    + destruct (i <? length es)%nat; by intros [= <-].
    + destruct (decide (KName s = length_key)) as [|Hlen].
      * destruct (set_length es v); cbn [rbind]; [by intros [= <-] | done..].
      * pose proof (props_set_NoDup (KName s) v ps Hnd) as Hnd'.
        destruct (own ps (KName s)) eqn:Hown.
        -- intros [= <-]. cbn [obj_wf]. by rewrite fst_replace_prop in *.
        -- destruct (decide (KName s = proto_key)); [done|]. intros [= <-].
           cbn [obj_wf]. split; [done|].
           rewrite fst_add_prop. by constructor.
Qed.

Lemma obj_set_plain (ps : props) (o' : obj) (k1 : key) (v : val) :
  obj_set (OObj ps) k1 v = Ok o' ->
  exists ps', o' = OObj ps' /\ own ps' k1 = Some v /\
    forall k, k <> k1 -> own ps' k = own ps k.
Proof.
  cbn [obj_set]. destruct (own ps k1) eqn:Hown.
  - intros [= <-]. eexists. split; [done|]. split.
    + apply own_replace_eq. by rewrite Hown.
    + intros k Hk. by apply own_replace_ne.
  - destruct (decide (k1 = proto_key)); [done|]. intros [= <-].
    eexists. split; [done|]. split.
    + by apply own_add_eq.
    + intros k Hk. by apply own_add_ne.
Qed.

Lemma props_set_own_ne (k k1 : key) (v : val) (ps : props) :
  k <> k1 ->
  own (match own ps k1 with
       | Some _ => replace_prop k1 v ps
       | None => add_prop k1 v ps
       end) k = own ps k.
Proof.
  intros Hne. destruct (own ps k1); [by apply own_replace_ne | by apply own_add_ne].
Qed.

(** A reference read at another key after an assignment was there before. *)
Lemma obj_get_set_ref (o o' : obj) (k k1 : key) (v : val) (r : loc) :
  obj_set o k1 v = Ok o' -> k <> k1 ->
  obj_get o' k = Ok (VRef r) -> obj_get o k = Ok (VRef r).
Proof.
  destruct o as [ps|es ps].
  - intros Hset Hne. destruct (obj_set_plain _ _ _ _ Hset) as (ps' & -> & _ & Hown).
    cbn [obj_get]. by rewrite Hown.
  - cbn [obj_set]. intros Hset Hne. destruct k1 as [i1|s1].
    + assert (exists es', o' = OArr es' ps /\
        forall i, i <> i1 -> elem_val (default None (es' !! i)) = VRef r ->
                  elem_val (default None (es !! i)) = VRef r) as (es' & -> & Hes).
      { destruct (i1 <? length es)%nat eqn:Hlt; injection Hset as <-;
          eexists; (split; [done|]); intros i Hi.
        - by rewrite list_lookup_insert_ne.
        - apply Nat.ltb_ge in Hlt.
          destruct (decide (i < length es)%nat).
          + by rewrite lookup_app_l.
          + rewrite lookup_app_r by lia.
            destruct (decide (i - length es < i1 - length es)%nat).
            * rewrite lookup_app_l by (rewrite length_replicate; lia).
              rewrite lookup_replicate_2 by lia. done.
            * rewrite lookup_app_r by (rewrite length_replicate; lia).
              rewrite length_replicate.
              destruct (i - length es - (i1 - length es))%nat eqn:E; [lia|done]. }
      destruct k as [i|s]; cbn [obj_get]; [|by case_decide].
      intros [= H]. f_equal. apply Hes; [congruence | done].
    + destruct (decide (KName s1 = length_key)) as [Hlen|Hlen].
      * destruct (set_length es v) as [es'| | |] eqn:Hsl; cbn [rbind] in Hset;
          try done. injection Hset as <-.
        destruct k as [i|s]; cbn [obj_get]; [|by case_decide].
        intros [= H]. f_equal.
        assert (exists n, es' = take n es ++ replicate (n - length es) None)
          as [n ->].
        { assert (forall z, array_resize es z = Ok es' ->
              exists n, es' = take n es ++ replicate (n - length es) None) as Hrs.
          { intros z. unfold array_resize.
            destruct (_ && _); [|done]. intros [= <-]. eauto. }
          destruct v; cbn [set_length] in Hsl; try done; eauto. }
        destruct (decide (i < length (take n es))%nat) as [Hi|Hi].
        -- rewrite lookup_app_l in H by done.
           rewrite length_take in Hi. by rewrite lookup_take_lt in H by lia.
        -- rewrite lookup_app_r in H by lia.
           destruct (replicate _ _ !! _) eqn:E; [|done].
           apply lookup_replicate in E as [-> _]. done.
      * assert (exists ps', o' = OArr es ps' /\
          forall k, k <> KName s1 -> own ps' k = own ps k) as (ps' & -> & Hps).
        { pose proof (fun k => props_set_own_ne k (KName s1) v ps) as Hps.
          destruct (own ps (KName s1)).
          - injection Hset as <-. eauto.
          - destruct (decide (KName s1 = proto_key)); [done|].
            injection Hset as <-. eauto. }
        destruct k as [i|s]; cbn [obj_get]; [done|]. by rewrite Hps.
Qed.


Lemma elem_get_ref (es : list (option val)) (i : nat) (r : loc) :
  elem_val (default None (es !! i)) = VRef r <-> es !! i = Some (Some (VRef r)).
Proof.
  destruct (es !! i) as [[v|]|]; cbn; split; intros H; try done; congruence.
Qed.

Lemma own_ref_elem (ps : props) (k : key) (r : loc) :
  own ps k = Some (VRef r) -> r ∈ ps.*2 ≫= val_refs.
Proof.
  intros H%own_Some_elem. apply list_elem_of_bind. exists (VRef r).
  split; [by apply list_elem_of_singleton|].
  apply list_elem_of_fmap. by exists (k, VRef r).
Qed.

Lemma elems_ref_elem (es : list (option val)) (i : nat) (r : loc) :
  es !! i = Some (Some (VRef r)) ->
  r ∈ es ≫= (fun e => val_refs (elem_val e)).
Proof.
  intros H. apply list_elem_of_bind. exists (Some (VRef r)).
  split; [by apply list_elem_of_singleton|]. by eapply list_elem_of_lookup_2.
Qed.

Lemma own_get_ref (ps : props) (k : key) (r : loc) :
  match own ps k with
  | Some v => Ok v
  | None => if decide (k = proto_key) then @Unsupported val else Ok VUndef
  end = Ok (VRef r) ->
  own ps k = Some (VRef r).
Proof.
  destruct (own ps k); [by intros [= ->] | by destruct (decide (k = proto_key))].
Qed.

(** A reference that can be read from an object is one it holds. *)
Lemma obj_get_ref_elem (o : obj) (k : key) (r : loc) :
  obj_get o k = Ok (VRef r) -> r ∈ obj_refs o.
Proof.
  destruct o as [ps|es ps]; cbn [obj_get obj_refs].
  - intros H%own_get_ref. by eapply own_ref_elem.
  - rewrite elem_of_app. destruct k as [i|s].
    + intros [= H%elem_get_ref]. left. by eapply elems_ref_elem.
    + destruct (decide (KName s = length_key)); [done|].
      intros H%own_get_ref. right. by eapply own_ref_elem.
Qed.

Lemma own_refs_inj (ps : props) (k1 k2 : key) (r : loc) :
  k1 <> k2 -> own ps k1 = Some (VRef r) -> own ps k2 = Some (VRef r) ->
  NoDup (ps.*2 ≫= val_refs) -> False.
Proof.
  intros Hne. induction ps as [|[k' v'] ps IH]; cbn [own]; [done|].
  csimpl. intros H1 H2 Hnd.
  destruct (decide (k' = k1)) as [E1|Hk1], (decide (k' = k2)) as [E2|Hk2];
    try congruence.
  - injection H1 as ->. cbn in Hnd. apply NoDup_cons in Hnd as [Hnin _].
    apply Hnin. by eapply own_ref_elem.
  - injection H2 as ->. cbn in Hnd. apply NoDup_cons in Hnd as [Hnin _].
    apply Hnin. by eapply own_ref_elem.
  - apply NoDup_app in Hnd as (_ & _ & Hnd). auto.
Qed.

Lemma elems_refs_inj (es : list (option val)) (i1 i2 : nat) (r : loc) :
  i1 <> i2 -> es !! i1 = Some (Some (VRef r)) -> es !! i2 = Some (Some (VRef r)) ->
  NoDup (es ≫= (fun e => val_refs (elem_val e))) -> False.
Proof.
  revert i1 i2. induction es as [|e es IH]; intros i1 i2 Hne; [done|].
  csimpl. intros H1 H2 Hnd.
  destruct i1 as [|i1], i2 as [|i2]; try done; cbn in H1, H2.
  - injection H1 as ->. cbn in Hnd. apply NoDup_cons in Hnd as [Hnin _].
    apply Hnin. by eapply elems_ref_elem.
  - injection H2 as ->. cbn in Hnd. apply NoDup_cons in Hnd as [Hnin _].
    apply Hnin. by eapply elems_ref_elem.
  - apply NoDup_app in Hnd as (_ & _ & Hnd). eapply (IH i1 i2); eauto.
Qed.

(** Two keys of an object whose references are pairwise distinct do not hold
    the same reference. *)
Lemma obj_get_ref_inj (o : obj) (k1 k2 : key) (r : loc) :
  NoDup (obj_refs o) -> k1 <> k2 ->
  obj_get o k1 = Ok (VRef r) -> obj_get o k2 = Ok (VRef r) -> False.
Proof.
  destruct o as [ps|es ps]; cbn [obj_refs]; intros Hnd Hne.
  - cbn [obj_get]. intros H1%own_get_ref H2%own_get_ref.
    by eapply own_refs_inj.
  - apply NoDup_app in Hnd as (Hes & Hdisj & Hps). intros H1 H2.
    assert (forall k, obj_get (OArr es ps) k = Ok (VRef r) ->
      (exists i, k = KIdx i /\ es !! i = Some (Some (VRef r))) \/
      (exists s, k = KName s /\ own ps k = Some (VRef r))) as Hcases.
    { intros [i|s]; cbn [obj_get].
      - intros [= H%elem_get_ref]. left. eauto.
      - destruct (decide (KName s = length_key)); [done|].
        intros H%own_get_ref. right. eauto. }
    destruct (Hcases _ H1) as [(i1 & -> & E1)|(s1 & -> & E1)],
             (Hcases _ H2) as [(i2 & -> & E2)|(s2 & -> & E2)].
    + eapply (elems_refs_inj es i1 i2); eauto; congruence.
    + eapply Hdisj; [by eapply elems_ref_elem | by eapply own_ref_elem].
    + eapply Hdisj; [by eapply elems_ref_elem | by eapply own_ref_elem].
    + by eapply own_refs_inj.
Qed.



Lemma ltree_ind' (P : ltree -> Prop) :
  (forall l kids, Forall P kids -> P (LNode l kids)) -> forall t, P t.
Proof.
  intros H. fix IH 1. intros [l kids]. apply H.
  induction kids as [|k kids IHk]; constructor; [apply IH | apply IHk].
Qed.

Lemma owns_node (h : heap) (l : loc) (kids : list ltree) :
  owns h (LNode l kids) = true <->
  exists o, h !! l = Some o /\ obj_refs o = root <$> kids /\
            Forall (fun K => owns h K = true) kids.
Proof.
  cbn [owns]. destruct (h !! l) as [o|]; [|split; [done | by intros (? & ? & _)]].
  split.
  - intros [H1 H2]%andb_true_iff. apply bool_decide_eq_true in H1.
    exists o. split; [done|]. split; [done|]. apply Forall_forall.
    intros K HK. apply (proj1 (forallb_forall _ _) H2). by apply list_elem_of_In.
  - intros (o' & [= <-] & H1 & H2). apply andb_true_iff.
    split; [by apply bool_decide_eq_true|]. apply forallb_forall.
    intros K HK. rewrite Forall_forall in H2. apply H2. by apply list_elem_of_In.
Qed.

Lemma owns_agree (h h' : heap) (t : ltree) :
  (forall l, l ∈ locs t -> h' !! l = h !! l) ->
  owns h t = true -> owns h' t = true.
Proof.
  induction t as [l kids IH] using ltree_ind'. intros Hag.
  rewrite !owns_node. intros (o & Hl & Hrefs & Hkids).
  exists o. split; [|split; [done|]].
  - rewrite Hag; [done|]. cbn. apply elem_of_cons. by left.
  - rewrite Forall_forall in IH, Hkids |- *. intros K HK.
    apply IH; [done| |by apply Hkids].
    intros l' Hl'. apply Hag. cbn. apply elem_of_cons. right.
    apply list_elem_of_join. exists (locs K). split; [done|].
    apply list_elem_of_fmap. by exists K.
Qed.

Lemma owns_lt (h : heap) (t : ltree) (l : loc) :
  owns h t = true -> l ∈ locs t -> (l < length h)%nat.
Proof.
  induction t as [l0 kids IH] using ltree_ind'.
  rewrite owns_node. intros (o & Hl & _ & Hkids). cbn.
  rewrite elem_of_cons, list_elem_of_join.
  intros [->|(ls & Hin & [K [-> HK]]%list_elem_of_fmap)].
  - by eapply lookup_lt_Some.
  - rewrite Forall_forall in IH, Hkids. by eapply IH; [| apply Hkids |].
Qed.

Lemma locs_root (t : ltree) : root t ∈ locs t.
Proof. destruct t. cbn. apply elem_of_cons. by left. Qed.

Lemma concat_NoDup_disjoint {A} (ls : list (list A)) (a b : list A) (x : A) :
  NoDup (mjoin ls) -> a ∈ ls -> b ∈ ls -> a <> b -> x ∈ a -> x ∈ b -> False.
Proof.
  induction ls as [|c ls IH]; cbn; [by intros _ ?%elem_of_nil|].
  rewrite NoDup_app, !elem_of_cons. intros (_ & Hdisj & Hnd) Ha Hb Hne Hxa Hxb.
  destruct Ha as [->|Ha], Hb as [->|Hb]; try done.
  - eapply Hdisj; [done|]. apply list_elem_of_join. eauto.
  - eapply Hdisj; [done|]. apply list_elem_of_join. eauto.
  - eauto.
Qed.

Lemma kids_disjoint (kids : list ltree) (K K' : ltree) (l : loc) :
  NoDup (mjoin (locs <$> kids)) -> K ∈ kids -> K' ∈ kids ->
  root K <> root K' -> l ∈ locs K -> l ∈ locs K' -> False.
Proof.
  intros Hnd HK HK' Hne Hl Hl'.
  destruct (decide (locs K = locs K')) as [Heq|Hneq].
  - destruct K, K'. cbn in *. congruence.
  - eapply (concat_NoDup_disjoint _ (locs K) (locs K')); eauto;
      apply list_elem_of_fmap; eauto.
Qed.


Lemma obj_get_fuel (o : obj) (k : key) : obj_get o k <> OutOfFuel.
Proof.
  destruct o as [ps|es ps]; cbn [obj_get].
  - destruct (own ps k); [done | by case_decide].
  - destruct k; [done|]. case_decide; [done|].
    destruct (own ps _); [done | by case_decide].
Qed.

Lemma obj_set_fuel (o : obj) (k : key) (v : val) : obj_set o k v <> OutOfFuel.
Proof.
  destruct o as [ps|es ps]; cbn [obj_set].
  - destruct (own ps k); [done | by case_decide].
  - destruct k; [by destruct (_ <? _)%nat|]. case_decide.
    + unfold set_length, array_resize.
      destruct v; cbn [rbind]; try done; by destruct (_ && _).
    + destruct (own ps _); [done | by case_decide].
Qed.

Lemma get_fuel (h : heap) (v : val) (k : key) : get h v k <> OutOfFuel.
Proof.
  destruct v; cbn [get]; try done; try by case_decide.
  - destruct k; cbn [str_get]; [done|]. by repeat case_decide.
  - destruct (h !! l); [apply obj_get_fuel | done].
Qed.

Lemma kids_locs_elem (kids : list ltree) (l : loc) :
  l ∈ kids_locs kids <-> exists K, K ∈ kids /\ l ∈ locs K.
Proof.
  unfold kids_locs. rewrite list_elem_of_join. split.
  - intros (ls & Hl & [K [-> HK]]%list_elem_of_fmap). eauto.
  - intros (K & HK & Hl). exists (locs K). split; [done|].
    apply list_elem_of_fmap. eauto.
Qed.

Lemma kids_locs_filter_NoDup (P : ltree -> Prop) `{!forall K, Decision (P K)}
    (kids : list ltree) :
  NoDup (kids_locs kids) -> NoDup (kids_locs (filter P kids)).
Proof.
  unfold kids_locs. induction kids as [|K kids IH]; [done|]. csimpl.
  rewrite NoDup_app. intros (HK & Hdisj & Hnd).
  rewrite filter_cons. destruct (decide (P K)); csimpl; [|by apply IH].
  apply NoDup_app. split; [done|]. split; [|by apply IH].
  intros l Hl Hl'. apply (Hdisj l Hl).
  apply (kids_locs_elem kids l). apply (kids_locs_elem (filter P kids) l) in Hl'.
  destruct Hl' as (K' & [_ HK']%list_elem_of_filter & ?). eauto.
Qed.

Lemma roots_NoDup (kids : list ltree) :
  NoDup (kids_locs kids) -> NoDup (root <$> kids).
Proof.
  unfold kids_locs. induction kids as [|K kids IH]; csimpl; [constructor|].
  rewrite NoDup_app. intros (HK & Hdisj & Hnd). constructor; [|by apply IH].
  intros [K' [Heq HK']]%list_elem_of_fmap.
  apply (Hdisj (root K)); [apply locs_root|].
  apply (kids_locs_elem kids). exists K'. split; [done|].
  rewrite Heq. apply locs_root.
Qed.

Lemma height_kid (kids : list ltree) (K : ltree) :
  K ∈ kids -> (height K <= foldr Nat.max 0 (height <$> kids))%nat.
Proof.
  induction kids as [|K' kids IH]; [by intros ?%elem_of_nil|]. csimpl.
  rewrite elem_of_cons. intros [->|H]; [lia|]. specialize (IH H). lia.
Qed.

Lemma keys_NoDup (h : heap) (y : val) (ks : list key) :
  heap_wf h -> keys h y = Ok ks -> NoDup ks.
Proof.
  intros Hwf. destruct y; cbn [keys]; try done.
  - intros [= <-]. constructor.
  - intros [= <-]. constructor.
  - intros [= <-]. apply NoDup_fmap; [by intros ?? [= ->] | apply NoDup_seq].
  - destruct (h !! l) as [o|] eqn:Hl; [|done]. intros [= <-].
    apply obj_keys_NoDup. unfold heap_wf in Hwf. rewrite Forall_forall in Hwf.
    apply Hwf. by eapply list_elem_of_lookup_2.
Qed.


Section loop.
Context (f : nat) (rec : val -> val -> heap -> jsres heap).
Context (Hrec : rec_ok f rec) (x : loc) (y : val).

Lemma loop_frame (ks : list key) : forall (kids : list ltree) (h : heap) (o : obj),
  NoDup ks -> heap_wf h -> h !! x = Some o -> covers o ks kids ->
  Forall (fun K => owns h K = true) kids ->
  NoDup (x :: kids_locs kids) ->
  loop_post f x ks kids h o (forEach (merge_key rec (VRef x) y) ks h).
Proof using Hrec.
  induction ks as [|k ks IH]; intros kids h o Hks Hwf Hx Hcov Hown Hnd.
  { cbn. split; [done|]. split; [done|]. split; [done|]. exists o. split; [done|].
    intros ps ->. eauto. }
  apply NoDup_cons in Hks as [Hk Hks].
  apply NoDup_cons in Hnd as [Hxk Hndk].
  destruct Hcov as [Hcov1 Hcov2].
  (* what follows the assignment to [target[key]] *)
  assert (forall h1 v kids1,
    (length h <= length h1)%nat -> heap_wf h1 -> h1 !! x = Some o ->
    (forall l, (l < length h)%nat -> l <> x -> l ∉ kids_locs kids ->
       h1 !! l = h !! l) ->
    (forall K, K ∈ kids1 -> K ∈ kids) -> NoDup (kids_locs kids1) ->
    Forall (fun K => owns h1 K = true) kids1 ->
    (forall k' r', k' ∈ ks -> obj_get o k' = Ok (VRef r') ->
       exists K, K ∈ kids1 /\ root K = r') ->
    loop_post f x (k :: ks) kids h o
      (let* h2 := set h1 (VRef x) k v in
       forEach (merge_key rec (VRef x) y) ks h2)) as Hcont.
  { intros h1 v kids1 Hlen Hwf1 Hx1 Hfr Hsub Hnd1 Hown1 Hcov1'.
    unfold JS.set. rewrite Hx1.
    destruct (obj_set o k v) as [o'| | |] eqn:Hset; cbn [rbind loop_post];
      [|done|done|by apply obj_set_fuel in Hset].
    assert (x ∉ kids_locs kids1) as Hxk1.
    { rewrite kids_locs_elem. intros (K & HK & Hl). apply Hxk.
      apply kids_locs_elem. eauto. }
    assert (x < length h1)%nat as Hxlt by by eapply lookup_lt_Some.
    specialize (IH kids1 (<[x := o']> h1) o').
    destruct (forEach _ ks _) as [h'| | |]; cbn [loop_post] in IH |- *.
    - destruct IH as (Hlen' & Hwf' & Hfr' & o'' & Hx' & Hps'); try done.
      + apply Forall_insert; [done|]. eapply obj_set_wf; [|done].
        unfold heap_wf in Hwf1. rewrite Forall_forall in Hwf1.
        apply Hwf1. by eapply list_elem_of_lookup_2.
      + by apply list_lookup_insert_eq.
      + split.
        * intros k' r' Hk' Hget. apply (Hcov1' k' r' Hk').
          eapply obj_get_set_ref; [done| |done]. intros ->. done.
        * intros k1 k2 r Hk1 Hk2 Hne H1 H2.
          apply (Hcov2 k1 k2 r); [by apply elem_of_cons; right..|done| |].
          -- eapply obj_get_set_ref; [done| |done]. intros ->. done.
          -- eapply obj_get_set_ref; [done| |done]. intros ->. done.
      + rewrite Forall_forall in Hown1 |- *. intros K HK.
        eapply owns_agree; [|by apply Hown1]. intros l Hl.
        apply list_lookup_insert_ne. intros <-. apply Hxk1.
        apply kids_locs_elem. eauto.
      + by constructor.
      + rewrite length_insert in Hlen'. split; [lia|]. split; [done|]. split.
        * intros l Hl Hlx Hlk. rewrite Hfr'; [| rewrite length_insert; lia | done |].
          -- rewrite list_lookup_insert_ne by done. by apply Hfr.
          -- rewrite kids_locs_elem. intros (K & HK & HlK). apply Hlk.
             apply kids_locs_elem. eauto.
        * exists o''. split; [done|]. intros ps ->.
          destruct (obj_set_plain _ _ _ _ Hset) as (ps1 & -> & _ & Hps1).
          destruct (Hps' ps1 eq_refl) as (ps2 & -> & Hps2).
          exists ps2. split; [done|]. intros k' [Hne Hk']%not_elem_of_cons.
          rewrite Hps2 by done. by apply Hps1.
    - done.
    - done.
    - destruct IH as (K & HK & Hf); try done.
      + apply Forall_insert; [done|]. eapply obj_set_wf; [|done].
        unfold heap_wf in Hwf1. rewrite Forall_forall in Hwf1.
        apply Hwf1. by eapply list_elem_of_lookup_2.
      + by apply list_lookup_insert_eq.
      + split.
        * intros k' r' Hk' Hget. apply (Hcov1' k' r' Hk').
          eapply obj_get_set_ref; [done| |done]. intros ->. done.
        * intros k1 k2 r Hk1 Hk2 Hne H1 H2.
          apply (Hcov2 k1 k2 r); [by apply elem_of_cons; right..|done| |].
          -- eapply obj_get_set_ref; [done| |done]. intros ->. done.
          -- eapply obj_get_set_ref; [done| |done]. intros ->. done.
      + rewrite Forall_forall in Hown1 |- *. intros K HK.
        eapply owns_agree; [|by apply Hown1]. intros l Hl.
        apply list_lookup_insert_ne. intros <-. apply Hxk1.
        apply kids_locs_elem. eauto.
      + by constructor.
      + eauto. }
  cbn [forEach]. unfold merge_key at 1. unfold JS.get at 1. rewrite Hx.
  destruct (obj_get o k) as [old| | |] eqn:Hold; cbn [rbind loop_post];
    [|done|done|by apply obj_get_fuel in Hold].
  destruct (get h y k) as [new| | |] eqn:Hnew; cbn [rbind loop_post];
    [|done|done|by apply get_fuel in Hnew].
  destruct (isArray h old && isArray h new) eqn:Harr.
  - (* both arrays: a fresh array *)
    unfold mergeArrayWithDedupe, alloc.
    apply Hcont with (kids1 := kids).
    + rewrite length_app. lia.
    + apply Forall_app. split; [done|]. constructor; [|constructor].
      cbn. split; constructor.
    + rewrite lookup_app_l; [done | by eapply lookup_lt_Some].
    + intros l Hl _ _. by rewrite lookup_app_l.
    + done.
    + done.
    + rewrite Forall_forall in Hown |- *. intros K HK.
      eapply owns_agree; [|by apply Hown]. intros l Hl.
      apply lookup_app_l. eapply owns_lt; [by apply Hown | done].
    + intros k' r' Hk' Hget. apply (Hcov1 k' r'); [|done].
      apply elem_of_cons. by right.
  - destruct (isObject old && isObject new) eqn:Hobj.
    + (* both objects: recursion into the old value *)
      destruct old as [| | | | |r]; try done.
      destruct (Hcov1 k r) as (K & HK & HrK); [apply elem_of_cons; by left|done|].
      subst r. rewrite Forall_forall in Hown.
      assert (NoDup (locs K)) as HndK.
      { unfold kids_locs in Hndk. clear -Hndk HK.
        induction kids as [|K' kids IHk]; [by apply elem_of_nil in HK|].
        csimpl in Hndk. apply NoDup_app in Hndk as (? & _ & ?).
        apply elem_of_cons in HK as [->|HK]; auto. }
      pose proof (Hrec K new h Hwf (Hown K HK) HndK) as HrK.
      destruct (rec (VRef (root K)) new h) as [h1| | |]; cbn [rbind loop_post];
        [|done|done|eauto].
      destruct HrK as (Hlen1 & Hwf1 & Hfr1).
      assert (forall l, l ∈ locs K -> l ∈ kids_locs kids) as HKsub.
      { intros l Hl. apply kids_locs_elem. eauto. }
      apply Hcont with (kids1 := filter (fun K' => root K' <> root K) kids).
      * done.
      * done.
      * rewrite Hfr1; [done | by eapply lookup_lt_Some | auto].
      * intros l Hl _ Hlk. apply Hfr1; auto.
      * by intros K' [_ ?]%list_elem_of_filter.
      * by apply kids_locs_filter_NoDup.
      * rewrite Forall_forall. intros K' [Hne HK']%list_elem_of_filter.
        eapply owns_agree; [|by apply Hown]. intros l Hl.
        apply Hfr1; [eapply owns_lt; [by apply Hown | done]|].
        intros Hl'. by eapply (kids_disjoint kids K' K l).
      * intros k' r' Hk' Hget.
        destruct (Hcov1 k' r') as (K' & HK' & <-);
          [apply elem_of_cons; by right | done |].
        exists K'. split; [|done]. apply list_elem_of_filter. split; [|done].
        intros Heq. apply (Hcov2 k' k (root K'));
          [apply elem_of_cons; by right | apply elem_of_cons; by left
          | by intros -> | done | by rewrite Heq].
    + (* otherwise: the new value *)
      apply Hcont with (kids1 := kids); try done.
      intros k' r' Hk' Hget. apply (Hcov1 k' r'); [|done].
      apply elem_of_cons. by right.
Qed.
End loop.

(** [deepMerge] on a tree-shaped target changes only the target's own objects
    and allocates; it finishes when the fuel exceeds the height of the
    target. *)
Lemma deepMerge_ok (f : nat) : rec_ok f (deepMerge f).
Proof.
  induction f as [|f IH]; intros K y h Hwf Hown Hnd.
  { cbn. lia. }
  cbn [deepMerge]. destruct (keys h y) as [ks| | |] eqn:Hks; cbn [rbind]; try done.
  2:{ destruct y; cbn [keys] in Hks; try done. by destruct (h !! l). }
  destruct K as [x kids]. cbn [root].
  apply owns_node in Hown as (o & Hx & Hrefs & Hkids).
  cbn [locs] in Hnd.
  pose proof (loop_frame f (deepMerge f) IH x y ks kids h o) as Hloop.
  pose proof Hnd as Hnd'. apply NoDup_cons in Hnd' as [_ Hndk].
  destruct (forEach _ ks h) as [h'| | |]; cbn [loop_post] in Hloop; try done.
  - destruct Hloop as (Hlen & Hwf' & Hfr & _).
    + by eapply keys_NoDup.
    + done.
    + done.
    + split.
      * intros k r _ Hget. apply obj_get_ref_elem in Hget.
        rewrite Hrefs in Hget. apply list_elem_of_fmap in Hget as (K & -> & HK).
        eauto.
      * intros k1 k2 r _ _ Hne. apply obj_get_ref_inj; [|done].
        rewrite Hrefs. by apply roots_NoDup.
    + done.
    + done.
    + split; [done|]. split; [done|].
      intros l Hl [Hlx Hlk]%not_elem_of_cons. by apply Hfr.
  - destruct Hloop as (K & HK & Hf).
    + by eapply keys_NoDup.
    + done.
    + done.
    + split.
      * intros k r _ Hget. apply obj_get_ref_elem in Hget.
        rewrite Hrefs in Hget. apply list_elem_of_fmap in Hget as (K & -> & HK).
        eauto.
      * intros k1 k2 r _ _ Hne. apply obj_get_ref_inj; [|done].
        rewrite Hrefs. by apply roots_NoDup.
    + done.
    + done.
    + cbn [height]. pose proof (height_kid kids K HK). lia.
Qed.


Lemma forEach_app {X S} (body : X -> S -> res S) (xs ys : list X) (s : S) :
  forEach body (xs ++ ys) s = let* s' := forEach body xs s in forEach body ys s'.
Proof.
  revert s. induction xs as [|x xs IH]; intros s; cbn [forEach app rbind]; [done|].
  destruct (body x s); cbn [rbind]; [apply IH | done..].
Qed.

Section keyed.
Context (f : nat) (rec : val -> val -> heap -> jsres heap).
Context (Hrec : rec_ok f rec) (x : loc) (y : val).
Context (kids : list ltree) (h0 : heap) (ps0 : props).
Context (Hown0 : owns h0 (LNode x kids) = true).
Context (Hnd0 : NoDup (locs (LNode x kids))).
Context (Hx0 : h0 !! x = Some (OObj ps0)).

Lemma keyed_loop (ks : list key) (h : heap) (ps : props) :
  NoDup ks -> heap_wf h -> h !! x = Some (OObj ps) ->
  (forall k, k ∈ ks -> own ps k = own ps0 k) ->
  (forall k K l, k ∈ ks -> kid_at ps0 kids k K -> l ∈ locs K ->
     h !! l = h0 !! l) ->
  keyed_post f x ks kids ps0 h ps (forEach (merge_key rec (VRef x) y) ks h).
Proof using Hrec Hown0 Hnd0 Hx0.
  intros Hks Hwf Hx Hps Hreg.
  apply owns_node in Hown0 as (o0 & Hx0' & Hrefs & Hkids).
  rewrite Hx0 in Hx0'. injection Hx0' as <-.
  cbn [locs] in Hnd0. apply NoDup_cons in Hnd0 as [Hxk Hndk].
  fold (kids_locs kids) in Hxk, Hndk.
  set (P := fun K : ltree =>
    Exists (fun k => own ps0 k = Some (VRef (root K))) ks).
  pose proof (loop_frame f rec Hrec x y ks (filter P kids) h (OObj ps)) as Hloop.
  assert (forall K, K ∈ filter P kids ->
            exists k, k ∈ ks /\ kid_at ps0 kids k K) as HP.
  { intros K [HPK HK]%list_elem_of_filter.
    apply Exists_exists in HPK as (k & Hk & Hown). exists k. by repeat split. }
  assert (loop_post f x ks (filter P kids) h (OObj ps)
            (forEach (merge_key rec (VRef x) y) ks h)) as Hpost.
  { apply Hloop; try done.
    - split.
      + intros k r Hk Hget%own_get_ref. rewrite Hps in Hget by done.
        assert (r ∈ obj_refs (OObj ps0)) as Hr by by eapply own_ref_elem.
        rewrite Hrefs in Hr. apply list_elem_of_fmap in Hr as (K & -> & HK).
        exists K. split; [|done]. apply list_elem_of_filter. split; [|done].
        apply Exists_exists. eauto.
      + intros k1 k2 r Hk1 Hk2 Hne H1%own_get_ref H2%own_get_ref.
        rewrite Hps in H1, H2 by done.
        eapply (own_refs_inj ps0 k1 k2 r); try done.
        change (NoDup (obj_refs (OObj ps0))). rewrite Hrefs.
        by apply roots_NoDup.
    - rewrite Forall_forall in Hkids |- *. intros K HK.
      destruct (HP K HK) as (k & Hk & Hkid).
      eapply owns_agree; [|apply Hkids, Hkid].
      intros l Hl. by eapply Hreg.
    - constructor; [|by apply kids_locs_filter_NoDup].
      rewrite kids_locs_elem. intros (K & [_ HK]%list_elem_of_filter & Hl).
      apply Hxk. apply kids_locs_elem. eauto. }
  clear Hloop. destruct (forEach _ ks h) as [h'| | |];
    cbn [loop_post keyed_post] in *; try done.
  - destruct Hpost as (Hlen & Hwf' & Hfr & o' & Hx' & Hps').
    destruct (Hps' ps eq_refl) as (ps' & -> & Hps'').
    split; [done|]. split; [done|]. split; [eauto|].
    intros l Hl Hlx Hlk. apply Hfr; [done..|].
    rewrite kids_locs_elem. intros (K & HK & HlK).
    destruct (HP K HK) as (k & Hk & Hkid). by apply (Hlk k K).
  - destruct Hpost as (K & [_ HK]%list_elem_of_filter & Hf). eauto.
Qed.
End keyed.


Lemma Set_add_elem (s : list val) (x v : val) :
  v ∈ Set_add s x <-> v ∈ s \/ v = x.
Proof.
  unfold Set_add. destruct (decide (x ∈ s)) as [Hx|Hx].
  - split; [by left | intros [?| ->]; done].
  - rewrite elem_of_app, list_elem_of_singleton. done.
Qed.

Lemma Set_add_NoDup (s : list val) (x : val) : NoDup s -> NoDup (Set_add s x).
Proof.
  intros Hnd. unfold Set_add. destruct (decide (x ∈ s)) as [Hx|Hx]; [done|].
  apply NoDup_app. split; [done|]. split; [|apply NoDup_singleton].
  intros v Hv ->%list_elem_of_singleton. done.
Qed.

Lemma foldl_Set_add_elem (l s : list val) (v : val) :
  v ∈ foldl Set_add s l <-> v ∈ s \/ v ∈ l.
Proof.
  revert s. induction l as [|x l IH]; intros s; cbn [foldl].
  - rewrite elem_of_nil. tauto.
  - rewrite IH, Set_add_elem, elem_of_cons. tauto.
Qed.

Lemma foldl_Set_add_NoDup (l s : list val) :
  NoDup s -> NoDup (foldl Set_add s l).
Proof.
  revert s. induction l as [|x l IH]; intros s Hs; cbn [foldl]; [done|].
  by apply IH, Set_add_NoDup.
Qed.

Lemma new_Set_elem (l : list val) (v : val) : v ∈ new_Set l <-> v ∈ l.
Proof.
  unfold new_Set. rewrite foldl_Set_add_elem, elem_of_nil. tauto.
Qed.

Lemma new_Set_NoDup (l : list val) : NoDup (new_Set l).
Proof. apply foldl_Set_add_NoDup. constructor. Qed.

Lemma Set_add_nil (x : val) : Set_add [] x = [x].
Proof.
  unfold Set_add. destruct (decide (x ∈ [])) as [H|H]; [|done].
  by apply elem_of_nil in H.
Qed.

(** Adding to a set keeps what is there and appends the unseen values in
    first-seen order. *)
Lemma foldl_Set_add_filter (l s : list val) :
  foldl Set_add s l = s ++ filter (fun v => v ∉ s) (new_Set l).
Proof.
  unfold new_Set. revert s. induction l as [|x l IH]; intros s; cbn [foldl].
  { by rewrite filter_nil, app_nil_r. }
  rewrite Set_add_nil, (IH [x]), (IH (Set_add s x)).
  cbn [app]. rewrite filter_cons. unfold Set_add.
  destruct (decide (x ∈ s)) as [Hx|Hx].
  - destruct (decide (x ∉ s)) as [Hx'|_]; [done|]. f_equal.
    rewrite list_filter_filter. apply list_filter_iff.
    intros v. rewrite list_elem_of_singleton. split; [|tauto].
    intros Hv. split; [done|]. by intros ->.
  - destruct (decide (x ∉ s)) as [_|Hx']; [|done].
    rewrite <- app_assoc. cbn [app]. do 2 f_equal.
    rewrite list_filter_filter. apply list_filter_iff.
    intros v. rewrite elem_of_app, list_elem_of_singleton. tauto.
Qed.

(** The union keeps the first sequence's values in order, then those of the
    second that were not seen. *)
Lemma new_Set_app (a b : list val) :
  new_Set (a ++ b) = new_Set a ++ filter (fun v => v ∉ a) (new_Set b).
Proof.
  unfold new_Set at 1. rewrite foldl_app. fold (new_Set a).
  rewrite foldl_Set_add_filter. f_equal. apply list_filter_iff.
  intros v. by rewrite new_Set_elem.
Qed.

Lemma new_Set_NoDup_id (l : list val) : NoDup l -> new_Set l = l.
Proof.
  induction l as [|x l IH] using rev_ind; [done|].
  rewrite NoDup_app. intros (Hl & Hdisj & _).
  unfold new_Set. rewrite foldl_app. fold (new_Set l). rewrite IH by done.
  cbn [foldl]. unfold Set_add. destruct (decide (x ∈ l)) as [Hx|Hx]; [|done].
  destruct (Hdisj x Hx). by apply list_elem_of_singleton.
Qed.

Lemma filter_none {A} (P : A -> Prop) `{!forall x, Decision (P x)} (l : list A) :
  (forall x, x ∈ l -> ~ P x) -> filter P l = [].
Proof.
  induction l as [|x l IH]; intros Hno; [done|].
  rewrite filter_cons_False; [|apply Hno, elem_of_cons; by left].
  apply IH. intros y Hy. apply Hno, elem_of_cons. by right.
Qed.

(** Merging again with a sequence that is already included changes nothing. *)
Lemma new_Set_absorb (a b : list val) :
  new_Set (new_Set (a ++ b) ++ b) = new_Set (a ++ b).
Proof.
  rewrite new_Set_app. rewrite (new_Set_NoDup_id (new_Set (a ++ b)))
    by apply new_Set_NoDup.
  rewrite filter_none; [by rewrite app_nil_r|].
  intros v Hv Hn. apply Hn. apply (proj1 (new_Set_elem _ _)) in Hv.
  apply new_Set_elem. apply elem_of_app. by right.
Qed.

Lemma new_Set_snoc (l : list val) (x : val) :
  new_Set (l ++ [x]) = Set_add (new_Set l) x.
Proof. unfold new_Set. by rewrite foldl_app. Qed.

(** First-seen order: a value that comes before another in the set occurs in
    the list before every occurrence of the other. *)
Lemma new_Set_order (l : list val) (i j : nat) (u v : val) :
  (i < j)%nat -> new_Set l !! i = Some u -> new_Set l !! j = Some v ->
  exists p, l !! p = Some u /\ forall q, l !! q = Some v -> (p < q)%nat.
Proof.
  revert i j u v. induction l as [|x l IH] using rev_ind; intros i j u v Hij Hu Hv.
  { done. }
  rewrite new_Set_snoc in Hu, Hv. unfold Set_add in Hu, Hv.
  destruct (decide (x ∈ new_Set l)) as [Hx|Hx].
  - destruct (IH i j u v Hij Hu Hv) as (p & Hp & Hq).
    exists p. split; [by apply lookup_app_l_Some|].
    intros q Hq'. apply lookup_app_Some in Hq' as [Hq'|[Hlen Hq']]; [by apply Hq|].
    apply lookup_lt_Some in Hp. lia.
  - apply lookup_app_Some in Hv as [Hv|[Hlen Hv]].
    + assert (new_Set l !! i = Some u) as Hu'.
      { apply lookup_lt_Some in Hv. rewrite lookup_app_l in Hu by lia. done. }
      destruct (IH i j u v Hij Hu' Hv) as (p & Hp & Hq).
      exists p. split; [by apply lookup_app_l_Some|].
      intros q Hq'. apply lookup_app_Some in Hq' as [Hq'|[Hlen Hq']]; [by apply Hq|].
      apply lookup_lt_Some in Hp. lia.
    + apply list_lookup_singleton_Some in Hv as [Hj <-].
      assert (new_Set l !! i = Some u) as Hu'.
      { rewrite lookup_app_l in Hu by lia. done. }
      assert (u ∈ l) as Hul.
      { apply new_Set_elem. by eapply list_elem_of_lookup_2. }
      apply list_elem_of_lookup_1 in Hul as [p Hp].
      exists p. split; [by apply lookup_app_l_Some|].
      intros q Hq'. apply lookup_app_Some in Hq' as [Hq'|[Hlen' Hq']].
      * destruct Hx. apply new_Set_elem. by eapply list_elem_of_lookup_2.
      * apply lookup_lt_Some in Hp. lia.
Qed.

Lemma isArray_isObject (h : heap) (v : val) : isArray h v = true -> isObject v = true.
Proof. by destruct v. Qed.

Lemma get_plain (h : heap) (x : loc) (ps : props) (k : key) :
  h !! x = Some (OObj ps) -> get h (VRef x) k = obj_get (OObj ps) k.
Proof. intros Hx. unfold get. by rewrite Hx. Qed.

Lemma obj_get_plain_own (ps ps' : props) (k : key) :
  own ps' k = own ps k -> obj_get (OObj ps') k = obj_get (OObj ps) k.
Proof. cbn [obj_get]. by intros ->. Qed.

Lemma get_keys_lt (h : heap) (y : loc) (ks : list key) :
  keys h (VRef y) = Ok ks -> (y < length h)%nat.
Proof.
  cbn [keys]. destruct (h !! y) eqn:Hy; [|done]. intros _.
  by eapply lookup_lt_Some.
Qed.

(** Reading a property of a value other than the target depends only on that
    value's own object. *)
Lemma get_agree (h h1 : heap) (v : val) (k : key) :
  (forall y, v = VRef y -> h1 !! y = h !! y) -> get h1 v k = get h v k.
Proof.
  intros Hag. destruct v; cbn [get]; try done. by rewrite Hag.
Qed.

Section target.
Context (f : nat) (rec : val -> val -> heap -> jsres heap).
Context (Hrec : rec_ok f rec) (x : loc) (y : val).
Context (kids : list ltree) (h : heap) (ps : props).
Context (Hwf : heap_wf h).
Context (Hown : owns h (LNode x kids) = true).
Context (Hnd : NoDup (locs (LNode x kids))).
Context (Hx : h !! x = Some (OObj ps)).

Lemma kid_at_loc (k : key) (K : ltree) (l : loc) :
  kid_at ps kids k K -> l ∈ locs K -> l <> x /\ (l < length h)%nat.
Proof using Hown Hnd.
  intros [HK _] Hl. split.
  - intros ->. cbn [locs] in Hnd. apply NoDup_cons in Hnd as [Hxk _].
    apply Hxk. apply (kids_locs_elem kids x). eauto.
  - apply owns_node in Hown as (o & _ & _ & Hkids).
    rewrite Forall_forall in Hkids. eapply owns_lt; [by apply Hkids | done].
Qed.

Lemma kid_at_disjoint (k1 k2 : key) (K1 K2 : ltree) (l : loc) :
  k1 <> k2 -> kid_at ps kids k1 K1 -> kid_at ps kids k2 K2 ->
  l ∈ locs K1 -> l ∈ locs K2 -> False.
Proof using Hown Hnd Hx.
  intros Hne [HK1 Ho1] [HK2 Ho2] Hl1 Hl2.
  cbn [locs] in Hnd. apply NoDup_cons in Hnd as [_ Hndk].
  apply owns_node in Hown as (o & Hx' & Hrefs & _).
  rewrite Hx in Hx'. injection Hx' as <-.
  eapply (kids_disjoint kids K1 K2 l); try done.
  intros Heq. rewrite Heq in Ho1.
  eapply (own_refs_inj ps k1 k2); try done.
  change (NoDup (obj_refs (OObj ps))). rewrite Hrefs. by apply roots_NoDup.
Qed.

Let body := merge_key rec (VRef x) y.

(** A run of the loop, cut at one of its keys. *)
Lemma run_at_key (ks1 ks2 : list key) (k : key) (h' : heap) :
  NoDup (ks1 ++ k :: ks2) ->
  forEach body (ks1 ++ k :: ks2) h = Ok h' ->
  exists h1 ps1 h2,
    (length h <= length h1)%nat /\ heap_wf h1 /\
    h1 !! x = Some (OObj ps1) /\
    (forall k', k' ∉ ks1 -> own ps1 k' = own ps k') /\
    (forall l, (l < length h)%nat -> l <> x ->
       (forall k' K, k' ∈ ks1 -> kid_at ps kids k' K -> l ∉ locs K) ->
       h1 !! l = h !! l) /\
    body k h1 = Ok h2 /\
    forall ps2, heap_wf h2 -> h2 !! x = Some (OObj ps2) ->
      (forall k', k' ∈ ks2 -> own ps2 k' = own ps1 k') ->
      (forall l, (l < length h1)%nat -> l <> x -> h2 !! l = h1 !! l) ->
      (length h2 <= length h')%nat /\
      (exists ps', h' !! x = Some (OObj ps') /\
         forall k', k' ∉ ks2 -> own ps' k' = own ps2 k') /\
      (forall l, (l < length h2)%nat -> l <> x ->
         (forall k' K, k' ∈ ks2 -> kid_at ps kids k' K -> l ∉ locs K) ->
         h' !! l = h2 !! l).
Proof using Hrec Hwf Hown Hnd Hx.
  intros Hks. apply NoDup_app in Hks as (Hks1 & Hdisj & Hks2).
  apply NoDup_cons in Hks2 as [Hk2 Hks2].
  rewrite forEach_app.
  pose proof (keyed_loop f rec Hrec x y kids h ps Hown Hnd Hx ks1 h ps
                Hks1 Hwf Hx (fun _ _ => eq_refl) (fun _ _ _ _ _ _ => eq_refl))
    as Hpre.
  destruct (forEach _ ks1 h) as [h1| | |]; cbn [rbind keyed_post] in Hpre |- *;
    try done.
  destruct Hpre as (Hlen1 & Hwf1 & (ps1 & Hx1 & Hps1) & Hfr1).
  cbn [forEach]. fold body. destruct (body k h1) as [h2| | |] eqn:Hbody; cbn [rbind];
    try done.
  intros Hrest. exists h1, ps1, h2. do 5 (split; [done|]). split; [done|].
  intros ps2 Hwf2 Hx2 Hps2 Hfr2.
  pose proof (keyed_loop f rec Hrec x y kids h ps Hown Hnd Hx ks2 h2 ps2
                Hks2 Hwf2 Hx2) as Hsuf.
  fold body in Hsuf. rewrite Hrest in Hsuf. cbn [keyed_post] in Hsuf.
  destruct Hsuf as (Hlen' & _ & Hps' & Hfr').
  - intros k' Hk'. rewrite Hps2 by done. apply Hps1.
    intros Hk1. apply (Hdisj k' Hk1). apply elem_of_cons. by right.
  - intros k' K l Hk' Hkid Hl.
    destruct (kid_at_loc k' K l Hkid Hl) as [Hlx Hlt].
    rewrite Hfr2 by (done || lia). apply Hfr1; [done..|].
    intros k'' K'' Hk'' Hkid'' Hl''.
    apply (kid_at_disjoint k' k'' K K'' l); try done.
    intros ->. apply (Hdisj k'' Hk''). apply elem_of_cons. by right.
  - done.
Qed.
End target.


(** With fuel above the height of a tree-shaped target, [deepMerge] finishes:
    it returns or raises. *)
Lemma deepMerge_fuel (fuel : nat) (h : heap) (t : ltree) (obj : val) :
  heap_wf h -> tree_doc h t -> (height t < fuel)%nat ->
  deepMerge fuel (VRef (root t)) obj h <> OutOfFuel.
Proof.
  intros Hwf [Hown Hnd] Hfuel Hout.
  pose proof (deepMerge_ok fuel t obj h Hwf Hown Hnd) as Hok.
  rewrite Hout in Hok. lia.
Qed.


Lemma set_wf (h h' : heap) (v x : val) (k : key) :
  heap_wf h -> JS.set h v k x = Ok h' -> heap_wf h'.
Proof.
  intros Hwf. destruct v; unfold JS.set; try done.
  destruct (h !! l) as [o|] eqn:Hl; [|done].
  destruct (obj_set o k x) as [o'| | |] eqn:Hset; cbn [rbind]; try done.
  intros [= <-]. apply Forall_insert; [done|]. eapply obj_set_wf; [|done].
  unfold heap_wf in Hwf. rewrite Forall_forall in Hwf.
  apply Hwf. by eapply list_elem_of_lookup_2.
Qed.

(** The assignment [target[key] = v] on a plain object whose [key] can be read. *)
Lemma set_plain (h : heap) (x : loc) (ps : props) (k : key) (old v : val) :
  h !! x = Some (OObj ps) -> get h (VRef x) k = Ok old ->
  exists ps', JS.set h (VRef x) k v = Ok (<[x := OObj ps']> h) /\
    own ps' k = Some v /\ forall k', k' <> k -> own ps' k' = own ps k'.
Proof.
  intros Hx Hget. rewrite (get_plain _ _ _ _ Hx) in Hget.
  unfold JS.set. rewrite Hx.
  destruct (obj_set (OObj ps) k v) as [o'| | |] eqn:Hset; cbn [rbind].
  - destruct (obj_set_plain _ _ _ _ Hset) as (ps' & -> & ? & ?). eauto.
  - cbn [obj_set] in Hset. destruct (own ps k); [done | by case_decide].
  - cbn [obj_set obj_get] in Hset, Hget.
    destruct (own ps k); [done|]. by case_decide.
  - by apply obj_set_fuel in Hset.
Qed.

(** At a key where the old and the new value are not both objects, the loop
    body is the plain assignment: the recursive call is not made. *)
Lemma merge_key_assign (rec : val -> val -> heap -> jsres heap)
    (h : heap) (x : loc) (obj : val) (ps : props) (k : key) (old new : val) :
  h !! x = Some (OObj ps) ->
  get h (VRef x) k = Ok old -> get h obj k = Ok new ->
  isObject old && isObject new = false ->
  exists ps', merge_key rec (VRef x) obj k h = Ok (<[x := OObj ps']> h) /\
    own ps' k = Some new /\ forall k', k' <> k -> own ps' k' = own ps k'.
Proof.
  intros Hx Hold Hnew Hobj. unfold merge_key. rewrite Hold, Hnew. cbn [rbind].
  assert (isArray h old && isArray h new = false) as ->.
  { destruct (isArray h old) eqn:E1; [|done].
    destruct (isArray h new) eqn:E2; [|done].
    apply isArray_isObject in E1, E2. by rewrite E1, E2 in Hobj. }
  rewrite Hobj. by eapply set_plain.
Qed.

(** At a key where both values are arrays, the loop body stores a fresh array
    holding the set of their elements. *)
Lemma merge_key_arrays (rec : val -> val -> heap -> jsres heap)
    (h : heap) (x : loc) (obj : val) (ps : props) (k : key) (old new : val) :
  h !! x = Some (OObj ps) ->
  get h (VRef x) k = Ok old -> get h obj k = Ok new ->
  isArray h old = true -> isArray h new = true ->
  exists ps',
    merge_key rec (VRef x) obj k h =
      Ok (<[x := OObj ps']>
            (h ++ [OArr (Some <$> new_Set (spread h old ++ spread h new)) []])) /\
    own ps' k = Some (VRef (length h)) /\
    forall k', k' <> k -> own ps' k' = own ps k'.
Proof.
  intros Hx Hold Hnew Ho Hn. unfold merge_key. rewrite Hold, Hnew. cbn [rbind].
  rewrite Ho, Hn. cbn [andb]. unfold mergeArrayWithDedupe, alloc.
  eapply set_plain.
  - rewrite lookup_app_l; [done | by eapply lookup_lt_Some].
  - rewrite get_plain with (ps := ps).
    + by rewrite <- (get_plain h x ps k Hx).
    + rewrite lookup_app_l; [done | by eapply lookup_lt_Some].
Qed.


(** Facts shared by the whole-run statements: the state in which the loop
    reaches one of its keys. *)
Lemma reach_key (f : nat) (h : heap) (x : loc) (kids : list ltree) (obj : val)
    (ps : props) (ks1 ks2 : list key) (k : key) (h' : heap) :
  heap_wf h -> tree_doc h (LNode x kids) -> h !! x = Some (OObj ps) ->
  (forall y, obj = VRef y -> y ∉ locs (LNode x kids)) ->
  keys h obj = Ok (ks1 ++ k :: ks2) ->
  forEach (merge_key (deepMerge f) (VRef x) obj) (ks1 ++ k :: ks2) h = Ok h' ->
  exists h1 ps1 h2,
    (length h <= length h1)%nat /\ heap_wf h1 /\
    h1 !! x = Some (OObj ps1) /\
    get h1 (VRef x) k = get h (VRef x) k /\
    get h1 obj k = get h obj k /\
    (forall l, (l < length h)%nat -> l ∉ locs (LNode x kids) -> h1 !! l = h !! l) /\
    (forall K l, kid_at ps kids k K -> l ∈ locs K -> h1 !! l = h !! l) /\
    merge_key (deepMerge f) (VRef x) obj k h1 = Ok h2 /\
    forall ps2, heap_wf h2 -> h2 !! x = Some (OObj ps2) ->
      (forall k', k' <> k -> own ps2 k' = own ps1 k') ->
      (forall l, (l < length h1)%nat -> l <> x -> h2 !! l = h1 !! l) ->
      (length h1 <= length h2)%nat ->
      (exists ps', h' !! x = Some (OObj ps') /\ own ps' k = own ps2 k) /\
      (forall l, (l < length h2)%nat -> l <> x ->
         (forall K, K ∈ kids -> (l < length h)%nat -> l ∉ locs K \/ kid_at ps kids k K) ->
         h' !! l = h2 !! l).
Proof.
  intros Hwf [Hown Hnd] Hx Hobj Hks Hrun.
  pose proof (keys_NoDup _ _ _ Hwf Hks) as Hnd_ks.
  destruct (run_at_key f (deepMerge f) (deepMerge_ok f) x obj kids h ps
              Hwf Hown Hnd Hx ks1 ks2 k h' Hnd_ks Hrun)
    as (h1 & ps1 & h2 & Hlen1 & Hwf1 & Hx1 & Hps1 & Hfr1 & Hbody & Hsuf).
  apply NoDup_app in Hnd_ks as (Hks1 & Hdisj & Hks2).
  apply NoDup_cons in Hks2 as [Hk2 Hks2].
  assert (k ∉ ks1) as Hk1.
  { intros Hk1. apply (Hdisj k Hk1). apply elem_of_cons. by left. }
  assert (forall l, (l < length h)%nat -> l ∉ locs (LNode x kids) ->
            h1 !! l = h !! l) as Hout.
  { intros l Hl Hnl. cbn [locs] in Hnl. apply not_elem_of_cons in Hnl as [Hlx Hlk].
    apply Hfr1; [done..|]. intros k' K _ [HK _] HlK. apply Hlk.
    apply (kids_locs_elem kids l). eauto. }
  assert (forall K l, kid_at ps kids k K -> l ∈ locs K -> h1 !! l = h !! l) as Hkid.
  { intros K l Hkid Hl.
    destruct (kid_at_loc x kids h ps Hown Hnd k K l Hkid Hl) as [Hlx Hlt].
    apply Hfr1; [done..|]. intros k' K' Hk' Hkid' Hl'.
    apply (kid_at_disjoint x kids h ps Hown Hnd Hx k k' K K' l); try done.
    by intros ->. }
  exists h1, ps1, h2. split; [done|]. split; [done|]. split; [done|].
  split. { rewrite !get_plain with (ps := ps1) by done.
           rewrite (get_plain h x ps k Hx). apply obj_get_plain_own. auto. }
  split. { apply get_agree. intros y ->. apply Hout; [|auto].
           assert (is_Some (h !! y)) as [? ?]; [|by eapply lookup_lt_Some].
           cbn [keys] in Hks. by destruct (h !! y). }
  split; [done|]. split; [done|]. split; [done|].
  intros ps2 Hwf2 Hx2 Hps2 Hfr2 Hlen2.
  destruct (Hsuf ps2 Hwf2 Hx2) as (_ & (ps' & Hx' & Hps') & Hfr').
  - intros k' Hk'. apply Hps2. by intros ->.
  - done.
  - split; [exists ps'; split; [done | by apply Hps'] |].
    intros l Hl Hlx Hcond. apply Hfr'; [done..|].
    intros k' K Hk' Hkid' HlK.
    destruct (kid_at_loc x kids h ps Hown Hnd k' K l Hkid' HlK) as [_ Hlt].
    destruct (Hcond K (proj1 Hkid') Hlt) as [Hn|Hkidk]; [done|].
    apply (kid_at_disjoint x kids h ps Hown Hnd Hx k k' K K l); try done.
    by intros ->.
Qed.



(** The whole run at a key where both values are arrays: the key ends up
    holding the fresh array that [mergeArrayWithDedupe] built from the two
    arrays as they were before the merge. *)
Lemma deepMerge_arrays_run
    (fuel : nat) (h : heap) (x : loc) (kids : list ltree) (obj : val)
    (ps : props) (ks : list key) (k : key) (old new : val) :
  heap_wf h -> tree_doc h (LNode x kids) -> h !! x = Some (OObj ps) ->
  (forall y, obj = VRef y -> y ∉ locs (LNode x kids)) ->
  (forall n, new = VRef n -> n ∉ locs (LNode x kids)) ->
  keys h obj = Ok ks -> k ∈ ks ->
  get h (VRef x) k = Ok old -> get h obj k = Ok new ->
  isArray h old = true -> isArray h new = true ->
  ((height (LNode x kids) < fuel)%nat ->
   deepMerge fuel (VRef x) obj h <> OutOfFuel) /\
  forall h', deepMerge fuel (VRef x) obj h = Ok h' ->
    exists l es,
      get h' (VRef x) k = Ok (VRef l) /\ (length h <= l)%nat /\
      h' !! l = Some (OArr (Some <$> es) []) /\
      es = new_Set (spread h old ++ spread h new) /\
      es = new_Set (spread h old) ++
           filter (fun v => v ∉ spread h old) (new_Set (spread h new)) /\
      NoDup es.
Proof.
  intros Hwf Hdoc Hx Hobj Hnewout Hks Hk Hold Hnew Ho Hn.
  split; [by apply (deepMerge_fuel fuel h (LNode x kids))|]. intros h'.
  destruct fuel as [|f]; [done|]. cbn [deepMerge].
  rewrite Hks. cbn [rbind]. intros Hrun.
  apply list_elem_of_split in Hk as (ks1 & ks2 & ->).
  destruct (reach_key f h x kids obj ps ks1 ks2 k h' Hwf Hdoc Hx Hobj Hks Hrun)
    as (h1 & ps1 & h2 & Hlen1 & Hwf1 & Hx1 & Hold1 & Hnew1 & Hout & Hkid
        & Hbody & Hsuf).
  rewrite Hold in Hold1. rewrite Hnew in Hnew1.
  destruct old as [| | | | |a]; try done. destruct new as [| | | | |n]; try done.
  assert (kid_at ps kids k (LNode a [])  \/ True) as _ by by right.
  (* the two arrays are unchanged when the loop reaches the key *)
  assert (exists K, kid_at ps kids k K /\ root K = a) as (K & HkidK & <-).
  { destruct Hdoc as [Hown Hnd].
    apply owns_node in Hown as (o & Hx' & Hrefs & _).
    rewrite Hx in Hx'. injection Hx' as <-.
    rewrite (get_plain _ _ _ _ Hx) in Hold. apply own_get_ref in Hold.
    assert (a ∈ obj_refs (OObj ps)) as Ha by by eapply own_ref_elem.
    rewrite Hrefs in Ha. apply list_elem_of_fmap in Ha as (K & -> & HK).
    exists K. by repeat split. }
  assert (h1 !! root K = h !! root K) as Ha1.
  { eapply Hkid; [done | apply locs_root]. }
  assert (h1 !! n = h !! n) as Hn1.
  { apply Hout; [|by apply Hnewout].
    cbn [isArray] in Hn. destruct (h !! n) eqn:E; [|done].
    by eapply lookup_lt_Some. }
  destruct (merge_key_arrays (deepMerge f) h1 x obj ps1 k (VRef (root K)) (VRef n)
              Hx1 Hold1 Hnew1) as (ps2 & Hbody' & Hown2 & Hps2).
  { cbn [isArray]. by rewrite Ha1. }
  { cbn [isArray]. by rewrite Hn1. }
  assert (x < length h1)%nat as Hxlt by by eapply lookup_lt_Some.
  set (es := new_Set (spread h (VRef (root K)) ++ spread h (VRef n))).
  assert (spread h1 (VRef (root K)) ++ spread h1 (VRef n) =
          spread h (VRef (root K)) ++ spread h (VRef n)) as Hsp.
  { cbn [spread]. by rewrite Ha1, Hn1. }
  rewrite Hsp in Hbody'. fold es in Hbody'.
  rewrite Hbody' in Hbody. injection Hbody as <-.
  destruct (Hsuf ps2) as ((ps' & Hx' & Hps') & Hfr').
  - apply Forall_insert.
    + apply Forall_app. split; [done|]. constructor; [|constructor].
      cbn. split; constructor.
    + assert (heap_wf (<[x := OObj ps2]> (h1 ++ [OArr (Some <$> es) []]))) as Hwf2.
      { revert Hbody'. unfold merge_key. rewrite Hold1, Hnew1. cbn [rbind].
        cbn [isArray]. rewrite Ha1, Hn1.
        cbn [isArray] in Ho, Hn. rewrite Ho, Hn. cbn [andb].
        unfold mergeArrayWithDedupe, alloc. apply set_wf.
        apply Forall_app. split; [done|]. constructor; [|constructor].
        cbn. split; constructor. }
      unfold heap_wf in Hwf2. rewrite Forall_forall in Hwf2.
      apply (Hwf2 (OObj ps2)). eapply list_elem_of_lookup_2.
      apply list_lookup_insert_eq. rewrite length_app. lia.
  - apply list_lookup_insert_eq. rewrite length_app. lia.
  - done.
  - intros l Hl Hlx. rewrite list_lookup_insert_ne by done. by apply lookup_app_l.
  - rewrite length_insert, length_app. lia.
  - exists (length h1), es. split.
    { rewrite (get_plain _ _ _ _ Hx'). cbn [obj_get]. by rewrite Hps', Hown2. }
    split; [done|]. split.
    { rewrite Hfr'.
      - rewrite list_lookup_insert_ne by lia.
        rewrite lookup_app_r by lia. by rewrite Nat.sub_diag.
      - rewrite length_insert, length_app. cbn. lia.
      - lia.
      - intros K' HK' Hlt. lia. }
    split; [done|]. split; [apply new_Set_app | apply new_Set_NoDup].
Qed.

Lemma new_Set_union (xs ys : list val) :
  union_first_seen xs ys (new_Set (xs ++ ys)).
Proof.
  split; [apply new_Set_NoDup|]. split.
  - intros v. by rewrite new_Set_elem, elem_of_app.
  - intros i j u v. apply new_Set_order.
Qed.

(** Assigning to a key that holds a reference succeeds and the key then holds
    the value assigned, on a plain object and on an array. *)
Lemma obj_set_get (o : obj) (k : key) (a : loc) (v : val) :
  obj_get o k = Ok (VRef a) ->
  exists o', obj_set o k v = Ok o' /\ obj_get o' k = Ok v.
Proof.
  destruct o as [ps|es ps]; cbn [obj_get obj_set].
  - destruct (own ps k) as [w|] eqn:Hown; [|by case_decide].
    intros _. eexists. split; [done|]. cbn [obj_get].
    rewrite own_replace_eq; [done|by rewrite Hown].
  - destruct k as [i|s].
    + intros Hget. destruct (es !! i) as [e|] eqn:Hi; [|done].
      pose proof (lookup_lt_Some _ _ _ Hi) as Hlt.
      apply Nat.ltb_lt in Hlt. rewrite Hlt. eexists. split; [done|].
      cbn [obj_get]. rewrite list_lookup_insert_eq; [done|by apply Nat.ltb_lt].
    + case_decide; [done|].
      destruct (own ps (KName s)) as [w|] eqn:Hown; [|by case_decide].
      intros _. eexists. split; [done|]. cbn [obj_get].
      rewrite decide_False by done.
      rewrite own_replace_eq; [done|by rewrite Hown].
Qed.

(** At a key where both values are arrays the loop body succeeds, on any
    target: the key then holds a new array, the deduplicated union of the
    two. *)
Lemma merge_key_union (rec : val -> val -> heap -> jsres heap)
    (h : heap) (target obj : val) (k : key) (a n : loc)
    (ea en : list (option val)) (pa pn : props) :
  get h target k = Ok (VRef a) -> get h obj k = Ok (VRef n) ->
  h !! a = Some (OArr ea pa) -> h !! n = Some (OArr en pn) ->
  exists h' es,
    merge_key rec target obj k h = Ok h' /\
    get h' target k = Ok (VRef (length h)) /\
    h' !! length h = Some (OArr (Some <$> es) []) /\
    union_first_seen (elem_val <$> ea) (elem_val <$> en) es.
Proof.
  intros Hold Hnew Ha Hn. unfold merge_key. rewrite Hold, Hnew. cbn [rbind].
  cbn [isArray]. rewrite Ha, Hn. cbn [andb].
  unfold mergeArrayWithDedupe, alloc. cbn [spread]. rewrite Ha, Hn.
  set (es := new_Set ((elem_val <$> ea) ++ (elem_val <$> en))).
  destruct target as [| | | | |t]; cbn [get] in Hold; try done;
    try (by case_decide).
  { destruct k; cbn [str_get] in Hold; [by destruct (String.get _ _)|].
    by repeat case_decide. }
  destruct (h !! t) as [o|] eqn:Ht; [|done].
  destruct (obj_set_get o k a (VRef (length h)) Hold) as (o' & Hset & Hget).
  pose proof (lookup_lt_Some _ _ _ Ht) as Hlt.
  exists (<[t := o']> (h ++ [OArr (Some <$> es) []])), es.
  split; [|split; [|split]].
  - unfold JS.set. rewrite lookup_app_l by done. rewrite Ht, Hset. done.
  - cbn [get]. rewrite list_lookup_insert_eq; [done|]. rewrite length_app. lia.
  - rewrite list_lookup_insert_ne by lia.
    rewrite lookup_app_r by lia. by rewrite Nat.sub_diag.
  - apply new_Set_union.
Qed.

(** C4.  Sequence merge.  At a key where [target[k]] and [incoming[k]] are
    both arrays the loop body of [deepMerge] succeeds, whatever the target and
    the state of the heap: the key then holds a new array, the deduplicated
    union of the two sequences in first-seen order (no duplicates, exactly the
    elements of the two, those of [target[k]] first).  For a target that is a
    plain mapping laid out as a tree the same holds of the whole merge: it
    does not loop, and when it returns the key holds the union of the two
    sequences as they were before the merge. *)
Theorem deepMerge_arrays_union
    (fuel : nat) (h : heap) (x : loc) (kids : list ltree) (obj : val)
    (ps : props) (ks : list key) (k : key) (a n : loc)
    (ea en : list (option val)) (pa pn : props) :
  heap_wf h -> tree_doc h (LNode x kids) -> h !! x = Some (OObj ps) ->
  (forall y, obj = VRef y -> y ∉ locs (LNode x kids)) ->
  n ∉ locs (LNode x kids) ->
  keys h obj = Ok ks -> k ∈ ks ->
  get h (VRef x) k = Ok (VRef a) -> get h obj k = Ok (VRef n) ->
  h !! a = Some (OArr ea pa) -> h !! n = Some (OArr en pn) ->
  (forall rec h1 target1 obj1 a1 n1 ea1 en1 pa1 pn1,
     get h1 target1 k = Ok (VRef a1) -> get h1 obj1 k = Ok (VRef n1) ->
     h1 !! a1 = Some (OArr ea1 pa1) -> h1 !! n1 = Some (OArr en1 pn1) ->
     exists h2 es,
       merge_key rec target1 obj1 k h1 = Ok h2 /\
       get h2 target1 k = Ok (VRef (length h1)) /\
       h2 !! length h1 = Some (OArr (Some <$> es) []) /\
       union_first_seen (elem_val <$> ea1) (elem_val <$> en1) es) /\
  ((height (LNode x kids) < fuel)%nat ->
   deepMerge fuel (VRef x) obj h <> OutOfFuel) /\
  forall h', deepMerge fuel (VRef x) obj h = Ok h' ->
    exists l es,
      get h' (VRef x) k = Ok (VRef l) /\ (length h <= l)%nat /\
      h' !! l = Some (OArr (Some <$> es) []) /\
      union_first_seen (elem_val <$> ea) (elem_val <$> en) es /\
      (exists e1 e2, es = e1 ++ e2 /\
         (forall v, v ∈ e1 <-> v ∈ elem_val <$> ea) /\
         (forall v, v ∈ e2 <->
            v ∈ elem_val <$> en /\ v ∉ elem_val <$> ea)) /\
      (NoDup (elem_val <$> ea) -> (elem_val <$> ea) `prefix_of` es).
Proof.
  intros Hwf Hdoc Hx Hobj Hn Hks Hk Hold Hnew Ha Hnh.
  split.
  { intros rec h1 target1 obj1 a1 n1 ea1 en1 pa1 pn1. apply merge_key_union. }
  assert (spread h (VRef a) = elem_val <$> ea) as Hsa by (cbn; by rewrite Ha).
  assert (spread h (VRef n) = elem_val <$> en) as Hsn by (cbn; by rewrite Hnh).
  destruct (deepMerge_arrays_run fuel h x kids obj ps ks k (VRef a) (VRef n)
              Hwf Hdoc Hx Hobj) as [Hfuel Hrun]; try done.
  { by intros ? [= <-]. }
  { cbn. by rewrite Ha. }
  { cbn. by rewrite Hnh. }
  split; [done|]. intros h' Hh'.
  destruct (Hrun h' Hh') as (l & es & Hget & Hl & Hes & Heq & Heq2 & Hnd).
  rewrite Hsa, Hsn in Heq, Heq2.
  exists l, es. do 3 (split; [done|]). split; [|split].
  - rewrite Heq. apply new_Set_union.
  - eexists _, _. split; [exact Heq2|]. split.
    + intros v. apply new_Set_elem.
    + intros v. rewrite list_elem_of_filter, new_Set_elem. tauto.
  - intros Hnda. rewrite Heq2, (new_Set_NoDup_id _ Hnda). by apply prefix_app_r.
Qed.

(** ** Decision procedures for the hypotheses on concrete heaps *)

Global Instance obj_wf_dec (o : obj) : Decision (obj_wf o).
Proof. destruct o; cbn [obj_wf]; apply _. Defined.

Global Instance heap_wf_dec (h : heap) : Decision (heap_wf h).
Proof. unfold heap_wf. apply _. Defined.

Global Instance tree_doc_dec (h : heap) (t : ltree) : Decision (tree_doc h t).
Proof. unfold tree_doc. apply _. Defined.

Ltac by_decide := apply (bool_decide_eq_true_1 _); vm_compute; reflexivity.

Import MergeExamples.

(** The example of the function's comment. *)
Example deepMerge_users :
  deepMerge 3 (VRef 0%nat) (VRef 2%nat) users =
  Ok [ OObj [(name "name", VStr "tony"); (name "age", VNum 22);
             (name "links", VRef 1%nat)];
       OObj [(name "a", VNum 3); (name "b", VNum 2); (name "c", VNum 4)];
       OObj [(name "name", VStr "tony"); (name "links", VRef 3%nat)];
       OObj [(name "a", VNum 3); (name "c", VNum 4)] ].
Proof. vm_compute. reflexivity. Qed.

(** [deepMerge({x: [1, 2]}, {x: [2, 3]})] is [{x: [1, 2, 3]}]. *)
Example deepMerge_seqs :
  exists h', deepMerge 3 (VRef 0%nat) (VRef 2%nat) seqs = Ok h' /\
    get h' (VRef 0%nat) (name "x") = Ok (VRef 4%nat) /\
    h' !! 4%nat = Some (OArr [Some (VNum 1); Some (VNum 2); Some (VNum 3)] []).
Proof. eexists. vm_compute. repeat split. Qed.

(** A sequence merged with a mapping that has a [length]: the assignment to the
    array's length raises. *)
Example deepMerge_bad_length :
  deepMerge 3 (VRef 0%nat) (VRef 2%nat) bad_length = Throw RangeError.
Proof. vm_compute. reflexivity. Qed.




(** On a sequence as the target the assignment itself can raise: at the key
    [length], both values scalars. *)
Example merge_key_sequence_target (rec : val -> val -> heap -> jsres heap) :
  get bad_length (VRef 1%nat) length_key = Ok (VNum 1) /\
  get bad_length (VRef 3%nat) length_key = Ok (VNum (-1)) /\
  merge_key rec (VRef 1%nat) (VRef 3%nat) length_key bad_length =
    Throw RangeError.
Proof. repeat split. Qed.

(** On a target that contains itself a later key's recursive call assigns the
    key again: [k] ends as 3, not as the incoming 2. *)
Example deepMerge_cyclic_target :
  get cyclic (VRef 0%nat) (name "k") = Ok (VNum 1) /\
  get cyclic (VRef 1%nat) (name "k") = Ok (VNum 2) /\
  exists h', deepMerge 3 (VRef 0%nat) (VRef 1%nat) cyclic = Ok h' /\
    get h' (VRef 0%nat) (name "k") = Ok (VNum 3).
Proof.
  do 2 (split; [reflexivity|]). eexists. split; [vm_compute; reflexivity|].
  reflexivity.
Qed.


Lemma deepMerge_arrays_union_witness :
  (exists h', deepMerge 3 (VRef 0%nat) (VRef 2%nat) seqs = Ok h' /\
     get h' (VRef 0%nat) (name "x") = Ok (VRef 4%nat) /\
     h' !! 4%nat =
       Some (OArr [Some (VNum 1); Some (VNum 2); Some (VNum 3)] [])) /\
  (forall rec h1 target1 obj1 a1 n1 ea1 en1 pa1 pn1,
     get h1 target1 (name "x") = Ok (VRef a1) ->
     get h1 obj1 (name "x") = Ok (VRef n1) ->
     h1 !! a1 = Some (OArr ea1 pa1) -> h1 !! n1 = Some (OArr en1 pn1) ->
     exists h2 es,
       merge_key rec target1 obj1 (name "x") h1 = Ok h2 /\
       get h2 target1 (name "x") = Ok (VRef (length h1)) /\
       h2 !! length h1 = Some (OArr (Some <$> es) []) /\
       union_first_seen (elem_val <$> ea1) (elem_val <$> en1) es) /\
  ((height seqs_tree < 3)%nat ->
   deepMerge 3 (VRef 0%nat) (VRef 2%nat) seqs <> OutOfFuel) /\
  forall h', deepMerge 3 (VRef 0%nat) (VRef 2%nat) seqs = Ok h' ->
    exists l es,
      get h' (VRef 0%nat) (name "x") = Ok (VRef l) /\ (length seqs <= l)%nat /\
      h' !! l = Some (OArr (Some <$> es) []) /\
      union_first_seen [VNum 1; VNum 2] [VNum 2; VNum 3] es /\
      (exists e1 e2, es = e1 ++ e2 /\
         (forall v, v ∈ e1 <-> v ∈ [VNum 1; VNum 2]) /\
         (forall v, v ∈ e2 <-> v ∈ [VNum 2; VNum 3] /\ v ∉ [VNum 1; VNum 2])) /\
      (NoDup [VNum 1; VNum 2] -> [VNum 1; VNum 2] `prefix_of` es).
Proof.
  split.
  { eexists. split; [vm_compute; reflexivity|]. split; reflexivity. }
  apply (deepMerge_arrays_union 3 seqs 0 [LNode 1%nat []] (VRef 2%nat)
           [(name "x", VRef 1%nat)] [name "x"] (name "x") 1 3
           [Some (VNum 1); Some (VNum 2)] [Some (VNum 2); Some (VNum 3)] [] []).
  - by_decide.
  - by_decide.
  - reflexivity.
  - intros y [= <-]. by_decide.
  - by_decide.
  - reflexivity.
  - by_decide.
  - reflexivity.
  - reflexivity.
  - reflexivity.
  - reflexivity.
Defined.

(** C10.  Deduplication is by identity: the merged array holds each value of
    the two sequences once, values being equal when they are the same
    primitive or the same reference.  Two distinct references, whatever the
    objects they refer to, both remain, at different positions. *)
Theorem mergeArrayWithDedupe_by_identity
    (h : heap) (a b : val) (l1 l2 : loc) :
  VRef l1 ∈ spread h a -> VRef l2 ∈ spread h b -> l1 <> l2 ->
  exists es,
    mergeArrayWithDedupe h a b = (length h, h ++ [OArr (Some <$> es) []]) /\
    NoDup es /\
    (forall v, v ∈ es <-> v ∈ spread h a \/ v ∈ spread h b) /\
    VRef l1 ∈ es /\ VRef l2 ∈ es /\
    exists i1 i2, i1 <> i2 /\ es !! i1 = Some (VRef l1) /\ es !! i2 = Some (VRef l2).
Proof.
  intros H1 H2 Hne. exists (new_Set (spread h a ++ spread h b)).
  assert (forall v, v ∈ new_Set (spread h a ++ spread h b) <->
                    v ∈ spread h a \/ v ∈ spread h b) as Hel.
  { intros v. by rewrite new_Set_elem, elem_of_app. }
  split; [done|]. split; [apply new_Set_NoDup|]. split; [done|].
  assert (VRef l1 ∈ new_Set (spread h a ++ spread h b)) as E1 by (apply Hel; auto).
  assert (VRef l2 ∈ new_Set (spread h a ++ spread h b)) as E2 by (apply Hel; auto).
  split; [done|]. split; [done|].
  apply list_elem_of_lookup_1 in E1 as [i1 E1].
  apply list_elem_of_lookup_1 in E2 as [i2 E2].
  exists i1, i2. split; [|done]. intros ->. congruence.
Qed.

(** Two structurally equal mappings, one in each sequence, both remain. *)
Lemma mergeArrayWithDedupe_by_identity_witness :
  twins !! 2%nat = twins !! 5%nat /\
  exists es,
    mergeArrayWithDedupe twins (VRef 1%nat) (VRef 4%nat) =
      (length twins, twins ++ [OArr (Some <$> es) []]) /\
    NoDup es /\
    (forall v, v ∈ es <-> v ∈ spread twins (VRef 1%nat) \/
                          v ∈ spread twins (VRef 4%nat)) /\
    VRef 2%nat ∈ es /\ VRef 5%nat ∈ es /\
    exists i1 i2, i1 <> i2 /\ es !! i1 = Some (VRef 2%nat) /\
                  es !! i2 = Some (VRef 5%nat).
Proof.
  split; [reflexivity|].
  apply (mergeArrayWithDedupe_by_identity twins (VRef 1%nat) (VRef 4%nat) 2 5).
  - by_decide.
  - by_decide.
  - lia.
Defined.

Example deepMerge_twins :
  exists h', deepMerge 3 (VRef 0%nat) (VRef 3%nat) twins = Ok h' /\
    get h' (VRef 0%nat) (name "x") = Ok (VRef 6%nat) /\
    h' !! 6%nat = Some (OArr [Some (VRef 2%nat); Some (VRef 5%nat)] []).
Proof. eexists. vm_compute. repeat split. Qed.

End DeepMergeFacts.
(** * Merging a document into a copy of it, twice *)

Module DocFacts.
Import JS DeepMerge DeepMergeFacts Documents.

Lemma skel_ind' (P : skel -> Prop) :
  (forall p, P (KPrim p)) -> (forall ec ea, P (KArr ec ea)) ->
  (forall lc la fs, Forall (fun f => P f.2) fs -> P (KObj lc la fs)) ->
  forall s, P s.
Proof.
  intros Hp Ha Ho. fix IH 1. intros [p|ec ea|lc la fs]; [apply Hp|apply Ha|].
  apply Ho. induction fs as [|[k s] fs IHfs]; constructor; [apply IH|apply IHfs].
Qed.

Lemma doc_ind' (P : doc -> Prop) :
  (forall p, P (DPrim p)) ->
  (forall ds, Forall P ds -> P (DArr ds)) ->
  (forall fs, Forall (fun f => P f.2) fs -> P (DObj fs)) ->
  forall d, P d.
Proof.
  intros Hp Ha Ho. fix IH 1. intros [p|ds|fs]; [apply Hp| |].
  - apply Ha. induction ds as [|d ds IHds]; constructor; [apply IH|apply IHds].
  - apply Ho. induction fs as [|[k d] fs IHfs]; constructor; [apply IH|apply IHfs].
Qed.

(** *** Aligned rows *)

Lemma rows_impl {A} (R R' : A -> val -> Prop) (fs : list (key * A)) :
  forall ps, (forall f x, f ∈ fs -> R f.2 x -> R' f.2 x) ->
  rows R fs ps -> rows R' fs ps.
Proof.
  induction fs as [|f fs IH]; intros [|p ps] Himp; cbn; try done.
  intros (Hk & HR & Hrest). split; [done|]. split.
  - apply Himp; [by left|done].
  - apply IH; [|done]. intros f' x Hf'. apply Himp. by right.
Qed.

Lemma rows2_impl {A} (R R' : A -> val -> val -> Prop) (fs : list (key * A)) :
  forall pc pa, (forall f x y, f ∈ fs -> R f.2 x y -> R' f.2 x y) ->
  rows2 R fs pc pa -> rows2 R' fs pc pa.
Proof.
  induction fs as [|f fs IH]; intros [|c pc] [|a pa] Himp; cbn; try done.
  intros (Hc & Ha & HR & Hrest). do 2 (split; [done|]). split.
  - apply Himp; [by left|done].
  - apply IH; [|done]. intros f' x y Hf'. apply Himp. by right.
Qed.

Lemma rows_keys {A} (R : A -> val -> Prop) (fs : list (key * A)) :
  forall ps, rows R fs ps -> ps.*1 = fs.*1.
Proof.
  induction fs as [|f fs IH]; intros [|p ps]; cbn; try done.
  intros (Hk & _ & Hrest). csimpl. by rewrite Hk, (IH ps).
Qed.

Lemma rows2_keys {A} (R : A -> val -> val -> Prop) (fs : list (key * A)) :
  forall pc pa, rows2 R fs pc pa -> pc.*1 = fs.*1 /\ pa.*1 = fs.*1.
Proof.
  induction fs as [|f fs IH]; intros [|c pc] [|a pa]; cbn; try done.
  intros (Hc & Ha & _ & Hrest). destruct (IH pc pa Hrest) as [-> ->].
  csimpl. by rewrite Hc, Ha.
Qed.

Lemma rows2_elem {A} (R : A -> val -> val -> Prop) (fs : list (key * A)) :
  forall pc pa f, rows2 R fs pc pa -> f ∈ fs -> exists x y, R f.2 x y.
Proof.
  induction fs as [|f0 fs IH]; intros [|c pc] [|a pa] f; cbn; try done.
  - intros _ Hf. by apply elem_of_nil in Hf.
  - intros (_ & _ & HR & Hrest) Hf. apply elem_of_cons in Hf as [->|Hf].
    + eauto.
    + by apply (IH pc pa).
Qed.

(** *** Heaps that agree *)

Lemma agree_refl (X : list loc) (h : heap) : agree X h h.
Proof. by intros l o. Qed.

Lemma agree_trans (X Y : list loc) (h1 h2 h3 : heap) :
  agree X h1 h2 -> agree Y h2 h3 -> agree (X ++ Y) h1 h3.
Proof.
  intros H12 H23 l o Hl Hn. apply not_elem_of_app in Hn as [HX HY].
  apply H23; [by apply H12|done].
Qed.

Lemma agree_mono (X Y : list loc) (h h' : heap) :
  (forall l, l ∈ X -> l ∈ Y) -> agree X h h' -> agree Y h h'.
Proof. intros Hsub Hag l o Hl Hn. apply Hag; [done|]. intros HX. by apply Hn, Hsub. Qed.

Lemma agree_insert (X : list loc) (h : heap) (l : loc) (o : obj) :
  l ∈ X -> agree X h (<[l := o]> h).
Proof.
  intros Hl l' o' Hl' Hn. rewrite list_lookup_insert_ne; [done|].
  intros ->. by apply Hn.
Qed.

Lemma agree_app (X : list loc) (h os : heap) : agree X h (h ++ os).
Proof. intros l o Hl _. by apply lookup_app_l_Some. Qed.

Lemma array_frame (X : list loc) (h h' : heap) (v : val) :
  isArray h v = true -> agree X h h' -> mappings h X ->
  isArray h' v = true /\ spread h' v = spread h v.
Proof.
  intros Harr Hag HX. destruct v as [| | | | |l]; try done.
  cbn in *. destruct (h !! l) as [[ps|es ps]|] eqn:Hl; try done.
  assert (Hn : l ∉ X).
  { intros Hin. destruct (HX l Hin) as [ps' Hps]. congruence. }
  by rewrite (Hag l _ Hl Hn).
Qed.

Lemma clocs_field (lc la : loc) (fs : list (key * skel)) (f : key * skel) (l : loc) :
  f ∈ fs -> l ∈ clocs f.2 -> l ∈ clocs (KObj lc la fs).
Proof.
  intros Hf Hl. cbn [clocs]. right. apply list_elem_of_join.
  exists (clocs f.2). split; [done|]. by apply (list_elem_of_fmap_2 (fun f => clocs f.2)).
Qed.

Lemma alocs_field (lc la : loc) (fs : list (key * skel)) (f : key * skel) (l : loc) :
  f ∈ fs -> l ∈ alocs f.2 -> l ∈ alocs (KObj lc la fs).
Proof.
  intros Hf Hl. cbn [alocs]. right. apply list_elem_of_join.
  exists (alocs f.2). split; [done|]. by apply (list_elem_of_fmap_2 (fun f => alocs f.2)).
Qed.

Lemma clocs_inv (lc la : loc) (fs : list (key * skel)) (l : loc) :
  l ∈ clocs (KObj lc la fs) -> l = lc \/ exists f, f ∈ fs /\ l ∈ clocs f.2.
Proof.
  cbn [clocs]. intros Hl. apply elem_of_cons in Hl as [->|Hl]; [by left|right].
  apply list_elem_of_join in Hl as (L & Hl & HL).
  apply list_elem_of_fmap in HL as (f & -> & Hf). eauto.
Qed.

Lemma pre_clocs_dom (h : heap) (s : skel) :
  forall vc va, pre h s vc va -> mappings h (clocs s).
Proof.
  induction s as [p|ec ea|lc la fs IH] using skel_ind'; intros vc va Hpre l Hl.
  - by apply elem_of_nil in Hl.
  - by apply elem_of_nil in Hl.
  - destruct Hpre as (-> & -> & pc & pa & Hlc & Hla & Hrows).
    apply clocs_inv in Hl as [->|(f & Hf & Hl)]; [eauto|].
    destruct (rows2_elem _ _ _ _ f Hrows Hf) as (x & y & Hxy).
    rewrite Forall_forall in IH. by apply (IH f Hf x y).
Qed.

Lemma pre_frame (X : list loc) (h h' : heap) (s : skel) :
  forall vc va, pre h s vc va -> agree X h h' -> mappings h X ->
  (forall l, l ∈ X -> (l ∉ clocs s) /\ (l ∉ alocs s)) ->
  pre h' s vc va.
Proof.
  induction s as [p|ec ea|lc la fs IH] using skel_ind';
    intros vc va Hpre Hag HX Hdis.
  - done.
  - destruct Hpre as (Hc & Ha & <- & <-).
    destruct (array_frame X h h' vc Hc Hag HX) as [Hc' Hsc].
    destruct (array_frame X h h' va Ha Hag HX) as [Ha' Hsa].
    cbn [pre]. by rewrite Hsc, Hsa.
  - destruct Hpre as (-> & -> & pc & pa & Hlc & Hla & Hrows).
    do 2 (split; [done|]). exists pc, pa.
    split; [|split].
    + apply Hag; [done|]. intros Hin. apply (proj1 (Hdis lc Hin)). by left.
    + apply Hag; [done|]. intros Hin. apply (proj2 (Hdis la Hin)). by left.
    + apply (rows2_impl (pre h)); [|done]. intros f x y Hf Hxy.
      rewrite Forall_forall in IH. apply (IH f Hf x y Hxy Hag HX).
      intros l Hl. destruct (Hdis l Hl) as [Hc Ha]. split.
      * intros Hin. apply Hc. by apply (clocs_field _ _ _ f).
      * intros Hin. apply Ha. by apply (alocs_field _ _ _ f).
Qed.

Lemma post_frame (X : list loc) (h h' : heap) (s : skel) :
  forall v, post h s v -> agree X h h' -> mappings h X ->
  (forall l, l ∈ X -> l ∉ clocs s) ->
  post h' s v.
Proof.
  induction s as [p|ec ea|lc la fs IH] using skel_ind';
    intros v Hpost Hag HX Hdis.
  - done.
  - destruct Hpost as (n & -> & Hn). exists n. split; [done|].
    apply Hag; [done|]. intros Hin. destruct (HX n Hin) as [ps Hps]. congruence.
  - destruct Hpost as (-> & ps & Hlc & Hrows). split; [done|]. exists ps.
    split.
    + apply Hag; [done|]. intros Hin. apply (Hdis lc Hin). by left.
    + apply (rows_impl (post h)); [|done]. intros f x Hf Hx.
      rewrite Forall_forall in IH. apply (IH f Hf x Hx Hag HX).
      intros l Hl Hin. apply (Hdis l Hl). by apply (clocs_field _ _ _ f).
Qed.

Lemma all2b_inj {A B} (R : A -> B -> bool) (l1 : list A) :
  forall l1' l2,
  Forall (fun a => forall a' b, R a b = true -> R a' b = true -> a = a') l1 ->
  all2b R l1 l2 = true -> all2b R l1' l2 = true -> l1 = l1'.
Proof.
  induction l1 as [|a l1 IH]; intros [|a' l1'] [|b l2] Hinj; cbn; try done.
  intros H1 H2. apply Forall_cons in Hinj as [Ha Hinj].
  apply andb_true_iff in H1 as [Hab H1]. apply andb_true_iff in H2 as [Hab' H2].
  by rewrite (Ha a' b Hab Hab'), (IH l1' l2 Hinj H1 H2).
Qed.

(** A value is at most one document. *)
Lemma lay_inj (h : heap) (d : doc) :
  forall d' v, lay h d v = true -> lay h d' v = true -> d = d'.
Proof.
  induction d as [p|ds IH|fs IH] using doc_ind'; intros d' v Hd Hd'.
  - cbn [lay] in Hd. apply andb_true_iff in Hd as [Hv Hp].
    apply bool_decide_eq_true_1 in Hv. apply negb_true_iff in Hp. subst v.
    destruct d' as [p'|ds'|fs']; cbn [lay] in Hd'.
    + apply andb_true_iff in Hd' as [Hv _].
      apply bool_decide_eq_true_1 in Hv. by subst.
    + by destruct p.
    + by destruct p.
  - destruct v as [| | | | |l]; try done. cbn [lay] in Hd.
    destruct (h !! l) as [[ps|es [|]]|] eqn:Hl; try done.
    destruct d' as [p'|ds'|fs']; cbn [lay] in Hd'; rewrite ?Hl in Hd'.
    + apply andb_true_iff in Hd' as [Hv Hp].
      apply bool_decide_eq_true_1 in Hv. by subst p'.
    + f_equal. refine (all2b_inj _ ds ds' es _ Hd Hd').
      eapply Forall_impl; [exact IH|]. cbn. intros d0 Hd0 d0' [x|] H1 H2; [|done].
      by apply (Hd0 d0' x).
    + done.
  - destruct v as [| | | | |l]; try done. cbn [lay] in Hd.
    destruct (h !! l) as [[ps|es ps]|] eqn:Hl; try done.
    destruct d' as [p'|ds'|fs']; cbn [lay] in Hd'; rewrite ?Hl in Hd'.
    + apply andb_true_iff in Hd' as [Hv Hp].
      apply bool_decide_eq_true_1 in Hv. by subst p'.
    + done.
    + f_equal. refine (all2b_inj _ fs fs' ps _ Hd Hd').
      eapply Forall_impl; [exact IH|]. cbn. intros f Hf f' p H1 H2.
      apply andb_true_iff in H1 as [Hk1 H1]. apply andb_true_iff in H2 as [Hk2 H2].
      apply bool_decide_eq_true_1 in Hk1. apply bool_decide_eq_true_1 in Hk2.
      destruct f as [k d0], f' as [k' d0']. cbn in *.
      by rewrite <- Hk1, <- Hk2, (Hf d0' p.2 H1 H2).
Qed.

Lemma own_mid (p1 p2 : props) (k : key) (x : val) :
  k ∉ p1.*1 -> own (p1 ++ (k, x) :: p2) k = Some x.
Proof.
  induction p1 as [|[k' v'] p1 IH]; csimpl; intros Hk.
  - by rewrite decide_True.
  - apply not_elem_of_cons in Hk as [Hne Hk].
    rewrite decide_False by done. by apply IH.
Qed.

Lemma replace_prop_mid (p1 p2 : props) (k : key) (x y : val) :
  k ∉ p1.*1 -> replace_prop k y (p1 ++ (k, x) :: p2) = p1 ++ (k, y) :: p2.
Proof.
  induction p1 as [|[k' v'] p1 IH]; csimpl; intros Hk.
  - by rewrite decide_True.
  - apply not_elem_of_cons in Hk as [Hne Hk].
    rewrite decide_False by done. by rewrite IH.
Qed.

Lemma get_mid (g : heap) (l : loc) (p1 p2 : props) (k : key) (x : val) :
  g !! l = Some (OObj (p1 ++ (k, x) :: p2)) -> k ∉ p1.*1 ->
  get g (VRef l) k = Ok x.
Proof. intros Hl Hk. cbn [get]. rewrite Hl. cbn [obj_get]. by rewrite own_mid. Qed.

Lemma set_mid (g : heap) (l : loc) (p1 p2 : props) (k : key) (x y : val) :
  g !! l = Some (OObj (p1 ++ (k, x) :: p2)) -> k ∉ p1.*1 ->
  JS.set g (VRef l) k y = Ok (<[l := OObj (p1 ++ (k, y) :: p2)]> g).
Proof.
  intros Hl Hk. unfold JS.set. rewrite Hl. cbn [obj_set].
  rewrite own_mid by done. cbn [rbind]. by rewrite replace_prop_mid.
Qed.

Lemma isArray_false (h : heap) (v : val) : isObject v = false -> isArray h v = false.
Proof. by destruct v. Qed.

Lemma merge_step (n : nat) (lc la : loc) (s : skel) (k : key) (x y : val)
    (g : heap) (p1 p2 q1 q2 : props) :
  merge_ok s -> (sdepth s <= n)%nat -> keys_ok s ->
  NoDup (lc :: clocs s) -> (forall l, l ∈ alocs s -> l ∉ clocs s) ->
  g !! lc = Some (OObj (p1 ++ (k, x) :: p2)) -> k ∉ p1.*1 ->
  g !! la = Some (OObj (q1 ++ (k, y) :: q2)) -> k ∉ q1.*1 ->
  pre g s x y ->
  exists g1 v',
    merge_key (deepMerge n) (VRef lc) (VRef la) k g = Ok g1 /\
    g1 !! lc = Some (OObj (p1 ++ (k, v') :: p2)) /\
    agree (lc :: clocs s) g g1 /\ post g1 s v'.
Proof.
  intros Hok Hdepth Hkeys Hnd Hdis Hlc Hk1 Hla Hk2 Hpre.
  assert (Hlt : (lc < length g)%nat) by by eapply lookup_lt_Some.
  unfold merge_key. rewrite (get_mid g lc p1 p2 k x Hlc Hk1).
  rewrite (get_mid g la q1 q2 k y Hla Hk2). cbn [rbind].
  destruct s as [p|ec ea|lc' la' fs'].
  - destruct Hpre as (Hx & -> & Hp).
    rewrite (isArray_false g x Hx), Hx. cbn [andb].
    rewrite (set_mid g lc p1 p2 k x p Hlc Hk1).
    eexists _, p. split; [done|]. split; [by rewrite list_lookup_insert_eq|].
    split; [apply agree_insert; by left|done].
  - destruct Hpre as (Hx & Hy & Hec & Hea). rewrite Hx, Hy. cbn [andb].
    unfold mergeArrayWithDedupe, alloc.
    rewrite (set_mid (g ++ _) lc p1 p2 k x (VRef (length g)))
      by (by apply lookup_app_l_Some || done).
    eexists _, (VRef (length g)). split; [done|]. split.
    { rewrite list_lookup_insert_eq; [done|]. rewrite length_app. lia. }
    split.
    { intros l o Hl Hn. rewrite list_lookup_insert_ne.
      - by apply lookup_app_l_Some.
      - intros ->. apply Hn. by left. }
    exists (length g). split; [done|].
    rewrite list_lookup_insert_ne by lia.
    rewrite lookup_app_r by lia. rewrite Nat.sub_diag, Hec, Hea. done.
  - pose proof Hpre as (-> & -> & pc & pa & Hlc' & Hla' & Hrows).
    cbn [isArray]. rewrite Hlc'. cbn [andb isObject].
    apply NoDup_cons in Hnd as [Hlc_out Hnd].
    destruct (Hok lc' la' fs' eq_refl n g Hdepth Hpre Hnd Hdis Hkeys)
      as (h' & Hrun & Hag & Hpost).
    rewrite Hrun. cbn [rbind].
    assert (Hlc2 : h' !! lc = Some (OObj (p1 ++ (k, VRef lc') :: p2))).
    { by apply Hag. }
    rewrite (set_mid h' lc p1 p2 k (VRef lc') (VRef lc') Hlc2 Hk1).
    rewrite list_insert_id by done.
    exists h', (VRef lc'). split; [done|]. split; [done|]. split; [|done].
    apply (agree_mono (clocs (KObj lc' la' fs'))); [|done].
    intros l Hl. by right.
Qed.

Lemma elem_of_fields {A} (F : A -> list loc) (fs : list (key * A)) (l : loc) :
  l ∈ mjoin ((fun f => F f.2) <$> fs) <-> exists f, f ∈ fs /\ l ∈ F f.2.
Proof.
  rewrite list_elem_of_join. split.
  - intros (L & Hl & HL). apply list_elem_of_fmap in HL as (f & -> & Hf). eauto.
  - intros (f & Hf & Hl). exists (F f.2). split; [done|].
    by apply (list_elem_of_fmap_2 (fun f => F f.2)).
Qed.

Lemma rows2_clocs_dom (g : heap) (fs : list (key * skel)) (pc pa : props) :
  rows2 (pre g) fs pc pa -> mappings g (mjoin ((fun f => clocs f.2) <$> fs)).
Proof.
  intros Hrows l Hl. apply elem_of_fields in Hl as (f & Hf & Hl).
  destruct (rows2_elem _ _ _ _ f Hrows Hf) as (x & y & Hxy).
  by apply (pre_clocs_dom g f.2 x y).
Qed.

Lemma merge_loop (n : nat) (lc la : loc) (fs2 : list (key * skel)) :
  Forall (fun f => merge_ok f.2) fs2 ->
  Forall (fun f => sdepth f.2 <= n)%nat fs2 ->
  Forall (fun f => keys_ok f.2) fs2 ->
  NoDup fs2.*1 ->
  NoDup (lc :: mjoin ((fun f => clocs f.2) <$> fs2)) ->
  (forall l, l ∈ la :: mjoin ((fun f => alocs f.2) <$> fs2) ->
     l ∉ lc :: mjoin ((fun f => clocs f.2) <$> fs2)) ->
  forall g pre2 pc2 pa1 pa2,
    g !! lc = Some (OObj (pre2 ++ pc2)) ->
    g !! la = Some (OObj (pa1 ++ pa2)) ->
    rows2 (pre g) fs2 pc2 pa2 ->
    (forall k, k ∈ fs2.*1 -> (k ∉ pre2.*1) /\ (k ∉ pa1.*1)) ->
    exists g' pc2',
      forEach (merge_key (deepMerge n) (VRef lc) (VRef la)) fs2.*1 g = Ok g' /\
      g' !! lc = Some (OObj (pre2 ++ pc2')) /\
      agree (lc :: mjoin ((fun f => clocs f.2) <$> fs2)) g g' /\
      rows (post g') fs2 pc2'.
Proof.
  induction fs2 as [|[k s] fs2 IH];
    intros Hoks Hdepths Hkeys Hndk Hnd Hdis g pre2 pc2 pa1 pa2 Hlc Hla Hrows Hfresh.
  { destruct pc2, pa2; try done. exists g, []. cbn [forEach].
    repeat split; try done. apply agree_refl. }
  destruct pc2 as [|[kc x] pc2], pa2 as [|[ka y] pa2]; try done.
  cbn in Hrows. destruct Hrows as (-> & -> & Hpre & Hrows).
  apply Forall_cons in Hoks as [Hok Hoks].
  apply Forall_cons in Hdepths as [Hdepth Hdepths].
  apply Forall_cons in Hkeys as [Hkey Hkeys].
  csimpl in Hndk. apply NoDup_cons in Hndk as [Hk Hndk].
  csimpl in Hnd. csimpl in Hdis. cbn [fst snd] in *.
  pose proof Hnd as Hnd0.
  apply NoDup_cons in Hnd as [Hlc_out Hnd].
  apply not_elem_of_app in Hlc_out as [Hlc_s Hlc_r].
  apply NoDup_app in Hnd as (Hnd_s & Hsr & Hnd_r).
  destruct (Hfresh k) as [Hk1 Hk2]; [by left|].
  destruct (merge_step n lc la s k x y g pre2 pc2 pa1 pa2)
    as (g1 & v' & Hstep & Hlc1 & Hag1 & Hpost1); try done.
  { by apply NoDup_cons. }
  { intros l Hl Hin. apply (Hdis l).
    - right. apply elem_of_app. by left.
    - right. apply elem_of_app. by left. }
  assert (HX : mappings g (lc :: clocs s)).
  { intros l Hl. apply elem_of_cons in Hl as [->|Hl]; [eauto|].
    by apply (pre_clocs_dom g s x y). }
  assert (Hla1 : g1 !! la = Some (OObj ((pa1 ++ [(k, y)]) ++ pa2))).
  { rewrite <- app_assoc. apply Hag1; [done|]. intros Hin.
    apply (Hdis la); [by left|].
    apply elem_of_cons in Hin as [->|Hin]; [by left|].
    right. apply elem_of_app. by left. }
  assert (Hrows1 : rows2 (pre g1) fs2 pc2 pa2).
  { apply (rows2_impl (pre g)); [|done]. intros f x' y' Hf Hxy.
    apply (pre_frame (lc :: clocs s) g g1); try done.
    intros l Hl. split.
    - intros Hin. apply elem_of_cons in Hl as [->|Hl].
      + apply Hlc_r. apply elem_of_fields. eauto.
      + apply (Hsr l Hl). apply elem_of_fields. eauto.
    - intros Hin. apply (Hdis l).
      + right. apply elem_of_app. right. apply elem_of_fields. eauto.
      + apply elem_of_cons in Hl as [->|Hl]; [by left|].
        right. apply elem_of_app. by left. }
  destruct (IH Hoks Hdepths Hkeys Hndk) with (g := g1)
    (pre2 := pre2 ++ [(k, v')]) (pc2 := pc2) (pa1 := pa1 ++ [(k, y)]) (pa2 := pa2)
    as (g' & pc2' & Hrun & Hlc' & Hag' & Hposts); try done.
  { apply NoDup_cons. split; [done|done]. }
  { intros l Hl Hin. apply (Hdis l).
    - apply elem_of_cons in Hl as [->|Hl]; [by left|].
      right. apply elem_of_app. by right.
    - apply elem_of_cons in Hin as [->|Hin]; [by left|].
      right. apply elem_of_app. by right. }
  { by rewrite <- app_assoc. }
  { intros k' Hk'. destruct (Hfresh k') as [Hn1 Hn2]; [by right|].
    rewrite !fmap_app. split.
    - apply not_elem_of_app. split; [done|]. csimpl.
      apply not_elem_of_cons. split; [|apply not_elem_of_nil].
      intros ->. by apply Hk.
    - apply not_elem_of_app. split; [done|]. csimpl.
      apply not_elem_of_cons. split; [|apply not_elem_of_nil].
      intros ->. by apply Hk. }
  exists g', ((k, v') :: pc2'). split; [|split; [|split]].
  - csimpl. rewrite Hstep. cbn [rbind]. exact Hrun.
  - by rewrite <- app_assoc in Hlc'.
  - apply (agree_mono ((lc :: clocs s) ++
             (lc :: mjoin ((fun f => clocs f.2) <$> fs2)))).
    + intros l Hl. apply elem_of_app in Hl as [Hl|Hl].
      * apply elem_of_cons in Hl as [->|Hl]; [by left|].
        right. apply elem_of_app. by left.
      * apply elem_of_cons in Hl as [->|Hl]; [by left|].
        right. apply elem_of_app. by right.
    + by apply (agree_trans _ _ g g1 g').
  - cbn. split; [done|]. split; [|done].
    apply (post_frame (lc :: mjoin ((fun f => clocs f.2) <$> fs2)) g1 g');
      try done.
    + intros l Hl. apply elem_of_cons in Hl as [->|Hl].
      * eauto.
      * by apply (rows2_clocs_dom g1 fs2 pc2 pa2).
    + intros l Hl Hin. apply elem_of_cons in Hl as [->|Hl]; [done|].
      by apply (Hsr l).
Qed.

Lemma foldr_max_le {A} (F : A -> nat) (l : list A) :
  Forall (fun a => F a <= foldr Nat.max 0 (F <$> l))%nat l.
Proof.
  induction l as [|a l IH]; constructor; csimpl; [lia|].
  eapply Forall_impl; [exact IH|]. cbn. intros b Hb. lia.
Qed.

Lemma foldr_and_Forall {A} (P : A -> Prop) (l : list A) :
  foldr (fun a Q => P a /\ Q) True l <-> Forall P l.
Proof.
  induction l as [|a l IH]; cbn [foldr].
  - split; [constructor|done].
  - rewrite Forall_cons, IH. tauto.
Qed.

(** A merge along a skeleton returns, changes the target's mappings only and
    leaves at each field what [post] says. *)
Lemma merge_skel (s : skel) : merge_ok s.
Proof.
  induction s as [p|ec ea|lc la fs IH] using skel_ind'; try by intros ? ? ? [=].
  intros lc0 la0 fs0 [= <- <- <-] n h Hdepth Hpre Hnd Hdis Hkeys.
  destruct n as [|n]; [cbn [sdepth] in Hdepth; lia|].
  pose proof Hpre as (_ & _ & pc & pa & Hlc & Hla & Hrows).
  destruct (rows2_keys _ _ _ _ Hrows) as [Hkc Hka].
  cbn [keys_ok] in Hkeys. destruct Hkeys as [Hndk Hkeys].
  destruct (merge_loop n lc la fs) with (g := h) (pre2 := @nil (key * val))
    (pc2 := pc) (pa1 := @nil (key * val)) (pa2 := pa)
    as (h' & pc' & Hrun & Hlc' & Hag & Hposts); try done.
  - cbn [sdepth] in Hdepth.
    eapply Forall_impl; [apply (foldr_max_le (fun f => sdepth f.2))|].
    cbn. intros f Hf. lia.
  - by apply (foldr_and_Forall (fun f => keys_ok f.2)).
  - intros k _. split; apply not_elem_of_nil.
  - exists h'. split; [|split; [done|]].
    + cbn [deepMerge keys]. rewrite Hla. cbn [obj_keys rbind]. by rewrite Hka.
    + split; [done|]. exists pc'. by split.
Qed.

Lemma all2b_frame {A B} (R R' : A -> B -> bool) (F : A -> B -> list loc)
    (P : loc -> Prop) (l1 : list A) :
  forall l2,
  (forall a b, a ∈ l1 -> R a b = true -> (forall l, l ∈ F a b -> P l) ->
     R' a b = true) ->
  all2b R l1 l2 = true -> (forall l, l ∈ join2 F l1 l2 -> P l) ->
  all2b R' l1 l2 = true.
Proof.
  induction l1 as [|a l1 IH]; intros [|b l2] Himp; cbn; try done.
  intros Hall HP. apply andb_true_iff in Hall as [Hab Hall].
  apply andb_true_iff. split.
  - apply Himp; [by left|done|]. intros l Hl. apply HP, elem_of_app. by left.
  - apply IH; [|done|].
    + intros a' b' Ha'. apply Himp. by right.
    + intros l Hl. apply HP, elem_of_app. by right.
Qed.

(** A document is the same document in a heap that has its locations
    unchanged. *)
Lemma lay_frame (h h' : heap) (d : doc) :
  forall v, lay h d v = true ->
  (forall l o, l ∈ locs_of h d v -> h !! l = Some o -> h' !! l = Some o) ->
  lay h' d v = true.
Proof.
  induction d as [p|ds IH|fs IH] using doc_ind'; intros v Hlay Hsame.
  - done.
  - destruct v as [| | | | |l]; try done. cbn [lay locs_of] in *.
    destruct (h !! l) as [[ps|es [|]]|] eqn:Hl; try done.
    rewrite (Hsame l _ (ltac:(by left)) Hl).
    refine (all2b_frame _ _ (fun d e => locs_of h d (elem_val e))
              (fun l => forall o, h !! l = Some o -> h' !! l = Some o) ds es
              _ Hlay _).
    + intros d [x|] Hd Hx HP; [|done]. rewrite Forall_forall in IH.
      apply (IH d Hd x Hx). intros l0 o Hl0. by apply HP.
    + intros l0 Hl0 o. apply Hsame. by right.
  - destruct v as [| | | | |l]; try done. cbn [lay locs_of] in *.
    destruct (h !! l) as [[ps|es ps]|] eqn:Hl; try done.
    rewrite (Hsame l _ (ltac:(by left)) Hl).
    refine (all2b_frame _ _ (fun f p => locs_of h f.2 p.2)
              (fun l => forall o, h !! l = Some o -> h' !! l = Some o) fs ps
              _ Hlay _).
    + intros f p Hf Hx HP. apply andb_true_iff in Hx as [Hk Hx].
      apply andb_true_iff. split; [done|]. rewrite Forall_forall in IH.
      apply (IH f Hf p.2 Hx). intros l0 o Hl0. by apply HP.
    + intros l0 Hl0 o. apply Hsame. by right.
Qed.

Lemma stable_agree (L : list loc) (h h' : heap) (x : val) :
  stable L h x -> agree L h h' -> exists dx, lay h dx x = true /\ lay h' dx x = true.
Proof.
  intros (dx & Hlay & Hout) Hag. exists dx. split; [done|].
  apply (lay_frame h h' dx x Hlay). intros l o Hl Ho. apply Hag; [done|].
  by apply Hout.
Qed.

(** *** The skeleton after a merge *)

Lemma fields_next {B} (F : skel -> B) (fs : list (key * skel)) :
  Forall (fun f => F (next f.2) = F f.2) fs ->
  (fun f => F f.2) <$> ((fun f => (f.1, next f.2)) <$> fs) =
  (fun f => F f.2) <$> fs.
Proof.
  intros IH. rewrite <- list_fmap_compose. apply list_fmap_ext.
  intros i f Hf. cbn. rewrite Forall_forall in IH. apply IH.
  by eapply list_elem_of_lookup_2.
Qed.

Lemma clocs_next (s : skel) : clocs (next s) = clocs s.
Proof.
  induction s as [p|ec ea|lc la fs IH] using skel_ind'; try done.
  cbn [next clocs]. by rewrite (fields_next clocs).
Qed.

Lemma alocs_next (s : skel) : alocs (next s) = alocs s.
Proof.
  induction s as [p|ec ea|lc la fs IH] using skel_ind'; try done.
  cbn [next alocs]. by rewrite (fields_next alocs).
Qed.

Lemma sdepth_next (s : skel) : sdepth (next s) = sdepth s.
Proof.
  induction s as [p|ec ea|lc la fs IH] using skel_ind'; try done.
  cbn [next sdepth]. by rewrite (fields_next sdepth).
Qed.

Lemma keys_ok_next (s : skel) : keys_ok s -> keys_ok (next s).
Proof.
  induction s as [p|ec ea|lc la fs IH] using skel_ind'; try done.
  cbn [next keys_ok]. intros [Hnd Hall]. split.
  - by rewrite <- list_fmap_compose.
  - apply (foldr_and_Forall (fun f => keys_ok f.2)).
    apply (foldr_and_Forall (fun f => keys_ok f.2)) in Hall.
    apply Forall_fmap. rewrite Forall_forall in IH, Hall.
    apply Forall_forall. intros f Hf. cbn. by apply IH, Hall.
Qed.

Lemma elem_val_Some (xs : list val) : elem_val <$> (Some <$> xs) = xs.
Proof. induction xs as [|x xs IH]; csimpl; [done|]. by rewrite IH. Qed.

Lemma rows_next (h h1 : heap) (fs : list (key * skel)) :
  forall pc pa ps1,
  (forall f x y v, f ∈ fs -> pre h f.2 x y -> post h1 f.2 v ->
     pre h1 (next f.2) v y) ->
  rows2 (pre h) fs pc pa -> rows (post h1) fs ps1 ->
  rows2 (pre h1) ((fun f => (f.1, next f.2)) <$> fs) ps1 pa.
Proof.
  induction fs as [|f fs IH]; intros [|c pc] [|a pa] [|p ps1] Himp; cbn; try done.
  intros (Hc & Ha & Hpre & Hrows) (Hp & Hpost & Hposts).
  do 2 (split; [done|]). split.
  - apply (Himp f c.2 a.2 p.2); [by left|done..].
  - apply (IH pc pa ps1); [|done..]. intros f' x y v Hf'. apply Himp. by right.
Qed.

(** After a merge the target has the skeleton [next s]. *)
Lemma post_pre (X : list loc) (h h1 : heap) (s : skel) :
  forall vc va v1, pre h s vc va -> post h1 s v1 ->
  agree X h h1 -> mappings h X -> (forall l, l ∈ X -> l ∉ alocs s) ->
  pre h1 (next s) v1 va.
Proof.
  induction s as [p|ec ea|lc la fs IH] using skel_ind';
    intros vc va v1 Hpre Hpost Hag HX Hdis.
  - destruct Hpre as (_ & -> & Hp). cbn in Hpost. subst v1. by cbn.
  - destruct Hpre as (_ & Ha & _ & <-). destruct Hpost as (n & -> & Hn).
    destruct (array_frame X h h1 va Ha Hag HX) as [Ha' Hsa].
    cbn [next pre isArray spread]. rewrite Hn, Hsa, elem_val_Some. done.
  - destruct Hpre as (_ & -> & pc & pa & Hlc & Hla & Hrows).
    destruct Hpost as (-> & ps1 & Hlc1 & Hposts).
    cbn [next pre]. do 2 (split; [done|]). exists ps1, pa.
    split; [done|]. split.
    + apply Hag; [done|]. intros Hin. apply (Hdis la Hin). by left.
    + apply (rows_next h h1 fs pc pa ps1); [|done..].
      intros f x y v Hf Hxy Hv. rewrite Forall_forall in IH.
      apply (IH f Hf x y v Hxy Hv Hag HX).
      intros l Hl Hin. apply (Hdis l Hl). by apply (alocs_field _ _ _ f).
Qed.

Lemma stable_lay (L : list loc) (h : heap) (x : val) :
  stable L h x -> exists dx, forall h', agree L h h' -> lay h' dx x = true.
Proof.
  intros (dx & Hlay & Hout). exists dx. intros h' Hag.
  apply (lay_frame h h' dx x Hlay). intros l o Hl Ho. apply Hag; [done|].
  by apply Hout.
Qed.

Lemma lay_elems (h1 h2 : heap) (xs : list val) :
  Forall (fun x => exists d, lay h1 d x = true /\ lay h2 d x = true) xs ->
  exists ds,
    all2b (fun d e => match e with Some x => lay h1 d x | None => false end)
      ds (Some <$> xs) = true /\
    all2b (fun d e => match e with Some x => lay h2 d x | None => false end)
      ds (Some <$> xs) = true.
Proof.
  induction 1 as [|x xs (d & H1 & H2) _ (ds & IH1 & IH2)]; [by exists []|].
  exists (d :: ds). csimpl. by rewrite H1, H2, IH1, IH2.
Qed.

Lemma rows_same (h h1 h2 : heap) (fs : list (key * skel)) :
  forall pc pa ps1 ps2,
  (forall f x y v1 v2, f ∈ fs -> pre h f.2 x y -> post h1 f.2 v1 ->
     post h2 (next f.2) v2 ->
     exists d', lay h1 d' v1 = true /\ lay h2 d' v2 = true) ->
  rows2 (pre h) fs pc pa -> rows (post h1) fs ps1 ->
  rows (post h2) ((fun f => (f.1, next f.2)) <$> fs) ps2 ->
  exists fs' : list (key * doc),
    all2b (fun f p => bool_decide (p.1 = f.1) && lay h1 f.2 p.2) fs' ps1 = true /\
    all2b (fun f p => bool_decide (p.1 = f.1) && lay h2 f.2 p.2) fs' ps2 = true.
Proof.
  induction fs as [|f fs IH]; intros [|c pc] [|a pa] [|p1 ps1] [|p2 ps2] Himp;
    cbn; try done.
  { intros _ _ _. by exists []. }
  intros (_ & _ & Hpre & Hrows) (Hk1 & Hpost1 & Hposts1) (Hk2 & Hpost2 & Hposts2).
  destruct (Himp f c.2 a.2 p1.2 p2.2) as (d' & Hd1 & Hd2); [by left|done..|].
  destruct (IH pc pa ps1 ps2) as (fs' & Hfs1 & Hfs2); [|done..|].
  { intros f' x y v1 v2 Hf'. apply Himp. by right. }
  exists ((f.1, d') :: fs'). cbn [all2b fst snd].
  rewrite Hd1, Hd2, Hfs1, Hfs2. cbn [fst] in Hk2.
  rewrite !bool_decide_eq_true_2 by done. done.
Qed.

(** The values two successive merges leave are the same document. *)
Lemma merged_same (L : list loc) (h h1 h2 : heap) (s : skel) :
  forall vc va v1 v2,
  pre h s vc va -> elems_stable L h s ->
  post h1 s v1 -> post h2 (next s) v2 ->
  agree L h h1 -> agree L h h2 ->
  exists d', lay h1 d' v1 = true /\ lay h2 d' v2 = true.
Proof.
  induction s as [p|ec ea|lc la fs IH] using skel_ind';
    intros vc va v1 v2 Hpre Hst Hpost1 Hpost2 Hag1 Hag2.
  - destruct Hpre as (_ & _ & Hp). cbn in Hpost1, Hpost2. subst v1 v2.
    exists (DPrim p). cbn [lay]. rewrite Hp.
    by rewrite bool_decide_eq_true_2.
  - destruct Hpost1 as (n1 & -> & Hn1). destruct Hpost2 as (n2 & -> & Hn2).
    rewrite new_Set_absorb in Hn2. cbn [elems_stable] in Hst.
    destruct (lay_elems h1 h2 (new_Set (ec ++ ea))) as (ds & H1 & H2).
    { apply Forall_forall. intros x Hx. apply (proj1 (new_Set_elem _ _)) in Hx.
      rewrite Forall_forall in Hst.
      destruct (stable_lay L h x (Hst x Hx)) as (dx & Hdx).
      exists dx. split; by apply Hdx. }
    exists (DArr ds). cbn [lay]. by rewrite Hn1, Hn2.
  - destruct Hpre as (_ & _ & pc & pa & _ & _ & Hrows).
    destruct Hpost1 as (-> & ps1 & Hlc1 & Hposts1).
    destruct Hpost2 as (-> & ps2 & Hlc2 & Hposts2).
    cbn [elems_stable] in Hst.
    apply (foldr_and_Forall (fun f => elems_stable L h f.2)) in Hst.
    destruct (rows_same h h1 h2 fs pc pa ps1 ps2) as (fs' & H1 & H2);
      [|done..|].
    { intros f x y v1 v2 Hf Hxy Hv1 Hv2. rewrite Forall_forall in IH, Hst.
      by apply (IH f Hf x y v1 v2 Hxy (Hst f Hf) Hv1 Hv2). }
    exists (DObj fs'). cbn [lay]. by rewrite Hlc1, Hlc2.
Qed.

Lemma all2b_elem_r {A B} (R : A -> B -> bool) (F : A -> B -> list loc)
    (l1 : list A) :
  forall l2 b, all2b R l1 l2 = true -> b ∈ l2 ->
  exists a, a ∈ l1 /\ R a b = true /\ forall l, l ∈ F a b -> l ∈ join2 F l1 l2.
Proof.
  induction l1 as [|a l1 IH]; intros [|b0 l2] b; cbn; try done.
  - intros _ Hb. by apply elem_of_nil in Hb.
  - intros Hall Hb. apply andb_true_iff in Hall as [Hab Hall].
    apply elem_of_cons in Hb as [->|Hb].
    + exists a. split; [by left|]. split; [done|].
      intros l Hl. apply elem_of_app. by left.
    + destruct (IH l2 b Hall Hb) as (a' & Ha' & HR & Hsub).
      exists a'. split; [by right|]. split; [done|].
      intros l Hl. apply elem_of_app. right. by apply Hsub.
Qed.

Lemma elems_away (L : list loc) (h : heap) (ds : list doc) (es : list (option val))
    (l0 : loc) :
  all2b (fun d e => match e with Some x => lay h d x | None => false end) ds es
    = true ->
  (forall l, l ∈ L ->
     l ∉ join2 (fun d e => locs_of h d (elem_val e)) ds es) ->
  Forall (stable L h) (elem_val <$> es).
Proof.
  intros Hall Hout. apply Forall_forall. intros x Hx.
  apply list_elem_of_fmap in Hx as (e & -> & He).
  destruct (all2b_elem_r _ (fun d e => locs_of h d (elem_val e)) ds es e Hall He)
    as (d & _ & Hlay & Hsub).
  destruct e as [x|]; [|done]. exists d. split; [done|].
  intros l Hl Hin. apply (Hout l Hin). by apply Hsub.
Qed.

Lemma fields_skel (h : heap) (fs : list (key * doc)) :
  Forall (fun f => forall vc va, lay h f.2 vc = true -> lay h f.2 va = true ->
            NoDup (locs_of h f.2 vc) -> wf_doc f.2 = true ->
            exists s, skel_for h f.2 vc va s) fs ->
  forall pc pa,
  all2b (fun f p => bool_decide (p.1 = f.1) && lay h f.2 p.2) fs pc = true ->
  all2b (fun f p => bool_decide (p.1 = f.1) && lay h f.2 p.2) fs pa = true ->
  NoDup (join2 (fun f p => locs_of h f.2 p.2) fs pc) ->
  forallb (fun f => wf_doc f.2) fs = true ->
  exists fss : list (key * skel),
    fss.*1 = fs.*1 /\ rows2 (pre h) fss pc pa /\
    Forall (fun f => keys_ok f.2) fss /\
    (foldr Nat.max 0 ((fun f => sdepth f.2) <$> fss) <=
       foldr Nat.max 0 ((fun f => depth f.2) <$> fs))%nat /\
    (forall l, l ∈ mjoin ((fun f => clocs f.2) <$> fss) ->
       l ∈ join2 (fun f p => locs_of h f.2 p.2) fs pc) /\
    NoDup (mjoin ((fun f => clocs f.2) <$> fss)) /\
    (forall l, l ∈ mjoin ((fun f => alocs f.2) <$> fss) ->
       l ∈ join2 (fun f p => locs_of h f.2 p.2) fs pa) /\
    (forall L,
       away L (join2 (fun f p => locs_of h f.2 p.2) fs pc)
         (join2 (fun f p => locs_of h f.2 p.2) fs pa)
         (mjoin ((fun f => clocs f.2) <$> fss)) ->
       Forall (fun f => elems_stable L h f.2) fss).
Proof.
  induction fs as [|f fs IHfs]; intros IH [|c pc] [|a pa]; cbn [all2b]; try done.
  { intros _ _ _ _. exists []. cbn. repeat split; try done; try constructor. }
  intros Hc Ha Hnd Hwf.
  apply Forall_cons in IH as [IHf IH].
  apply andb_true_iff in Hc as [Hc Hcs]. apply andb_true_iff in Hc as [Hkc Hc].
  apply andb_true_iff in Ha as [Ha Has]. apply andb_true_iff in Ha as [Hka Ha].
  apply bool_decide_eq_true_1 in Hkc. apply bool_decide_eq_true_1 in Hka.
  cbn [forallb] in Hwf. apply andb_true_iff in Hwf as [Hwf Hwfs].
  cbn [join2] in Hnd. apply NoDup_app in Hnd as (Hnd_f & Hdisj & Hnd_r).
  destruct (IHf c.2 a.2 Hc Ha Hnd_f Hwf)
    as (s & Hpre & Hkeys & Hdepth & Hcl & Hnds & Hal & Hst).
  destruct (IHfs IH pc pa Hcs Has Hnd_r Hwfs)
    as (fss & Hk & Hrows & Hkeyss & Hdepths & Hcls & Hndss & Hals & Hsts).
  exists ((f.1, s) :: fss). csimpl. cbn [fst snd].
  split; [by rewrite Hk|]. split; [done|]. split; [by constructor|].
  split; [lia|]. split; [|split; [|split]].
  - intros l Hl. apply elem_of_app in Hl as [Hl|Hl]; apply elem_of_app.
    + left. by apply Hcl.
    + right. by apply Hcls.
  - apply NoDup_app. split; [done|]. split; [|done].
    intros l Hl Hl'. apply (Hdisj l); [by apply Hcl|by apply Hcls].
  - intros l Hl. apply elem_of_app in Hl as [Hl|Hl]; apply elem_of_app.
    + left. by apply Hal.
    + right. by apply Hals.
  - intros L Haway. constructor.
    + apply Hst. intros l Hl. destruct (Haway l Hl) as [HA HC]. split.
      * intros Hin. apply HA, elem_of_app. by left.
      * intros Hin. specialize (HC ltac:(apply elem_of_app; by left)).
        apply elem_of_app in HC as [HC|HC]; [done|].
        exfalso. apply (Hdisj l Hin). by apply Hcls.
    + apply Hsts. intros l Hl. destruct (Haway l Hl) as [HA HC]. split.
      * intros Hin. apply HA, elem_of_app. by right.
      * intros Hin. specialize (HC ltac:(apply elem_of_app; by right)).
        apply elem_of_app in HC as [HC|HC]; [|done].
        exfalso. apply (Hdisj l); [by apply Hcl|done].
Qed.

(** A document and a copy of it that is laid out as a tree have a skeleton. *)
Lemma skel_exists (h : heap) (d : doc) :
  forall vc va,
  lay h d vc = true -> lay h d va = true ->
  NoDup (locs_of h d vc) -> wf_doc d = true ->
  exists s, skel_for h d vc va s.
Proof.
  induction d as [p|ds IH|fs IH] using doc_ind'; intros vc va Hc Ha Hnd Hwf.
  - cbn [lay] in Hc, Ha.
    apply andb_true_iff in Hc as [Hc Hp]. apply bool_decide_eq_true_1 in Hc.
    apply andb_true_iff in Ha as [Ha _]. apply bool_decide_eq_true_1 in Ha.
    apply negb_true_iff in Hp. subst vc va.
    exists (KPrim p). repeat split; try done; try constructor.
  - destruct vc as [| | | | |lc]; try done. destruct va as [| | | | |la]; try done.
    cbn [lay locs_of] in *.
    destruct (h !! lc) as [[?|esc [|]]|] eqn:Hlc; try done.
    destruct (h !! la) as [[?|esa [|]]|] eqn:Hla; try done.
    exists (KArr (elem_val <$> esc) (elem_val <$> esa)).
    unfold skel_for. cbn [locs_of]. rewrite Hlc, Hla.
    split; [|split; [done|split; [cbn; lia|split; [|split; [constructor|split]]]]].
    + cbn [pre isArray spread]. by rewrite Hlc, Hla.
    + intros l Hl. by apply elem_of_nil in Hl.
    + intros l Hl. by apply elem_of_nil in Hl.
    + intros L Haway. unfold away in Haway. cbn [locs_of clocs] in Haway.
      rewrite ?Hlc, ?Hla in Haway. cbn [elems_stable]. apply Forall_app. split.
      * apply (elems_away L h ds esc lc Hc). intros l Hl Hin.
        destruct (Haway l Hl) as [_ HC].
        specialize (HC ltac:(by right)). by apply elem_of_nil in HC.
      * apply (elems_away L h ds esa la Ha). intros l Hl Hin.
        destruct (Haway l Hl) as [HA _]. apply HA. by right.
  - destruct vc as [| | | | |lc]; try done. destruct va as [| | | | |la]; try done.
    cbn [lay locs_of wf_doc] in *.
    destruct (h !! lc) as [[pc|]|] eqn:Hlc; try done.
    destruct (h !! la) as [[pa|]|] eqn:Hla; try done.
    apply andb_true_iff in Hwf as [Hndk Hwf]. apply bool_decide_eq_true_1 in Hndk.
    apply NoDup_cons in Hnd as [Hlc_out Hnd].
    destruct (fields_skel h fs IH pc pa Hc Ha Hnd Hwf)
      as (fss & Hk & Hrows & Hkeyss & Hdepths & Hcls & Hndss & Hals & Hsts).
    exists (KObj lc la fss). unfold skel_for. cbn [locs_of]. rewrite Hlc, Hla.
    split; [|split; [|split; [|split; [|split; [|split]]]]].
    + cbn [pre]. do 2 (split; [done|]). by exists pc, pa.
    + cbn [keys_ok]. split; [by rewrite Hk|].
      by apply (foldr_and_Forall (fun f => keys_ok f.2)).
    + cbn [sdepth depth]. lia.
    + cbn [clocs]. intros l Hl. apply elem_of_cons in Hl as [->|Hl]; [by left|].
      right. by apply Hcls.
    + cbn [clocs]. apply NoDup_cons. split; [|done].
      intros Hin. by apply Hlc_out, Hcls.
    + cbn [alocs]. intros l Hl. apply elem_of_cons in Hl as [->|Hl]; [by left|].
      right. by apply Hals.
    + intros L Haway. unfold away in Haway. cbn [locs_of clocs] in Haway.
      rewrite ?Hlc, ?Hla in Haway. cbn [elems_stable].
      apply (foldr_and_Forall (fun f => elems_stable L h f.2)).
      apply Hsts. intros l Hl. destruct (Haway l Hl) as [HA HC]. split.
      * intros Hin. apply HA. by right.
      * intros Hin. specialize (HC ltac:(by right)). cbn [clocs] in HC.
        apply elem_of_cons in HC as [->|HC]; [done|done].
Qed.

(** C7.  For a document (a mapping) at [a] and a copy of it at [c] that is laid
    out as a tree of its own, away from the document, the two merges return
    and the target is the same document after the second merge as after the
    first. *)
Theorem deepMerge_again_same (h : heap) (fs : list (key * doc)) (c a : loc)
    (fuel : nat) :
  wf_doc (DObj fs) = true ->
  lay h (DObj fs) (VRef a) = true ->
  lay h (DObj fs) (VRef c) = true ->
  NoDup (locs_of h (DObj fs) (VRef c)) ->
  Forall (fun l => l ∉ locs_of h (DObj fs) (VRef a))
    (locs_of h (DObj fs) (VRef c)) ->
  (depth (DObj fs) <= fuel)%nat ->
  exists h1 h2 d',
    deepMerge fuel (VRef c) (VRef a) h = Ok h1 /\
    deepMerge fuel (VRef c) (VRef a) h1 = Ok h2 /\
    lay h1 d' (VRef c) = true /\ lay h2 d' (VRef c) = true.
Proof.
  intros Hwf Ha Hc Hnd Hsep Hfuel. rewrite Forall_forall in Hsep.
  destruct (skel_exists h (DObj fs) (VRef c) (VRef a) Hc Ha Hnd Hwf)
    as (s & Hpre & Hkeys & Hdepth & Hcl & Hnds & Hal & Hst).
  assert (Hdis : forall l, l ∈ alocs s -> l ∉ clocs s).
  { intros l Hl Hin. apply (Hsep l); [by apply Hcl|by apply Hal]. }
  assert (Hshape : exists fss, s = KObj c a fss).
  { destruct s as [p|ec ea|lc la fss].
    - by destruct Hpre as (? & ? & ?).
    - destruct Hpre as (Harr & _). cbn [lay] in Hc. cbn [isArray] in Harr.
      by destruct (h !! c) as [[|]|].
    - destruct Hpre as ([= ->] & [= ->] & _). by exists fss. }
  destruct Hshape as (fss & Hs).
  destruct (merge_skel s c a fss Hs fuel h) as (h1 & Hrun1 & Hag1 & Hpost1);
    [lia|done..|].
  assert (HX : mappings h (clocs s)) by by apply (pre_clocs_dom h s (VRef c) (VRef a)).
  assert (Hpre1 : pre h1 (next s) (VRef c) (VRef a)).
  { apply (post_pre (clocs s) h h1 s (VRef c)); try done.
    intros l Hl Hin. by apply (Hdis l). }
  destruct (merge_skel (next s) c a ((fun f => (f.1, next f.2)) <$> fss))
    with (n := fuel) (h := h1) as (h2 & Hrun2 & Hag2 & Hpost2).
  { by rewrite Hs. }
  { rewrite sdepth_next. lia. }
  { done. }
  { by rewrite clocs_next. }
  { by rewrite clocs_next, alocs_next. }
  { by apply keys_ok_next. }
  rewrite clocs_next in Hag2.
  destruct (merged_same (clocs s) h h1 h2 s (VRef c) (VRef a) (VRef c) (VRef c))
    as (d' & Hd1 & Hd2); try done.
  - apply Hst. intros l Hl. split; [|done].
    intros Hin. apply (Hsep l); [by apply Hcl|done].
  - apply (agree_mono (clocs s ++ clocs s)).
    + intros l Hl. by apply elem_of_app in Hl as [Hl|Hl].
    + by apply (agree_trans _ _ h h1 h2).
  - by exists h1, h2, d'.
Qed.

Lemma deepMerge_again_same_witness :
  exists h1 h2 d',
    deepMerge 2 (VRef 4%nat) (VRef 0%nat) app_and_copy = Ok h1 /\
    deepMerge 2 (VRef 4%nat) (VRef 0%nat) h1 = Ok h2 /\
    lay h1 d' (VRef 4%nat) = true /\ lay h2 d' (VRef 4%nat) = true.
Proof.
  apply (deepMerge_again_same app_and_copy
           [(KName "name", DPrim (VStr "app"));
            (KName "tags", DArr [DPrim (VStr "a");
                                 DObj [(KName "x", DPrim (VNum 1))]]);
            (KName "deps", DObj [(KName "vue", DPrim (VStr "3"))])]
           4%nat 0%nat 2%nat).
  - vm_compute. reflexivity.
  - vm_compute. reflexivity.
  - vm_compute. reflexivity.
  - apply (bool_decide_eq_true_1 _). vm_compute. reflexivity.
  - apply (bool_decide_eq_true_1 _). vm_compute. reflexivity.
  - vm_compute. lia.
Defined.

(** The two merges on the example: the mapping in the sequence is doubled by
    the first merge, and the second merge changes nothing. *)
Example deepMerge_again_app :
  exists h1 h2,
    deepMerge 2 (VRef 4%nat) (VRef 0%nat) app_and_copy = Ok h1 /\
    deepMerge 2 (VRef 4%nat) (VRef 0%nat) h1 = Ok h2 /\
    lay app_and_copy app_doc (VRef 4%nat) = true /\
    lay h1 app_merged (VRef 4%nat) = true /\
    lay h2 app_merged (VRef 4%nat) = true.
Proof. eexists _, _. repeat split; vm_compute; reflexivity. Qed.

End DocFacts.


(** * Properties of the directory traversals *)

Module TraverseFacts.
Import FS Traverse.


Lemma walk_error (t : node) (p : path) (e : error) :
  walk t p = Throw e -> e = ENOENT \/ e = ENOTDIR.
Proof.
  revert t. induction p as [|s p IH]; intros t; cbn [walk]; [done|].
  destruct t as [d|l|es]; [intros [= <-]; by right | done |].
  destruct (entry s es) as [c|]; [apply IH | intros [= <-]; by left].
Qed.

Lemma readdirSync_not_dir (t : node) (dir : path) :
  (exists e, walk t dir = Throw e) \/ (exists data, walk t dir = Ok (File data)) ->
  exists e, (e = ENOENT \/ e = ENOTDIR) /\ readdirSync t dir = Throw e.
Proof.
  unfold readdirSync, statSync. intros [[e He]|[data He]]; rewrite He.
  - exists e. split; [by eapply walk_error | done].
  - exists ENOTDIR. split; [by right | done].
Qed.

(** C8.  A traversal started on a path that does not exist, or that names a
    regular file, raises ENOENT or ENOTDIR to its caller: it does not return
    normally. *)
Theorem traverse_bad_root (fuel : nat) (dir : path)
    (dirCallback fileCallback : callback) (w : world) :
  (exists e, walk (tree w) dir = Throw e) \/
  (exists data, walk (tree w) dir = Ok (File data)) ->
  exists e, (e = ENOENT \/ e = ENOTDIR) /\
    preOrderDirectoryTraverse (S fuel) dir dirCallback fileCallback w = Throw e /\
    postOrderDirectoryTraverse (S fuel) dir dirCallback fileCallback w = Throw e.
Proof.
  intros Hbad. destruct (readdirSync_not_dir _ _ Hbad) as (e & He & Hrd).
  exists e. split; [done|].
  cbn [preOrderDirectoryTraverse postOrderDirectoryTraverse].
  unfold observe. rewrite Hrd. done.
Qed.

(** The loop body when the directory callback leaves the directory it was
    given absent: it returns with the file system as the callback left it; the
    directory is not listed and no recursive call is made. *)
Lemma preOrder_entry_skips (rec : path -> world -> res world)
    (dir : path) (dirCallback fileCallback : callback)
    (filename : string) (w : world) (es : entries) (t1 : node) :
  let fullpath := path_resolve dir filename in
  lstatSync (tree w) fullpath = Ok (Dir es) ->
  dirCallback fullpath (tree w) = Ok t1 ->
  existsSync t1 fullpath = Ok false ->
  preOrder_entry rec dir dirCallback fileCallback filename w =
    Ok (World t1 (log w ++ [EOnDir fullpath; EExists fullpath false])) /\
  EReaddir fullpath ∉ [EOnDir fullpath; EExists fullpath false].
Proof.
  intros fullpath Hst Hcb Hex. split.
  - unfold preOrder_entry. fold fullpath. rewrite Hst. cbn [rbind isDirectory].
    unfold change. rewrite Hcb. cbn [rbind tree]. rewrite Hex. cbn [rbind].
    unfold emit. cbn [tree log]. by rewrite <- app_assoc.
  - rewrite !not_elem_of_cons. repeat split; try done. apply not_elem_of_nil.
Qed.

Section trace.
Context (dirCallback fileCallback : callback).

Lemma preOrder_loop_trace (rec : path -> world -> res world) (dir : path) :
  (forall p w w', rec p w = Ok w' ->
     exists l, log w' = log w ++ EReaddir p :: l /\ entries_trace l) ->
  forall names w w',
    forEach (preOrder_entry rec dir dirCallback fileCallback) names w = Ok w' ->
    exists l, log w' = log w ++ l /\ entries_trace l.
Proof.
  intros Hrec names. induction names as [|name names IH]; intros w w'.
  { cbn. intros [= <-]. exists []. split; [by rewrite app_nil_r | constructor]. }
  cbn [forEach]. unfold preOrder_entry at 1.
  set (fullpath := path_resolve dir name).
  destruct (lstatSync (tree w) fullpath) as [st| | |]; cbn [rbind]; try done.
  destruct (isDirectory st).
  - unfold change. destruct (dirCallback fullpath (tree w)) as [t1| | |];
      cbn [rbind tree]; try done.
    destruct (existsSync t1 fullpath) as [[|]| | |]; cbn [rbind]; try done.
    + destruct (rec fullpath _) as [w1| | |] eqn:Hr; cbn [rbind]; try done.
      intros Hrest. destruct (Hrec _ _ _ Hr) as (sub & Hsub & Htr).
      destruct (IH _ _ Hrest) as (l & Hl & Htl).
      exists (EOnDir fullpath :: EExists fullpath true :: EReaddir fullpath
                :: sub ++ l).
      split; [|by constructor].
      rewrite Hl, Hsub. cbn [emit log]. rewrite <- !app_assoc. done.
    + intros Hrest. destruct (IH _ _ Hrest) as (l & Hl & Htl).
      exists (EOnDir fullpath :: EExists fullpath false :: l).
      split; [|by constructor].
      rewrite Hl. cbn [emit log]. rewrite <- !app_assoc. done.
  - unfold change. destruct (fileCallback fullpath (tree w)) as [t1| | |];
      cbn [rbind]; try done.
    intros Hrest. destruct (IH _ _ Hrest) as (l & Hl & Htl).
    exists (EOnFile fullpath :: l). split; [|by constructor].
    rewrite Hl. cbn [log]. rewrite <- !app_assoc. done.
Qed.

(** Whatever the callbacks do, a pre-order traversal lists a directory other
    than its root only right after the existence check on it succeeded. *)
Lemma preOrder_trace (fuel : nat) (dir : path) (w w' : world) :
  preOrderDirectoryTraverse fuel dir dirCallback fileCallback w = Ok w' ->
  exists l, log w' = log w ++ EReaddir dir :: l /\ entries_trace l.
Proof.
  revert dir w w'. induction fuel as [|fuel IH]; intros dir w w'; [done|].
  cbn [preOrderDirectoryTraverse]. unfold observe.
  destruct (readdirSync (tree w) dir) as [names| | |]; cbn [rbind]; try done.
  intros Hloop.
  destruct (preOrder_loop_trace _ dir (IH) names _ _ Hloop) as (l & Hl & Htr).
  exists l. split; [|done]. rewrite Hl. cbn [emit log]. by rewrite <- app_assoc.
Qed.
End trace.


Lemma node_ind' (P : node -> Prop) :
  (forall d, P (File d)) -> (forall l, P (Link l)) ->
  (forall es, Forall (fun e => P e.2) es -> P (Dir es)) ->
  forall n, P n.
Proof.
  intros Hf Hl Hd. fix IH 1. intros [d|l|es]; [apply Hf | apply Hl |].
  apply Hd. induction es as [|[s c] es IHes]; constructor; [apply IH | apply IHes].
Qed.

Lemma wf_node_dir (es : entries) :
  wf_node (Dir es) <->
  NoDup es.*1 /\ Forall ok_name es.*1 /\ Forall (fun e => wf_node e.2) es.
Proof.
  cbn [wf_node].
  assert ((fix all (l : entries) : Prop :=
             match l with
             | [] => True
             | (_, n) :: l' => wf_node n /\ all l'
             end) es <-> Forall (fun e => wf_node e.2) es) as ->; [|done].
  induction es as [|[s c] es IH]; [by split; [constructor|]|].
  rewrite Forall_cons, IH. done.
Qed.

Lemma depth_dir (es : entries) (s : string) (c : node) :
  (s, c) ∈ es -> (depth c < depth (Dir es))%nat.
Proof.
  cbn [depth]. induction es as [|[s' c'] es IH]; [by intros ?%elem_of_nil|].
  rewrite elem_of_cons. intros [[= <- <-]|Hin]; [lia|]. specialize (IH Hin). lia.
Qed.

Lemma pre_node_dir (p : path) (sub : entries) :
  pre_node p (Dir sub) =
  EOnDir p :: EExists p true :: EReaddir p :: pre_events p sub.
Proof.
  cbn [pre_node]. do 3 f_equal. unfold pre_events.
  induction sub as [|[s c] sub IH]; [done|]. csimpl. by rewrite IH.
Qed.

Lemma post_node_dir (p : path) (sub : entries) :
  post_node p (Dir sub) = EReaddir p :: post_events p sub ++ [EOnDir p].
Proof.
  cbn [post_node]. do 2 f_equal. unfold post_events.
  induction sub as [|[s c] sub IH]; [done|]. csimpl. by rewrite IH.
Qed.

Lemma walk_app (t : node) (p q : path) :
  walk t (p ++ q) = let* n := walk t p in walk n q.
Proof.
  revert t. induction p as [|s p IH]; intros t; [done|]. cbn [app walk].
  destruct t as [d|l|es]; try done. destruct (entry s es); [apply IH | done].
Qed.

Lemma entry_elem (es : entries) (s : string) (c : node) :
  NoDup es.*1 -> (s, c) ∈ es -> entry s es = Some c.
Proof.
  induction es as [|[s' c'] es IH]; [by intros _ ?%elem_of_nil|].
  csimpl. rewrite NoDup_cons, elem_of_cons. intros [Hnin Hnd] [[= <- <-]|Hin].
  - by rewrite decide_True.
  - rewrite decide_False; [by apply IH|]. intros ->. apply Hnin.
    apply list_elem_of_fmap. by exists (s, c).
Qed.

Lemma entry_Some_elem (es : entries) (s : string) (c : node) :
  entry s es = Some c -> (s, c) ∈ es.
Proof.
  induction es as [|[s' c'] es IH]; [done|]. cbn [entry].
  destruct (decide (s' = s)) as [->|Hne].
  - intros [= ->]. apply elem_of_cons. by left.
  - intros H. apply elem_of_cons. right. auto.
Qed.

Lemma path_resolve_ok (dir : path) (name : string) :
  ok_name name -> path_resolve dir name = dir ++ [name].
Proof.
  intros (H1 & H2 & H3). unfold path_resolve.
  rewrite decide_False by tauto. by rewrite decide_False.
Qed.

Lemma walk_child (t : node) (p : path) (es : entries) (s : string) (c : node) :
  walk t p = Ok (Dir es) -> NoDup es.*1 -> (s, c) ∈ es ->
  walk t (p ++ [s]) = Ok c.
Proof.
  intros Hp Hnd Hin. rewrite walk_app, Hp. cbn [rbind walk].
  by rewrite (entry_elem es s c).
Qed.

Section fixed_tree.
Context (t : node) (dirCallback fileCallback : callback).
Context (Hdir : forall p t', dirCallback p t' = Ok t').
Context (Hfile : forall p t', fileCallback p t' = Ok t').

(** The loop over the entries of a directory, given what it does at each
    entry. *)
Lemma entries_run (body : string -> world -> res world)
    (ev : path -> node -> list event) (p : path) (es : entries) :
  (forall s c l, (s, c) ∈ es ->
     body s (World t l) = Ok (World t (l ++ ev (p ++ [s]) c))) ->
  forall l, forEach body es.*1 (World t l) =
            Ok (World t (l ++ (es ≫= (fun e => ev (p ++ [e.1]) e.2)))).
Proof.
  induction es as [|[s c] es IH]; intros Hbody l.
  { cbn. by rewrite app_nil_r. }
  csimpl. rewrite (Hbody s c); [|apply elem_of_cons; by left]. cbn [rbind].
  rewrite IH.
  - by rewrite <- app_assoc.
  - intros s' c' l' Hin. apply Hbody. apply elem_of_cons. by right.
Qed.

Lemma pre_child (c : node) :
  wf_node c ->
  forall fuel dir name l,
    walk t (dir ++ [name]) = Ok c -> ok_name name -> (depth c <= fuel)%nat ->
    preOrder_entry (pre_rec dirCallback fileCallback fuel) dir dirCallback fileCallback name (World t l) =
      Ok (World t (l ++ pre_node (dir ++ [name]) c)).
Proof using Hdir Hfile.
  induction c as [d|lk|es IH] using node_ind';
    intros Hwf fuel dir name l Hwalk Hname Hfuel;
    unfold preOrder_entry; rewrite (path_resolve_ok _ _ Hname);
    unfold lstatSync; cbn [tree].
  all: rewrite Hwalk; cbn [rbind isDirectory].
  - unfold change. cbn [tree log]. by rewrite Hfile.
  - unfold change. cbn [tree log]. by rewrite Hfile.
  - unfold change. cbn [tree log]. rewrite Hdir. cbn [rbind tree].
    unfold existsSync, statSync. rewrite Hwalk. cbn [rbind emit tree log].
    apply wf_node_dir in Hwf as (Hnd & Hnames & Hkids).
    destruct fuel as [|fuel]; [cbn [depth] in Hfuel; lia|].
    unfold pre_rec at 1. cbn [preOrderDirectoryTraverse].
    unfold observe, readdirSync, statSync, emit. cbn [tree log]. rewrite Hwalk.
    cbn [rbind emit tree log]. fold (pre_rec dirCallback fileCallback fuel).
    rewrite (entries_run _ pre_node (dir ++ [name]) es).
    + rewrite pre_node_dir. unfold pre_events. f_equal. f_equal.
      rewrite <- !app_assoc. done.
    + intros s c l' Hin. rewrite Forall_forall in IH; rewrite Forall_forall in Hnames; rewrite Forall_forall in Hkids.
      apply (IH (s, c) Hin); cbn [snd].
      * by apply (Hkids (s, c)).
      * by eapply walk_child.
      * apply Hnames. apply list_elem_of_fmap. by exists (s, c).
      * pose proof (depth_dir es s c Hin). lia.
Qed.

Lemma post_child (c : node) :
  wf_node c ->
  forall fuel dir name l,
    walk t (dir ++ [name]) = Ok c -> ok_name name -> (depth c <= fuel)%nat ->
    postOrder_entry (post_rec dirCallback fileCallback fuel) dir dirCallback fileCallback name (World t l) =
      Ok (World t (l ++ post_node (dir ++ [name]) c)).
Proof using Hdir Hfile.
  induction c as [d|lk|es IH] using node_ind';
    intros Hwf fuel dir name l Hwalk Hname Hfuel;
    unfold postOrder_entry; rewrite (path_resolve_ok _ _ Hname);
    unfold lstatSync; cbn [tree].
  all: rewrite Hwalk; cbn [rbind isDirectory].
  - unfold change. cbn [tree log]. by rewrite Hfile.
  - unfold change. cbn [tree log]. by rewrite Hfile.
  - apply wf_node_dir in Hwf as (Hnd & Hnames & Hkids).
    destruct fuel as [|fuel]; [cbn [depth] in Hfuel; lia|].
    unfold post_rec at 1. cbn [postOrderDirectoryTraverse].
    unfold observe, readdirSync, statSync, emit. cbn [tree log]. rewrite Hwalk.
    cbn [rbind emit tree log]. fold (post_rec dirCallback fileCallback fuel).
    rewrite (entries_run _ post_node (dir ++ [name]) es).
    + cbn [rbind]. unfold change. cbn [tree log]. rewrite Hdir. cbn [rbind].
      rewrite post_node_dir. unfold post_events. f_equal. f_equal.
      rewrite <- !app_assoc. done.
    + intros s c l' Hin. rewrite Forall_forall in IH; rewrite Forall_forall in Hnames; rewrite Forall_forall in Hkids.
      apply (IH (s, c) Hin); cbn [snd].
      * by apply (Hkids (s, c)).
      * by eapply walk_child.
      * apply Hnames. apply list_elem_of_fmap. by exists (s, c).
      * pose proof (depth_dir es s c Hin). lia.
Qed.

(** Both traversals of a directory of a fixed tree finish and log what
    [pre_events] and [post_events] say. *)
Lemma traversals_run (dir : path) (es : entries) (fuel : nat) (l : list event) :
  wf_node (Dir es) -> walk t dir = Ok (Dir es) -> (depth (Dir es) <= fuel)%nat ->
  preOrderDirectoryTraverse fuel dir dirCallback fileCallback (World t l) =
    Ok (World t (l ++ EReaddir dir :: pre_events dir es)) /\
  postOrderDirectoryTraverse fuel dir dirCallback fileCallback (World t l) =
    Ok (World t (l ++ EReaddir dir :: post_events dir es)).
Proof using Hdir Hfile.
  intros Hwf Hwalk Hfuel. pose proof Hwf as Hwf'.
  apply wf_node_dir in Hwf' as (Hnd & Hnames & Hkids).
  destruct fuel as [|fuel]; [cbn [depth] in Hfuel; lia|].
  rewrite Forall_forall in Hnames; rewrite Forall_forall in Hkids.
  cbn [preOrderDirectoryTraverse postOrderDirectoryTraverse].
  unfold observe, readdirSync, statSync, emit. cbn [tree log]. rewrite Hwalk.
  cbn [rbind emit tree log]. fold (pre_rec dirCallback fileCallback fuel) (post_rec dirCallback fileCallback fuel). split.
  - rewrite (entries_run _ pre_node dir es).
    + unfold pre_events. by rewrite <- app_assoc.
    + intros s c l' Hin. apply pre_child.
      * by apply (Hkids (s, c)).
      * by eapply walk_child.
      * apply Hnames. apply list_elem_of_fmap. by exists (s, c).
      * pose proof (depth_dir es s c Hin). lia.
  - rewrite (entries_run _ post_node dir es).
    + unfold post_events. by rewrite <- app_assoc.
    + intros s c l' Hin. apply post_child.
      * by apply (Hkids (s, c)).
      * by eapply walk_child.
      * apply Hnames. apply list_elem_of_fmap. by exists (s, c).
      * pose proof (depth_dir es s c Hin). lia.
Qed.
End fixed_tree.


Lemma pre_events_cons (p : path) (s : string) (c : node) (es : entries) :
  pre_events p ((s, c) :: es) = pre_node (p ++ [s]) c ++ pre_events p es.
Proof. done. Qed.

Lemma post_events_cons (p : path) (s : string) (c : node) (es : entries) :
  post_events p ((s, c) :: es) = post_node (p ++ [s]) c ++ post_events p es.
Proof. done. Qed.

Lemma pre_events_elem (p : path) (es : entries) (e : event) :
  e ∈ pre_events p es <-> exists s c, (s, c) ∈ es /\ e ∈ pre_node (p ++ [s]) c.
Proof.
  unfold pre_events. rewrite list_elem_of_bind. split.
  - intros ([s c] & He & Hin). eauto.
  - intros (s & c & Hin & He). exists (s, c). done.
Qed.

Lemma post_events_elem (p : path) (es : entries) (e : event) :
  e ∈ post_events p es <-> exists s c, (s, c) ∈ es /\ e ∈ post_node (p ++ [s]) c.
Proof.
  unfold post_events. rewrite list_elem_of_bind. split.
  - intros ([s c] & He & Hin). eauto.
  - intros (s & c & Hin & He). exists (s, c). done.
Qed.

(** The callbacks of both traversals, as multisets. *)
Lemma calls_perm_node (c : node) (p : path) :
  filter is_callback (pre_node p c) ≡ₚ filter is_callback (post_node p c).
Proof.
  revert p. induction c as [d|lk|es IH] using node_ind'; intros p; [done..|].
  rewrite pre_node_dir, post_node_dir.
  assert (filter is_callback (pre_events p es) ≡ₚ
          filter is_callback (post_events p es)) as Hes.
  { induction es as [|[s c] es IHes]; [done|].
    apply Forall_cons in IH as [Hc IH]. cbn [snd] in Hc.
    rewrite pre_events_cons, post_events_cons, !filter_app.
    by rewrite (Hc (p ++ [s])), IHes. }
  rewrite filter_cons_True by done.
  rewrite filter_cons_False by (cbn; tauto).
  rewrite filter_cons_False by (cbn; tauto).
  rewrite (filter_cons_False _ (EReaddir p)) by (cbn; tauto).
  rewrite filter_app, Hes. cbn. apply Permutation_cons_append.
Qed.

(** The file callbacks come in the same order in both traversals. *)
Lemma onFile_eq_node (c : node) (p : path) :
  filter is_onFile (pre_node p c) = filter is_onFile (post_node p c).
Proof.
  revert p. induction c as [d|lk|es IH] using node_ind'; intros p; [done..|].
  rewrite pre_node_dir, post_node_dir.
  assert (filter is_onFile (pre_events p es) =
          filter is_onFile (post_events p es)) as Hes.
  { induction es as [|[s c] es IHes]; [done|].
    apply Forall_cons in IH as [Hc IH]. cbn [snd] in Hc.
    rewrite pre_events_cons, post_events_cons, !filter_app.
    by rewrite (Hc (p ++ [s])), IHes. }
  rewrite !filter_cons_False by (cbn; tauto).
  rewrite filter_app, Hes. cbn. by rewrite app_nil_r.
Qed.

Lemma pre_node_paths (c : node) (p : path) (e : event) :
  e ∈ pre_node p c -> exists rel, event_path e = p ++ rel.
Proof.
  revert p. induction c as [d|lk|es IH] using node_ind'; intros p.
  - intros ->%list_elem_of_singleton. exists []. by rewrite app_nil_r.
  - intros ->%list_elem_of_singleton. exists []. by rewrite app_nil_r.
  - rewrite pre_node_dir, !elem_of_cons, pre_events_elem.
    intros [->|[->|[->|(s & c & Hin & He)]]];
      [exists []; by rewrite app_nil_r..|].
    rewrite Forall_forall in IH.
    destruct (IH (s, c) Hin (p ++ [s]) He) as [rel ->].
    exists (s :: rel). by rewrite <- app_assoc.
Qed.

Lemma pre_events_long (p : path) (es : entries) (e : event) :
  e ∈ pre_events p es -> event_path e <> p.
Proof.
  intros (s & c & Hin & He)%pre_events_elem.
  destruct (pre_node_paths _ _ _ He) as [rel ->].
  rewrite <- app_assoc. intros Heq.
  apply (f_equal length) in Heq. rewrite length_app in Heq. cbn in Heq. lia.
Qed.

Lemma pre_node_NoDup (c : node) (p : path) : wf_node c -> NoDup (pre_node p c).
Proof.
  revert p. induction c as [d|lk|es IH] using node_ind'; intros p Hwf;
    [apply NoDup_singleton..|].
  apply wf_node_dir in Hwf as (Hnd & _ & Hkids).
  rewrite pre_node_dir.
  assert (forall e, e ∈ pre_events p es -> event_path e <> p) as Hlong.
  { intros e (s & c & Hin & He)%pre_events_elem.
    destruct (pre_node_paths _ _ _ He) as [rel ->].
    rewrite <- app_assoc. intros Heq.
    apply (f_equal length) in Heq. rewrite length_app in Heq. cbn in Heq. lia. }
  assert (NoDup (pre_events p es)) as Hes.
  { clear Hlong. induction es as [|[s c] es IHes]; [constructor|].
    apply Forall_cons in IH as [Hc IH]. apply Forall_cons in Hkids as [Hwc Hkids].
    csimpl in Hnd. apply NoDup_cons in Hnd as [Hs Hnd].
    rewrite pre_events_cons. apply NoDup_app. split; [by apply Hc|].
    split; [|by apply IHes].
    intros e He (s' & c' & Hin' & He')%pre_events_elem.
    destruct (pre_node_paths _ _ _ He) as [rel Hrel].
    destruct (pre_node_paths _ _ _ He') as [rel' Hrel'].
    rewrite Hrel, <- !app_assoc in Hrel'. apply app_inv_head in Hrel'.
    injection Hrel' as -> _. apply Hs. apply list_elem_of_fmap. by exists (s', c'). }
  repeat (apply NoDup_cons; split); try done.
  - rewrite !not_elem_of_cons. repeat split; try done.
    intros He. by apply (Hlong _ He).
  - rewrite !not_elem_of_cons. repeat split; try done.
    intros He. by apply (Hlong _ He).
  - intros He. by apply (Hlong _ He).
Qed.

Lemma walk_leaf (c : node) (rel : path) (n : node) :
  isDirectory c = false -> walk c rel = Ok n -> rel = [] /\ n = c.
Proof.
  destruct rel as [|s rel]; cbn [walk]; [by intros _ [= ->]|].
  by destruct c.
Qed.

(** The directory callback is called exactly on the directories at or below a
    node, the file callback on everything else. *)
Lemma pre_node_onDir (c : node) (p q : path) :
  wf_node c ->
  EOnDir q ∈ pre_node p c <->
  exists rel sub, q = p ++ rel /\ walk c rel = Ok (Dir sub).
Proof.
  revert p. induction c as [d|lk|es IH] using node_ind'; intros p Hwf.
  - cbn [pre_node]. rewrite list_elem_of_singleton. split; [done|].
    intros (rel & sub & _ & Hw). by apply walk_leaf in Hw as [_ ?].
  - cbn [pre_node]. rewrite list_elem_of_singleton. split; [done|].
    intros (rel & sub & _ & Hw). by apply walk_leaf in Hw as [_ ?].
  - apply wf_node_dir in Hwf as (Hnd & _ & Hkids).
    rewrite Forall_forall in IH. rewrite Forall_forall in Hkids.
    rewrite pre_node_dir, !elem_of_cons, pre_events_elem. split.
    + intros [[= ->]|[?|[?|(s & c & Hin & He)]]]; try done.
      * exists [], es. by rewrite app_nil_r.
      * apply (IH (s, c) Hin) in He as (rel & sub & -> & Hw);
          [|by apply (Hkids (s, c))].
        exists (s :: rel), sub. rewrite <- app_assoc. split; [done|].
        cbn [walk]. by rewrite (entry_elem es s c).
    + intros ([|s rel] & sub & -> & Hw).
      * left. by rewrite app_nil_r.
      * do 3 right. cbn [walk] in Hw.
        destruct (entry s es) as [c|] eqn:He; [|done].
        apply entry_Some_elem in He. exists s, c. split; [done|].
        apply (IH (s, c) He); [by apply (Hkids (s, c))|].
        exists rel, sub. by rewrite <- app_assoc.
Qed.

Lemma pre_node_onFile (c : node) (p q : path) :
  wf_node c ->
  EOnFile q ∈ pre_node p c <->
  exists rel n, q = p ++ rel /\ walk c rel = Ok n /\ isDirectory n = false.
Proof.
  revert p. induction c as [d|lk|es IH] using node_ind'; intros p Hwf.
  - cbn [pre_node]. rewrite list_elem_of_singleton. split.
    + intros [= ->]. exists [], (File d). by rewrite app_nil_r.
    + intros (rel & n & -> & Hw & _). apply walk_leaf in Hw as [-> _]; [|done].
      by rewrite app_nil_r.
  - cbn [pre_node]. rewrite list_elem_of_singleton. split.
    + intros [= ->]. exists [], (Link lk). by rewrite app_nil_r.
    + intros (rel & n & -> & Hw & _). apply walk_leaf in Hw as [-> _]; [|done].
      by rewrite app_nil_r.
  - apply wf_node_dir in Hwf as (Hnd & _ & Hkids).
    rewrite Forall_forall in IH. rewrite Forall_forall in Hkids.
    rewrite pre_node_dir, !elem_of_cons, pre_events_elem. split.
    + intros [?|[?|[?|(s & c & Hin & He)]]]; try done.
      apply (IH (s, c) Hin) in He as (rel & n & -> & Hw & Hn);
        [|by apply (Hkids (s, c))].
      exists (s :: rel), n. rewrite <- app_assoc. split; [done|].
      cbn [walk]. by rewrite (entry_elem es s c).
    + intros ([|s rel] & n & -> & Hw & Hn).
      * cbn in Hw. injection Hw as <-. done.
      * do 3 right. cbn [walk] in Hw.
        destruct (entry s es) as [c|] eqn:He; [|done].
        apply entry_Some_elem in He. exists s, c. split; [done|].
        apply (IH (s, c) He); [by apply (Hkids (s, c))|].
        exists rel, n. by rewrite <- app_assoc.
Qed.



Ltac wf_tree := cbn; repeat split; try (by intros [=]);
  try (apply (bool_decide_eq_true_1 _); vm_compute; reflexivity).


Lemma traverse_bad_root_witness :
  exists e, (e = ENOENT \/ e = ENOTDIR) /\
    preOrderDirectoryTraverse 1 ["proj"; "README"]%string noop noop
      (World project []) = Throw e /\
    postOrderDirectoryTraverse 1 ["proj"; "README"]%string noop noop
      (World project []) = Throw e.
Proof.
  apply (traverse_bad_root 0 ["proj"; "README"]%string noop noop
           (World project [])).
  right. exists "r"%string. reflexivity.
Defined.

(** A missing root. *)
Example traverse_missing_root :
  preOrderDirectoryTraverse 3 ["nowhere"%string] noop noop (World project []) =
    Throw ENOENT /\
  postOrderDirectoryTraverse 3 ["nowhere"%string] noop noop (World project []) =
    Throw ENOENT.
Proof. split; reflexivity. Qed.

(** The loop body on the [cypress] directory of the example project. *)
Example preOrder_entry_skips_cypress :
  preOrder_entry (pre_rec (prune 4) noop 4) ["proj"%string] (prune 4) noop
    "cypress" (World project []) =
    Ok (World
          (Dir [("proj",
                 Dir [("src", Dir [("a.js", File "x");
                                   ("__tests__", Dir [("t.js", File "t")])]);
                      ("lnk", Link "src");
                      ("README", File "r")])]%string)
          (log (World project []) ++
             [EOnDir (path_resolve ["proj"%string] "cypress");
              EExists (path_resolve ["proj"%string] "cypress") false])) /\
  EReaddir (path_resolve ["proj"%string] "cypress") ∉
    [EOnDir (path_resolve ["proj"%string] "cypress");
     EExists (path_resolve ["proj"%string] "cypress") false].
Proof.
  apply (preOrder_entry_skips (pre_rec (prune 4) noop 4) ["proj"%string]
           (prune 4) noop "cypress" (World project [])
           [("e2e", Dir [("x", File "1")])]%string).
  - reflexivity.
  - vm_compute. reflexivity.
  - reflexivity.
Qed.

(** The clean-up pass of [index.js] on the example project: the two pruned
    directories are never listed. *)
Example preOrder_prune :
  preOrderDirectoryTraverse 4 ["proj"%string] (prune 4) noop (World project []) =
  Ok (World
        (Dir [("proj",
               Dir [("src", Dir [("a.js", File "x")]);
                    ("lnk", Link "src");
                    ("README", File "r")])]%string)
        [EReaddir ["proj"]; EOnDir ["proj"; "src"];
         EExists ["proj"; "src"] true; EReaddir ["proj"; "src"];
         EOnFile ["proj"; "src"; "a.js"];
         EOnDir ["proj"; "src"; "__tests__"];
         EExists ["proj"; "src"; "__tests__"] false;
         EOnDir ["proj"; "cypress"]; EExists ["proj"; "cypress"] false;
         EOnFile ["proj"; "lnk"]; EOnFile ["proj"; "README"]]%string).
Proof. vm_compute. reflexivity. Qed.


End TraverseFacts.
(** * Facts about [sortDependencies] *)

Module SortFacts.
Import JS DeepMerge SortDeps DeepMergeFacts.

Lemma sort_insert_perm (k : key) (l : list key) : sort_insert k l ≡ₚ k :: l.
Proof.
  induction l as [|k' l IH]; cbn [sort_insert]; [done|].
  destruct (String.leb _ _); [done|]. rewrite IH. apply Permutation_swap.
Qed.

Lemma sort_perm (l : list key) : sort l ≡ₚ l.
Proof.
  induction l as [|k l IH]; cbn; [done|].
  fold (sort l). by rewrite sort_insert_perm, IH.
Qed.

Lemma sort_insert_ascending (k : key) (l : list key) :
  ascending (key_to_string <$> l) ->
  ascending (key_to_string <$> sort_insert k l).
Proof.
  induction l as [|k' l IH]; cbn [sort_insert]; [done|]. intros Hl.
  destruct (String.leb (key_to_string k) (key_to_string k')) eqn:Hle.
  - csimpl. done.
  - assert (String.leb (key_to_string k') (key_to_string k) = true) as Hge.
    { destruct (String.leb_total (key_to_string k) (key_to_string k'));
        congruence. }
    destruct l as [|k'' l].
    + csimpl. done.
    + csimpl in Hl. destruct Hl as [Hk' Hl]. specialize (IH Hl).
      cbn [sort_insert] in IH |- *.
      destruct (String.leb (key_to_string k) (key_to_string k'')); csimpl;
        csimpl in IH; tauto.
Qed.

(** [sort] returns its argument in ascending order. *)
Lemma sort_ascending (l : list key) : ascending (key_to_string <$> sort l).
Proof.
  induction l as [|k l IH]; cbn; [done|]. fold (sort l).
  by apply sort_insert_ascending.
Qed.

Lemma add_prop_name (s : string) (v : val) (ps : props) :
  add_prop (KName s) v ps = ps ++ [(KName s, v)].
Proof.
  induction ps as [|[k' v'] ps IH]; cbn [add_prop]; [done|].
  cbn [app]. by rewrite IH.
Qed.

Lemma build_snoc (dps : props) (L : list key) (k : key) :
  build dps (L ++ [k]) = add_prop k (default VUndef (own dps k)) (build dps L).
Proof. unfold build. by rewrite foldl_app. Qed.

Lemma build_keys (dps : props) (L : list key) : (build dps L).*1 ≡ₚ L.
Proof.
  induction L as [|k L IH] using rev_ind; [done|].
  rewrite build_snoc, fst_add_prop, IH. apply Permutation_cons_append.
Qed.

Lemma build_own (dps : props) (L : list key) (k : key) :
  NoDup L -> k ∈ L -> own (build dps L) k = Some (default VUndef (own dps k)).
Proof.
  induction L as [|k' L IH] using rev_ind; [by intros _ ?%elem_of_nil|].
  rewrite NoDup_app, elem_of_app, list_elem_of_singleton.
  intros (HL & Hdisj & _) Hk. rewrite build_snoc.
  destruct (decide (k = k')) as [->|Hne].
  - apply own_add_eq. apply own_None. rewrite build_keys.
    intros Hin. apply (Hdisj _ Hin). by apply list_elem_of_singleton.
  - rewrite own_add_ne by done. apply IH; [done|]. by destruct Hk.
Qed.

(** When every key is a name, the built object lists them in the order they
    were inserted. *)
Lemma build_names (dps : props) (L : list key) :
  Forall (fun k => is_name k = true) L -> (build dps L).*1 = L.
Proof.
  induction L as [|k L IH] using rev_ind; [done|].
  rewrite Forall_app, Forall_singleton. intros [HL Hk].
  rewrite build_snoc. destruct k as [i|s]; [done|].
  rewrite add_prop_name, fmap_app, IH by done. done.
Qed.

(** In general the names keep their insertion order. *)
Lemma add_prop_names (k : key) (v : val) (ps : props) :
  filter (fun k => is_name k = true) (add_prop k v ps).*1 =
  filter (fun k => is_name k = true) (ps.*1 ++ [k]).
Proof.
  destruct k as [i|s]; [|by rewrite add_prop_name, fmap_app].
  rewrite filter_app. rewrite (filter_cons_False _ (KIdx i)) by done.
  rewrite filter_nil, app_nil_r.
  induction ps as [|[k' v'] ps IH]; [done|]. cbn [add_prop].
  destruct k' as [i'|s'].
  - destruct (i <? i')%nat; csimpl.
    + by rewrite filter_cons_False by done.
    + rewrite !(filter_cons_False _ (KIdx i')) by done. apply IH.
  - csimpl. by rewrite filter_cons_False by done.
Qed.

Lemma build_names_order (dps : props) (L : list key) :
  filter (fun k => is_name k = true) (build dps L).*1 =
  filter (fun k => is_name k = true) L.
Proof.
  induction L as [|k L IH] using rev_ind; [done|].
  rewrite build_snoc, add_prop_names, !filter_app, IH. done.
Qed.

Lemma get_obj (g : heap) (l : loc) (ps : props) (k : key) (v : val) :
  g !! l = Some (OObj ps) -> own ps k = Some v -> get g (VRef l) k = Ok v.
Proof. intros Hl Hk. unfold get. rewrite Hl. cbn [obj_get]. by rewrite Hk. Qed.

Lemma own_elem_Some (ps : props) (k : key) :
  k ∈ ps.*1 -> exists v, own ps k = Some v.
Proof.
  intros Hk. destruct (own ps k) as [v|] eqn:E; [eauto|].
  by apply own_None in E.
Qed.

(** The inner loop fills the fresh object with the sorted keys. *)
Lemma inner_loop (p ls dl o : loc) (ps sps dps : props) (t : string)
    (L2 : list key) : forall (L1 : list key) (g : heap),
  g !! p = Some (OObj ps) -> own ps (KName t) = Some (VRef dl) ->
  g !! dl = Some (OObj dps) ->
  g !! ls = Some (OObj sps) -> own sps (KName t) = Some (VRef o) ->
  g !! o = Some (OObj (build dps L1)) ->
  o <> p -> o <> dl -> o <> ls ->
  NoDup (L1 ++ L2) -> (forall k, k ∈ L2 -> k ∈ dps.*1) -> proto_key ∉ L2 ->
  forEach (copy_dep (VRef p) (VRef ls) t) L2 g =
    Ok (<[o := OObj (build dps (L1 ++ L2))]> g).
Proof.
  induction L2 as [|name L2 IH];
    intros L1 g Hp Hd Hdl Hls Hs Ho Hop Hodl Hols Hnd Hin Hproto.
  { cbn [forEach]. by rewrite app_nil_r, list_insert_id. }
  cbn [forEach]. unfold copy_dep at 1.
  rewrite (get_obj g ls sps _ _ Hls Hs). cbn [rbind].
  rewrite (get_obj g p ps _ _ Hp Hd). cbn [rbind].
  destruct (own_elem_Some dps name) as [v Hv].
  { apply Hin. apply elem_of_cons. by left. }
  rewrite (get_obj g dl dps _ _ Hdl Hv). cbn [rbind].
  apply NoDup_app in Hnd as (HL1 & Hdisj & HL2).
  apply NoDup_cons in HL2 as [Hname HL2].
  apply not_elem_of_cons in Hproto as [Hpn Hproto].
  assert (own (build dps L1) name = None) as Hnone.
  { apply own_None. rewrite build_keys. intros Hin1.
    apply (Hdisj _ Hin1). apply elem_of_cons. by left. }
  unfold JS.set. rewrite Ho. cbn [obj_set]. rewrite Hnone.
  rewrite decide_False by done. cbn [rbind].
  assert (add_prop name v (build dps L1) = build dps (L1 ++ [name])) as ->.
  { by rewrite build_snoc, Hv. }
  assert (o < length g)%nat as Holt by by eapply lookup_lt_Some.
  rewrite (IH (L1 ++ [name])).
  - rewrite list_insert_insert_eq. by rewrite <- app_assoc.
  - by rewrite list_lookup_insert_ne.
  - done.
  - by rewrite list_lookup_insert_ne.
  - by rewrite list_lookup_insert_ne.
  - done.
  - by apply list_lookup_insert_eq.
  - done.
  - done.
  - done.
  - rewrite <- app_assoc. cbn [app]. apply NoDup_app. split; [done|].
    split; [done|]. by constructor.
  - intros k Hk. apply Hin. apply elem_of_cons. by right.
  - done.
Qed.

Lemma heap_shape (h os : list obj) (S0 S1 X Y : obj) :
  <[(length h + 1 + length os)%nat := X]>
    (<[length h := S1]> ((h ++ S0 :: os) ++ [Y])) =
  h ++ S1 :: (os ++ [X]).
Proof.
  rewrite <- app_assoc. cbn [app].
  rewrite (insert_app_r_alt h) by lia. rewrite Nat.sub_diag. cbn [insert list_insert].
  rewrite (insert_app_r_alt h) by lia.
  replace (length h + 1 + length os - length h)%nat with (S (length os)) by lia.
  cbn [insert list_insert]. do 2 f_equal.
  rewrite (insert_app_r_alt os) by lia. by rewrite Nat.sub_diag.
Qed.

Lemma own_snoc (ps : props) (k : key) (v : val) :
  k ∉ ps.*1 -> own (ps ++ [(k, v)]) k = Some v.
Proof.
  induction ps as [|[k' v'] ps IH]; cbn [app own]; intros Hk.
  - by rewrite decide_True.
  - csimpl in Hk. apply not_elem_of_cons in Hk as [Hne Hk].
    rewrite decide_False by done. by apply IH.
Qed.

Lemma own_app_l (ps qs : props) (k : key) :
  k ∈ ps.*1 -> own (ps ++ qs) k = own ps k.
Proof.
  induction ps as [|[k' v'] ps IH]; [by intros ?%elem_of_nil|].
  csimpl. cbn [own]. rewrite elem_of_cons.
  destruct (decide (k' = k)); [done|]. intros [?|?]; [congruence | auto].
Qed.

Lemma own_app_r (ps qs : props) (k : key) :
  k ∉ ps.*1 -> own (ps ++ qs) k = own qs k.
Proof.
  induction ps as [|[k' v'] ps IH]; [done|].
  csimpl. cbn [own]. rewrite not_elem_of_cons. intros [Hne Hk].
  rewrite decide_False by done. auto.
Qed.

Lemma truthy_ref (l : loc) : truthy (VRef l) = true.
Proof. done. Qed.

(** One field that holds a mapping: a fresh sorted copy is stored in
    [sorted]. *)
Lemma sort_depType_mapping (h : heap) (p dl : loc) (ps sps dps : props)
    (os : list obj) (t : string) :
  h !! p = Some (OObj ps) -> own ps (KName t) = Some (VRef dl) ->
  h !! dl = Some (OObj dps) ->
  NoDup dps.*1 -> proto_key ∉ dps.*1 ->
  KName t ∉ sps.*1 -> KName t <> proto_key ->
  sort_depType (VRef p) (VRef (length h)) t (h ++ OObj sps :: os) =
    Ok (h ++ OObj (sps ++ [(KName t, VRef (length h + 1 + length os))%nat])
          :: (os ++ [OObj (build dps (sort dps.*1))])).
Proof.
  intros Hp Hd Hdl Hnd Hproto Hfresh Hnp.
  assert (p < length h)%nat as Hplt by by eapply lookup_lt_Some.
  assert (dl < length h)%nat as Hdlt by by eapply lookup_lt_Some.
  set (g := h ++ OObj sps :: os).
  assert (length g = length h + 1 + length os)%nat as Hg.
  { unfold g. rewrite length_app. cbn. lia. }
  assert (g !! p = Some (OObj ps)) as Hgp by (unfold g; by rewrite lookup_app_l).
  assert (g !! length h = Some (OObj sps)) as Hgs.
  { unfold g. rewrite lookup_app_r by lia. by rewrite Nat.sub_diag. }
  unfold sort_depType. rewrite (get_obj g p ps _ _ Hgp Hd). cbn [rbind].
  rewrite truthy_ref. unfold alloc.
  unfold JS.set at 1. rewrite lookup_app_l by lia. rewrite Hgs.
  cbn [obj_set]. rewrite (proj2 (own_None sps (KName t)) Hfresh).
  rewrite decide_False by done. cbn [rbind]. rewrite add_prop_name.
  set (sps' := sps ++ [(KName t, VRef (length g))]).
  set (g1 := <[length h := OObj sps']> (g ++ [OObj []])).
  assert (g1 !! p = Some (OObj ps)) as Hg1p.
  { unfold g1. rewrite list_lookup_insert_ne by lia. by rewrite lookup_app_l by lia. }
  assert (g1 !! dl = Some (OObj dps)) as Hg1d.
  { unfold g1. rewrite list_lookup_insert_ne by lia.
    rewrite lookup_app_l by lia. unfold g. by rewrite lookup_app_l. }
  rewrite (get_obj g1 p ps _ _ Hg1p Hd). cbn [rbind].
  unfold keys. rewrite Hg1d. cbn [rbind obj_keys].
  rewrite (inner_loop p (length h) dl (length g) ps sps' dps t (sort dps.*1) [] g1).
  - cbn [app]. unfold g1, sps'. rewrite Hg. unfold g. by rewrite heap_shape.
  - done.
  - done.
  - done.
  - unfold g1. apply list_lookup_insert_eq. rewrite length_app. lia.
  - unfold sps'. by apply own_snoc.
  - unfold g1. rewrite list_lookup_insert_ne by lia.
    rewrite lookup_app_r by lia. by rewrite Nat.sub_diag.
  - lia.
  - lia.
  - lia.
  - cbn [app]. rewrite sort_perm. done.
  - intros k Hk. by rewrite sort_perm in Hk.
  - by rewrite sort_perm.
Qed.

(** A field that is absent or falsy is skipped. *)
Lemma sort_depType_skip (g : heap) (p ls : loc) (ps : props) (t : string) :
  g !! p = Some (OObj ps) -> KName t <> proto_key ->
  match own ps (KName t) with
  | Some v => truthy v = false
  | None => True
  end ->
  sort_depType (VRef p) (VRef ls) t g = Ok g.
Proof.
  intros Hp Hnp Hv. unfold sort_depType, get. rewrite Hp. cbn [obj_get].
  destruct (own ps (KName t)) as [v|]; cbn [rbind].
  - by rewrite Hv.
  - rewrite decide_False by done. done.
Qed.

Lemma depTypes_not_proto (t : string) : t ∈ depTypes -> KName t <> proto_key.
Proof.
  unfold depTypes. rewrite !elem_of_cons, elem_of_nil.
  intros [->|[->|[->|[->|[]]]]]; done.
Qed.

(** The loop over the field names. *)
Lemma types_loop (h : heap) (p : loc) (ps : props) (types : list string) :
  h !! p = Some (OObj ps) -> NoDup types ->
  forall sps0 os0,
    (forall t, t ∈ types ->
       (KName t ∉ sps0.*1) /\ KName t <> proto_key /\ field_ok h ps t) ->
    forEach (sort_depType (VRef p) (VRef (length h))) types
      (h ++ OObj sps0 :: os0) =
    Ok (h ++ OObj (sps0 ++ (plan h ps (length h + 1 + length os0) types).1)
          :: (os0 ++ (plan h ps (length h + 1 + length os0) types).2)).
Proof.
  intros Hp. induction types as [|t ts IH]; intros Hnd sps0 os0 Hok.
  { cbn. by rewrite !app_nil_r. }
  apply NoDup_cons in Hnd as [Ht Hnd].
  destruct (Hok t) as (Hfresh & Hnp & Hfield); [apply elem_of_cons; by left|].
  assert (forall sps1 : props,
    (forall k, k ∈ sps1.*1 -> k = KName t \/ k ∈ sps0.*1) ->
    forall t', t' ∈ ts ->
      (KName t' ∉ sps1.*1) /\ KName t' <> proto_key /\ field_ok h ps t') as Hrest.
  { intros sps1 Hsub t' Ht'.
    destruct (Hok t') as (Hf' & Hn' & Hfo'); [apply elem_of_cons; by right|].
    split; [|done]. intros Hin. apply Hsub in Hin.
    destruct Hin as [[= ->]|Hin]; done. }
  cbn [forEach plan]. unfold field_ok in Hfield.
  destruct (own ps (KName t)) as [v|] eqn:Hv.
  - destruct Hfield as [Hfalse|(dl & dps & -> & Hdl & Hnd' & Hproto)].
    + rewrite (sort_depType_skip _ p _ ps t); [| |done|by rewrite Hv].
      2:{ rewrite lookup_app_l; [done | by eapply lookup_lt_Some]. }
      cbn [rbind].
      assert (plan h ps (length h + 1 + length os0) ts =
              match v with
              | VRef dl =>
                  match h !! dl with
                  | Some (OObj dps) =>
                      let '(sps, os) := plan h ps (S (length h + 1 + length os0)) ts in
                      ((KName t, VRef (length h + 1 + length os0)%nat) :: sps,
                       OObj (build dps (sort dps.*1)) :: os)
                  | _ => plan h ps (length h + 1 + length os0) ts
                  end
              | _ => plan h ps (length h + 1 + length os0) ts
              end) as <- by by destruct v.
      apply IH; [done|]. apply (Hrest sps0). tauto.
    + rewrite Hdl.
      rewrite (sort_depType_mapping h p dl ps sps0 dps os0 t); try done.
      cbn [rbind]. rewrite IH; [|done|].
      * rewrite length_app. cbn [length].
        replace (length h + 1 + (length os0 + 1))%nat
          with (S (length h + 1 + length os0)) by lia.
        destruct (plan h ps (S (length h + 1 + length os0)) ts) as [sps os].
        cbn [fst snd]. by rewrite <- !app_assoc.
      * apply Hrest. intros k. rewrite fmap_app. csimpl.
        rewrite elem_of_app, list_elem_of_singleton. tauto.
  - rewrite (sort_depType_skip _ p _ ps t); [| |done|by rewrite Hv].
    2:{ rewrite lookup_app_l; [done | by eapply lookup_lt_Some]. }
    cbn [rbind]. apply IH; [done|]. apply (Hrest sps0). tauto.
Qed.

(** What [plan] records about each field. *)
Lemma plan_spec (h : heap) (ps : props) (types : list string) :
  NoDup types -> forall n,
  let sps := (plan h ps n types).1 in
  let os := (plan h ps n types).2 in
  NoDup sps.*1 /\
  (forall k, k ∈ sps.*1 -> k ∈ ps.*1 /\ exists t, t ∈ types /\ k = KName t) /\
  (forall t dl dps, t ∈ types -> own ps (KName t) = Some (VRef dl) ->
     h !! dl = Some (OObj dps) ->
     exists i, own sps (KName t) = Some (VRef (n + i)%nat) /\
               os !! i = Some (OObj (build dps (sort dps.*1)))) /\
  (forall t, (forall dl dps, own ps (KName t) = Some (VRef dl) ->
                h !! dl = Some (OObj dps) -> False) ->
     own sps (KName t) = None).
Proof.
  induction types as [|t ts IH]; intros Hnd n.
  { cbn. split; [constructor|]. split; [by intros k ?%elem_of_nil|].
    split; [by intros t dl dps ?%elem_of_nil | done]. }
  apply NoDup_cons in Hnd as [Ht Hnd]. cbn [plan].
  assert (forall m,
    let sps := (plan h ps m ts).1 in
    (forall k, k ∈ sps.*1 -> k ∈ ps.*1 /\ exists t', t' ∈ t :: ts /\ k = KName t') /\
    (forall t' dl dps, t' ∈ ts -> own ps (KName t') = Some (VRef dl) ->
       h !! dl = Some (OObj dps) ->
       exists i, own sps (KName t') = Some (VRef (m + i)%nat) /\
                 (plan h ps m ts).2 !! i = Some (OObj (build dps (sort dps.*1)))) /\
    own sps (KName t) = None) as Htail.
  { intros m. destruct (IH Hnd m) as (Hn1 & Hk1 & Hm1 & Hno1). cbv zeta.
    split; [|split; [done|]].
    - intros k Hk. destruct (Hk1 k Hk) as (? & t' & ? & ->).
      split; [done|]. exists t'. split; [|done]. apply elem_of_cons. by right.
    - apply own_None. intros Hin. destruct (Hk1 _ Hin) as (_ & t' & Ht' & [= ->]).
      done. }
  destruct (own ps (KName t)) as [v|] eqn:Hv.
  2:{ destruct (IH Hnd n) as (Hn1 & Hk1 & Hm1 & Hno1).
      destruct (Htail n) as (Hk2 & Hm2 & Hno2). cbv zeta.
      split; [done|]. split; [done|]. split; [|done].
      intros t' dl dps [->|Ht']%elem_of_cons Ho Hdl; [congruence | eauto]. }
  destruct v as [| | | | |dl];
    try (destruct (IH Hnd n) as (Hn1 & Hk1 & Hm1 & Hno1);
         destruct (Htail n) as (Hk2 & Hm2 & Hno2); cbv zeta;
         split; [done|]; split; [done|]; split; [|done];
         intros t' dl dps [->|Ht']%elem_of_cons Ho Hdl; [congruence | eauto]).
  destruct (h !! dl) as [[dps|es dps]|] eqn:Hdl;
    try (destruct (IH Hnd n) as (Hn1 & Hk1 & Hm1 & Hno1);
         destruct (Htail n) as (Hk2 & Hm2 & Hno2); cbv zeta;
         split; [done|]; split; [done|]; split; [|done];
         intros t' dl' dps' [->|Ht']%elem_of_cons Ho Hdl';
           [congruence | eauto]).
  destruct (IH Hnd (S n)) as (Hn1 & Hk1 & Hm1 & Hno1).
  destruct (Htail (S n)) as (Hk2 & Hm2 & Hno2). cbv zeta in *.
  destruct (plan h ps (S n) ts) as [sps os]. cbn [fst snd] in *.
  split; [|split; [|split]].
  - csimpl. constructor; [|done]. by apply own_None.
  - intros k. csimpl. rewrite elem_of_cons. intros [->|Hk]; [|by apply Hk2].
    split.
    + apply list_elem_of_fmap. exists (KName t, VRef dl). split; [done|].
      by apply own_Some_elem.
    + exists t. split; [apply elem_of_cons; by left | done].
  - intros t' dl' dps' [->|Ht']%elem_of_cons Ho Hdl'.
    + exists 0%nat. cbn [own lookup list_lookup]. rewrite decide_True by done.
      rewrite Nat.add_0_r. split; [done|]. congruence.
    + destruct (Hm2 t' dl' dps' Ht' Ho Hdl') as (i & Hi1 & Hi2).
      exists (S i). cbn [own]. rewrite decide_False by (intros [= ->]; done).
      split; [|done]. rewrite Hi1. do 2 f_equal. lia.
  - intros t' Hnone. cbn [own]. destruct (decide (KName t = KName t')) as [[= <-]|Hne].
    + destruct (Hnone dl dps); done.
    + by apply Hno1.
Qed.

Lemma key_ordered_app_l (ks ks' : list key) :
  key_ordered (ks ++ ks') -> key_ordered ks.
Proof.
  induction ks as [|k ks IH]; [done|]. cbn [app key_ordered].
  rewrite Forall_app. intros [[? _] ?]. auto.
Qed.

Lemma add_prop_snoc (k : key) (v : val) (ps : props) :
  Forall (fun k' => key_le k' k) ps.*1 -> add_prop k v ps = ps ++ [(k, v)].
Proof.
  induction ps as [|[k' v'] ps IH]; [done|]. csimpl.
  rewrite Forall_cons. intros [Hle Hall]. cbn [add_prop].
  destruct k as [i|s], k' as [i'|s']; cbn [key_le] in Hle; try done.
  - destruct (i <? i')%nat eqn:E; [apply Nat.ltb_lt in E; lia|].
    by rewrite IH.
  - by rewrite IH.
  - by rewrite IH.
Qed.

Lemma key_ordered_snoc (ks : list key) (k : key) :
  key_ordered (ks ++ [k]) -> Forall (fun k' => key_le k' k) ks.
Proof.
  induction ks as [|k' ks IH]; [constructor|]. cbn [app key_ordered].
  rewrite Forall_app, Forall_singleton. intros [[_ Hle] Hord].
  constructor; auto.
Qed.

(** [{...packageJson}]: a copy with the same properties in the same order. *)
Lemma spread_pkg (g : heap) (p : loc) (ps : props) :
  g !! p = Some (OObj ps) -> NoDup ps.*1 -> key_ordered ps.*1 ->
  spread_into (length g) (VRef p) (g ++ [OObj []]) = Ok (g ++ [OObj ps]).
Proof.
  intros Hp Hnd Hord.
  assert (p < length g)%nat as Hplt by by eapply lookup_lt_Some.
  unfold spread_into, keys. rewrite lookup_app_l, Hp by done.
  cbn [rbind obj_keys].
  assert (forall rest acc, acc ++ rest = ps ->
    forEach (fun k h => let* v := get h (VRef p) k in define h (length g) k v)
      rest.*1 (g ++ [OObj acc]) = Ok (g ++ [OObj ps])) as Hloop.
  { induction rest as [|[k v] rest IH]; intros acc Hacc.
    { rewrite app_nil_r in Hacc. by subst. }
    csimpl. subst ps.
    assert (k ∉ acc.*1) as Hk.
    { rewrite fmap_app in Hnd. apply NoDup_app in Hnd as (_ & Hdisj & _).
      intros Hin. apply (Hdisj k Hin). csimpl. apply elem_of_cons. by left. }
    cbn [forEach]. rewrite lookup_app_l, Hp by done. cbn [obj_get].
    rewrite own_app_r by done. cbn [own]. rewrite decide_True by done.
    cbn [rbind]. unfold define. rewrite lookup_app_r by lia.
    rewrite Nat.sub_diag. cbn [lookup list_lookup].
    unfold insert_prop. rewrite (proj2 (own_None acc k) Hk).
    rewrite add_prop_snoc.
    - rewrite insert_app_r_alt by lia. rewrite Nat.sub_diag.
      cbn [insert list_insert]. apply IH. by rewrite <- app_assoc.
    - apply key_ordered_snoc. rewrite fmap_app in Hord. csimpl in Hord.
      rewrite cons_middle, app_assoc in Hord. by apply key_ordered_app_l in Hord. }
  by apply (Hloop ps []).
Qed.

Lemma overlay_keys (ps sps : props) : (overlay ps sps).*1 = ps.*1.
Proof.
  unfold overlay. revert ps. induction sps as [|[k v] sps IH]; intros ps; [done|].
  cbn [foldl]. by rewrite IH, fst_replace_prop.
Qed.

Lemma overlay_own (ps sps : props) (k : key) :
  NoDup sps.*1 -> (forall k', k' ∈ sps.*1 -> k' ∈ ps.*1) ->
  own (overlay ps sps) k =
    match own sps k with Some v => Some v | None => own ps k end.
Proof.
  unfold overlay. revert ps. induction sps as [|[k' v'] sps IH]; intros ps; [done|].
  csimpl. rewrite NoDup_cons. intros [Hk' Hnd] Hsub. cbn [foldl own fst snd].
  rewrite IH; [|done|].
  - destruct (decide (k' = k)) as [->|Hne].
    + rewrite (proj2 (own_None sps k) Hk'). apply own_replace_eq.
      destruct (own_elem_Some ps k) as [v Hv]; [|by rewrite Hv].
      apply Hsub. apply elem_of_cons. by left.
    + destruct (own sps k); [done|]. by apply own_replace_ne.
  - intros k'' Hk''. rewrite fst_replace_prop. apply Hsub.
    apply elem_of_cons. by right.
Qed.

(** [{...sorted}] over the copy: the fields of [sorted] replace those of the
    copy in place. *)
Lemma spread_sorted (g : heap) (ls r : loc) (ps sps : props) :
  g !! ls = Some (OObj sps) -> g !! r = Some (OObj ps) -> r <> ls ->
  NoDup sps.*1 -> (forall k, k ∈ sps.*1 -> k ∈ ps.*1) ->
  spread_into r (VRef ls) g = Ok (<[r := OObj (overlay ps sps)]> g).
Proof.
  intros Hls Hr Hne Hnd Hsub. unfold spread_into, keys. rewrite Hls.
  cbn [rbind obj_keys].
  assert (forall rest acc cur g', acc ++ rest = sps ->
    g' !! ls = Some (OObj sps) -> g' !! r = Some (OObj cur) ->
    cur.*1 = ps.*1 ->
    forEach (fun k h => let* v := get h (VRef ls) k in define h r k v)
      rest.*1 g' = Ok (<[r := OObj (overlay cur rest)]> g')) as Hloop.
  { induction rest as [|[k v] rest IH]; intros acc cur g' Hacc Hls' Hr' Hcur.
    { cbn. by rewrite list_insert_id. }
    csimpl. subst sps.
    assert (k ∉ acc.*1) as Hk.
    { rewrite fmap_app in Hnd. apply NoDup_app in Hnd as (_ & Hdisj & _).
      intros Hin. apply (Hdisj k Hin). csimpl. apply elem_of_cons. by left. }
    cbn [forEach]. rewrite Hls'. cbn [obj_get].
    rewrite own_app_r by done. cbn [own]. rewrite decide_True by done.
    cbn [rbind]. unfold define. rewrite Hr'. unfold insert_prop.
    destruct (own_elem_Some cur k) as [v0 Hv0].
    { rewrite Hcur. apply Hsub. rewrite fmap_app. csimpl.
      apply elem_of_app. right. apply elem_of_cons. by left. }
    rewrite Hv0.
    assert (r < length g')%nat as Hrlt by by eapply lookup_lt_Some.
    cbn [rbind]. etrans.
    { apply (IH (acc ++ [(k, v)]) (replace_prop k v cur)).
      - by rewrite <- app_assoc.
      - by rewrite list_lookup_insert_ne.
      - by apply list_lookup_insert_eq.
      - by rewrite fst_replace_prop. }
    cbn [overlay foldl fst snd]. by rewrite list_insert_insert_eq. }
  by apply (Hloop sps [] ps g).
Qed.

(** [sortDependencies] on a manifest whose four fields are absent, falsy or
    mappings. *)
Lemma sortDependencies_spec (h : heap) (p : loc) (ps : props) :
  h !! p = Some (OObj ps) -> NoDup ps.*1 -> key_ordered ps.*1 ->
  (forall t, t ∈ depTypes -> field_ok h ps t) ->
  let sps := (plan h ps (S (length h)) depTypes).1 in
  let os := (plan h ps (S (length h)) depTypes).2 in
  sortDependencies (VRef p) h =
    Ok (VRef (S (length h + length os)),
        h ++ OObj sps :: os ++ [OObj (overlay ps sps)]).
Proof.
  intros Hp Hnd Hord Hfields sps os.
  assert (NoDup depTypes) as Hndt.
  { unfold depTypes. apply (bool_decide_eq_true_1 _). vm_compute. reflexivity. }
  assert (p < length h)%nat as Hplt by by eapply lookup_lt_Some.
  unfold sortDependencies, alloc.
  change (h ++ [OObj []]) with (h ++ OObj [] :: []).
  rewrite (types_loop h p ps depTypes Hp Hndt [] []).
  2:{ intros t Ht. split; [apply not_elem_of_nil|].
      split; [by apply depTypes_not_proto | by apply Hfields]. }
  cbn [rbind app length]. rewrite Nat.add_0_r.
  replace (length h + 1)%nat with (S (length h)) by lia. fold sps os.
  destruct (plan_spec h ps depTypes Hndt (S (length h)))
    as (Hnds & Hks & _ & _). fold sps in Hnds, Hks.
  set (g := h ++ OObj sps :: os).
  assert (length g = S (length h + length os)) as Hg.
  { unfold g. rewrite length_app. cbn. lia. }
  rewrite (spread_pkg g p ps); [| |done..].
  2:{ unfold g. by rewrite lookup_app_l. }
  cbn [rbind].
  rewrite (spread_sorted (g ++ [OObj ps]) (length h) (length g) ps sps).
  - cbn [rbind]. rewrite insert_app_r_alt by lia. rewrite Nat.sub_diag.
    cbn [insert list_insert]. rewrite Hg. unfold g.
    by rewrite <- app_assoc.
  - rewrite lookup_app_l by lia. unfold g. rewrite lookup_app_r by lia.
    by rewrite Nat.sub_diag.
  - rewrite lookup_app_r by lia. by rewrite Nat.sub_diag.
  - lia.
  - done.
  - intros k Hk. by apply Hks.
Qed.

Lemma add_prop_perm (k : key) (v : val) (ps : props) :
  (add_prop k v ps).*1 ≡ₚ k :: ps.*1.
Proof.
  induction ps as [|[k' v'] ps IH]; [done|].
  cbn [add_prop]. destruct k as [i|s], k' as [i'|s']; csimpl; try done.
  - destruct (i <? i')%nat; csimpl; [done|]. rewrite IH. apply Permutation_swap.
  - rewrite IH. apply Permutation_swap.
  - rewrite IH. apply Permutation_swap.
Qed.

Lemma key_le_idx (i i' : nat) (k : key) :
  (i < i')%nat -> key_le (KIdx i') k -> key_le (KIdx i) k.
Proof. destruct k; cbn; lia. Qed.

Lemma key_le_name_idx (s : string) (i : nat) (k : key) :
  key_le (KName s) k -> key_le (KIdx i) k.
Proof. destruct k; cbn; tauto. Qed.

Lemma key_ordered_add_prop (k : key) (v : val) (ps : props) :
  key_ordered ps.*1 -> k ∉ ps.*1 -> key_ordered (add_prop k v ps).*1.
Proof.
  induction ps as [|[k' v'] ps IH]; [by cbn|].
  csimpl. intros [Hall Hord] Hk.
  apply not_elem_of_cons in Hk as [Hne Hk].
  destruct k as [i|s], k' as [i'|s']; csimpl.
  - destruct (i <? i')%nat eqn:Hlt; csimpl.
    + apply Nat.ltb_lt in Hlt. repeat split; [|done|done].
      constructor; [done|].
      eapply Forall_impl; [exact Hall|]. intros x. by apply key_le_idx.
    + apply Nat.ltb_ge in Hlt. split; [|by apply IH].
      rewrite add_prop_perm. constructor; [|done].
      cbn. assert (i <> i') by congruence. lia.
  - repeat split; [|done|done]. constructor; [done|].
    eapply Forall_impl; [exact Hall|]. intros x. by apply key_le_name_idx.
  - split; [|by apply IH]. rewrite add_prop_perm. by constructor.
  - split; [|by apply IH]. rewrite add_prop_perm. by constructor.
Qed.

Lemma build_ordered (dps : props) (L : list key) :
  NoDup L -> key_ordered (build dps L).*1.
Proof.
  induction L as [|k L IH] using rev_ind; [by cbn|].
  intros Hnd. apply NoDup_app in Hnd as (Hnd & Hk & _).
  rewrite build_snoc. apply key_ordered_add_prop; [by apply IH|].
  rewrite build_keys. intros Hin. apply (Hk k Hin). by left.
Qed.

Lemma string_leb_trans (s1 : string) :
  forall s2 s3, String.leb s1 s2 = true -> String.leb s2 s3 = true ->
  String.leb s1 s3 = true.
Proof.
  unfold String.leb.
  induction s1 as [|c1 s1 IH]; intros [|c2 s2] [|c3 s3]; cbn; try done.
  unfold Ascii.compare.
  destruct (N.compare_spec (N_of_ascii c1) (N_of_ascii c2)) as [E12|L12|G12];
    destruct (N.compare_spec (N_of_ascii c2) (N_of_ascii c3)) as [E23|L23|G23];
    destruct (N.compare_spec (N_of_ascii c1) (N_of_ascii c3)) as [E13|L13|G13];
    try done; try lia.
  apply IH.
Qed.

Lemma ascending_head (a : string) (l : list string) :
  ascending (a :: l) -> Forall (fun b => String.leb a b = true) l.
Proof.
  revert a. induction l as [|b l IH]; intros a Hasc; [constructor|].
  destruct Hasc as [Hab Hasc]. constructor; [done|].
  eapply Forall_impl; [apply (IH b Hasc)|]. cbn. intros c Hbc.
  by apply (string_leb_trans a b c).
Qed.

Lemma ascending_tail (a : string) (l : list string) :
  ascending (a :: l) -> ascending l.
Proof. destruct l as [|b l]; [done|]. by intros [_ H]. Qed.

Lemma ascending_cons (a : string) (l : list string) :
  Forall (fun b => String.leb a b = true) l -> ascending l -> ascending (a :: l).
Proof.
  destruct l as [|b l]; [done|]. intros Hall Hasc.
  apply Forall_cons in Hall as [Hab _]. by split.
Qed.

(** Leaving keys out of an ascending list keeps it ascending. *)
Lemma ascending_filter (P : key -> Prop) `{!forall k, Decision (P k)}
    (l : list key) :
  ascending (key_to_string <$> l) -> ascending (key_to_string <$> filter P l).
Proof.
  induction l as [|k l IH]; [done|]. csimpl. intros Hasc.
  pose proof (ascending_head _ _ Hasc) as Hhead.
  pose proof (IH (ascending_tail _ _ Hasc)) as Hrest.
  rewrite filter_cons. destruct (decide (P k)); [|done]. csimpl.
  apply ascending_cons; [|done].
  apply Forall_fmap. apply Forall_fmap in Hhead.
  apply Forall_forall. intros k' Hk'. apply list_elem_of_filter in Hk' as [_ Hk'].
  rewrite Forall_forall in Hhead. by apply Hhead.
Qed.

(** The object written for a dependency field: the same keys and values as the
    field, the names in the order [sort] gives them, array indices in front. *)
Lemma sorted_field (dps : props) :
  NoDup dps.*1 ->
  let sd := build dps (sort dps.*1) in
  sd.*1 ≡ₚ dps.*1 /\
  (forall k, k ∈ dps.*1 -> own sd k = own dps k) /\
  key_ordered sd.*1 /\
  filter (fun k => is_name k = true) sd.*1 =
    filter (fun k => is_name k = true) (sort dps.*1) /\
  ascending (key_to_string <$> filter (fun k => is_name k = true) sd.*1) /\
  (Forall (fun k => is_name k = true) dps.*1 ->
   sd.*1 = sort dps.*1 /\ ascending (key_to_string <$> sd.*1)).
Proof.
  intros Hnd sd. unfold sd.
  assert (Hnd' : NoDup (sort dps.*1)) by by rewrite sort_perm.
  split; [by rewrite build_keys, sort_perm|].
  split.
  { intros k Hk. rewrite build_own; [|done|by rewrite sort_perm].
    by destruct (own_elem_Some dps k Hk) as [v ->]. }
  split; [by apply build_ordered|].
  split; [apply build_names_order|].
  split.
  { rewrite build_names_order. apply ascending_filter, sort_ascending. }
  intros Hnames.
  assert (Heq : (build dps (sort dps.*1)).*1 = sort dps.*1).
  { apply build_names. by rewrite sort_perm. }
  split; [done|]. rewrite Heq. apply sort_ascending.
Qed.

(** What [sortDependencies] returns for a manifest [ps] at [p]: a new object
    with the keys of [ps] in place, the fields that hold a mapping pointing to
    new objects built from the sorted keys, every other field as it was. *)
Lemma sortDependencies_sorted (h : heap) (p : loc) (ps : props) :
  h !! p = Some (OObj ps) -> NoDup ps.*1 -> key_ordered ps.*1 ->
  (forall t, t ∈ depTypes -> field_ok h ps t) ->
  exists r h' qs,
    sortDependencies (VRef p) h = Ok (VRef r, h') /\
    h' !! r = Some (OObj qs) /\
    (forall l o, h !! l = Some o -> h' !! l = Some o) /\
    qs.*1 = ps.*1 /\
    (forall k, k ∉ KName <$> depTypes -> own qs k = own ps k) /\
    (forall t v, own ps (KName t) = Some v -> truthy v = false ->
       own qs (KName t) = Some v) /\
    (forall t dl dps, t ∈ depTypes -> own ps (KName t) = Some (VRef dl) ->
       h !! dl = Some (OObj dps) ->
       exists n, own qs (KName t) = Some (VRef n) /\ h !! n = None /\
         h' !! n = Some (OObj (build dps (sort dps.*1)))).
Proof.
  intros Hp Hnd Hord Hok.
  pose proof (sortDependencies_spec h p ps Hp Hnd Hord Hok) as Hrun.
  cbv zeta in Hrun.
  assert (Htypes : NoDup depTypes).
  { apply (bool_decide_eq_true_1 _). vm_compute. reflexivity. }
  destruct (plan_spec h ps depTypes Htypes (S (length h)))
    as (Hnds & Hsub & Hmap & Hnone).
  set (sps := (plan h ps (S (length h)) depTypes).1) in *.
  set (os := (plan h ps (S (length h)) depTypes).2) in *.
  assert (Hown : forall k, own (overlay ps sps) k =
            match own sps k with Some v => Some v | None => own ps k end).
  { intros k. apply overlay_own; [done|]. intros k' Hk'. by apply Hsub. }
  exists (S (length h + length os)), (h ++ OObj sps :: os ++ [OObj (overlay ps sps)]),
    (overlay ps sps).
  split; [done|]. split.
  { rewrite lookup_app_r by lia.
    replace (S (length h + length os) - length h)%nat with (S (length os)) by lia.
    change ((os ++ [OObj (overlay ps sps)]) !! length os =
            Some (OObj (overlay ps sps))).
    rewrite lookup_app_r by lia.
    by replace (length os - length os)%nat with 0%nat by lia. }
  split; [intros l o Hl; by apply lookup_app_l_Some|].
  split; [apply overlay_keys|].
  split.
  { intros k Hk. rewrite Hown.
    destruct (own sps k) as [v|] eqn:Hs; [|done].
    exfalso. apply Hk. apply own_Some_elem in Hs.
    apply (list_elem_of_fmap_2 fst) in Hs.
    destruct (Hsub k Hs) as (_ & t & Ht & ->).
    by apply list_elem_of_fmap_2. }
  split.
  { intros t v Hv Hfalsy. rewrite Hown, Hnone, Hv; [done|].
    intros dl dps Hv' _. rewrite Hv in Hv'. injection Hv' as ->.
    by rewrite truthy_ref in Hfalsy. }
  intros t dl dps Ht Hv Hdl.
  destruct (Hmap t dl dps Ht Hv Hdl) as (i & Hs & Hi).
  exists (S (length h) + i)%nat. rewrite Hown, Hs.
  split; [done|]. split; [apply lookup_ge_None; lia|].
  rewrite lookup_app_r by lia.
  replace (S (length h) + i - length h)%nat with (S i) by lia.
  change ((os ++ [OObj (overlay ps sps)]) !! i =
          Some (OObj (build dps (sort dps.*1)))).
  by apply lookup_app_l_Some.
Qed.

End SortFacts.

(** * Facts about [renderTemplate] *)

Module RenderFacts.
Import JS FS DeepMerge SortDeps Render TraverseFacts SortFacts.

Lemma entry_set_eq (s : string) (n : node) (es : entries) :
  entry s (set_entry s n es) = Some n.
Proof.
  induction es as [|[s' n'] es IH]; cbn [set_entry entry].
  - by rewrite decide_True.
  - destruct (decide (s' = s)) as [->|Hne]; cbn [entry].
    + by rewrite decide_True.
    + by rewrite decide_False.
Qed.

(** Putting a node into an existing directory succeeds, and the node is then
    found there. *)
Lemma put_child (t : node) (p : path) (es : entries) (s : string) (n : node) :
  walk t p = Ok (Dir es) ->
  exists t', put t (p ++ [s]) n = Ok t' /\ walk t' (p ++ [s]) = Ok n.
Proof.
  revert t. induction p as [|a p IH]; intros t; cbn [walk app].
  - intros [= ->]. eexists. split; [done|]. cbn [walk].
    by rewrite entry_set_eq.
  - destruct t as [d|l|es0]; try done.
    destruct (entry a es0) as [c|] eqn:Ha; [|done]. intros Hw.
    destruct (IH c Hw) as (c' & Hput & Hwalk).
    exists (Dir (set_entry a c' es0)). split.
    + cbn [put]. destruct (p ++ [s]) as [|b q] eqn:Hq.
      { by destruct p. }
      rewrite Ha, Hput. done.
    + cbn [walk]. by rewrite entry_set_eq.
Qed.

Lemma basename_app (p : path) (s : string) : basename (p ++ [s]) = s.
Proof. unfold basename. by rewrite last_last. Qed.

Lemma dirname_app (p : path) (s : string) : dirname (p ++ [s]) = p.
Proof. unfold dirname. by rewrite removelast_last. Qed.

Section render.
Context (JSON_parse : string -> heap -> res (val * heap)).
Context (JSON_stringify : heap -> val -> nat -> res string).
Context (mergeFuel : nat).

(** C9, amended.  A source file whose name is an underscore followed by a rest
    that is neither empty nor a single dot is copied into the destination
    directory under the name with a dot in place of the underscore, bytes
    unchanged. *)
Theorem render_hidden_file (fuel : nat) (src dest : path) (w : world)
    (data rest : string) (es : entries) :
  statSync (tree w) src = Ok (File data) ->
  basename src = String "_"%char rest ->
  rest <> ""%string -> rest <> "."%string ->
  walk (tree w) (dirname dest) = Ok (Dir es) ->
  (forall n, entry (String "."%char rest) es = Some n -> exists d, n = File d) ->
  let dest' := dirname dest ++ [String "."%char rest] in
  exists t',
    renderTemplate JSON_parse JSON_stringify mergeFuel (S fuel) src dest w =
      Ok (World t' (log w ++ [ECopyFile src dest'])) /\
    lstatSync t' dest' = Ok (File data) /\
    dirname dest' = dirname dest /\
    basename dest' = String "."%char rest.
Proof.
  intros Hsrc Hname Hrest1 Hrest2 Hdir Hentry dest'.
  destruct (put_child (tree w) (dirname dest) es (String "."%char rest)
              (File data) Hdir) as (t' & Hput & Hwalk).
  exists t'. split; [|split; [done|]].
  - cbn [renderTemplate]. rewrite Hsrc. cbn [rbind isDirectory].
    unfold render_file. rewrite Hname.
    rewrite decide_False by done. cbn [rbind startsWith_underscore replace_underscore].
    unfold path_resolve. rewrite decide_False by (intros [?|?]; congruence).
    rewrite decide_False by congruence. fold dest'.
    unfold change, copyFileSync, readFileSync. rewrite Hsrc. cbn [rbind].
    unfold writeFileSync, statSync. unfold dest'. rewrite walk_app, Hdir.
    cbn [rbind walk].
    destruct (entry (String "."%char rest) es) as [n|] eqn:He.
    + destruct (Hentry n eq_refl) as [d ->]. by rewrite Hput.
    + by rewrite Hput.
  - unfold dest'. by rewrite dirname_app, basename_app.
Qed.
End render.

(** C9, counterexample.  A source file named by the underscore alone has a
    basename that starts with an underscore and is not the manifest; its
    destination name becomes a single dot, which [path.resolve] drops: the
    destination is the destination directory itself and the copy throws,
    nothing is written. *)
Lemma render_marker_alone_counterexample :
  let src := ["tpl"; "_"]%string in
  let dest := ["out"; "_"]%string in
  statSync template src = Ok (File "x") /\
  startsWith_underscore (basename src) = true /\
  basename src <> "package.json"%string /\
  walk template (dirname dest) = Ok (Dir []) /\
  path_resolve (dirname dest) (replace_underscore (basename src)) =
    dirname dest /\
  forall JSON_parse JSON_stringify mergeFuel fuel,
    renderTemplate JSON_parse JSON_stringify mergeFuel (S fuel) src dest
      (World template []) = Throw EISDIR.
Proof.
  cbv zeta. repeat (split; [vm_compute; (reflexivity || congruence)|]).
  intros JSON_parse JSON_stringify mergeFuel fuel. reflexivity.
Qed.

Lemma render_hidden_file_witness :
  exists t',
    renderTemplate (fun _ _ => Unsupported) (fun _ _ _ => Unsupported) 0 1
      ["tpl"; "_gitignore"]%string ["out"; "_gitignore"]%string
      (World template []) =
      Ok (World t'
            [ECopyFile ["tpl"; "_gitignore"]%string
               ["out"; ".gitignore"]%string]) /\
    lstatSync t' ["out"; ".gitignore"]%string = Ok (File "node_modules") /\
    dirname ["out"; ".gitignore"]%string = dirname ["out"; "_gitignore"]%string /\
    basename ["out"; ".gitignore"]%string = ".gitignore"%string.
Proof.
  apply (render_hidden_file (fun _ _ => Unsupported) (fun _ _ _ => Unsupported)
           0%nat 0%nat ["tpl"; "_gitignore"]%string
           ["out"; "_gitignore"]%string (World template [])
           "node_modules" "gitignore" []).
  - reflexivity.
  - reflexivity.
  - discriminate.
  - discriminate.
  - reflexivity.
  - intros n H. discriminate H.
Defined.

(** A file with an ordinary name is copied under its own name. *)
Example render_plain_file :
  exists t',
    renderTemplate (fun _ _ => Unsupported) (fun _ _ _ => Unsupported) 0 1
      ["tpl"; "main.js"]%string ["out"; "main.js"]%string
      (World template []) =
      Ok (World t'
            [ECopyFile ["tpl"; "main.js"]%string ["out"; "main.js"]%string]) /\
    lstatSync t' ["out"; "main.js"]%string = Ok (File "m").
Proof. eexists. split; vm_compute; reflexivity. Qed.

Lemma put_existing (new : node) (p : path) : forall (t n : node),
  walk t p = Ok n -> exists t', put t p new = Ok t' /\ walk t' p = Ok new.
Proof.
  induction p as [|s p IH]; intros t n Hw; [by exists new|].
  cbn [walk] in Hw. destruct t as [d|l|es]; try done.
  destruct (entry s es) as [c|] eqn:He; [|done].
  cbn [put]. destruct p as [|s' p'].
  - eexists. split; [done|]. cbn [walk]. by rewrite entry_set_eq.
  - rewrite He. destruct (IH c n Hw) as (c' & Hput & Hwalk).
    rewrite Hput. cbn [rbind]. eexists. split; [done|].
    cbn [walk]. rewrite entry_set_eq. exact Hwalk.
Qed.

Lemma statSync_file (t : node) (p : path) (d : string) :
  statSync t p = Ok (File d) <-> walk t p = Ok (File d).
Proof.
  unfold statSync. destruct (walk t p) as [[]| | |]; split; congruence.
Qed.

Section manifest.
Context (JSON_parse : string -> heap -> res (val * heap)).
Context (JSON_stringify : heap -> val -> nat -> res string).
Context (mergeFuel : nat).

Lemma render_file_manifest (src dest : path) (w : world)
    (new_text existing_text text : string) :
  basename src = "package.json"%string ->
  statSync (tree w) src = Ok (File new_text) ->
  statSync (tree w) dest = Ok (File existing_text) ->
  merge_manifest JSON_parse JSON_stringify mergeFuel existing_text new_text =
    Ok text ->
  exists t',
    render_file JSON_parse JSON_stringify mergeFuel src dest w =
      Ok (World t'
            (log w ++ [EReadFile dest; EReadFile src; EWriteFile dest])) /\
    readFileSync t' dest = Ok text.
Proof.
  intros Hname Hsrc Hdest Hmerge.
  destruct (put_existing (File text) dest (tree w) (File existing_text))
    as (t' & Hput & Hwalk); [by apply statSync_file|].
  exists t'. split.
  - unfold render_file. rewrite Hname, decide_True by done.
    unfold existsSync. rewrite Hdest. cbn [rbind].
    unfold observe, readFileSync, emit. cbn [tree log].
    rewrite Hdest. cbn [rbind tree log]. rewrite Hsrc. cbn [rbind].
    rewrite Hmerge. cbn [rbind].
    unfold change, writeFileSync. cbn [tree log]. rewrite Hdest, Hput.
    cbn [rbind]. by rewrite <- !app_assoc.
  - unfold readFileSync.
    by rewrite (proj2 (statSync_file t' dest text) Hwalk).
Qed.

Lemma render_file_reads (src dest : path) (w w' : world) (q : path) :
  render_file JSON_parse JSON_stringify mergeFuel src dest w = Ok w' ->
  EReadFile q ∈ log w' ->
  EReadFile q ∈ log w \/
  (basename src = "package.json"%string /\ existsSync (tree w) dest = Ok true).
Proof.
  unfold render_file. intros Hrun Hq.
  destruct (decide (basename src = "package.json"%string)) as [Hname|Hname].
  - destruct (existsSync (tree w) dest) as [[|]| | |] eqn:Hex; try done.
    + by right.
    + cbn [rbind] in Hrun. unfold change in Hrun.
      destruct (copyFileSync _ _ _) as [t| | |]; try done.
      cbn [rbind] in Hrun. injection Hrun as <-. cbn [log] in Hq.
      apply elem_of_app in Hq as [Hq|Hq]; [by left|].
      apply list_elem_of_singleton in Hq. discriminate Hq.
  - cbn [rbind] in Hrun. unfold change in Hrun.
    destruct (copyFileSync _ _ _) as [t| | |]; try done.
    cbn [rbind] in Hrun. injection Hrun as <-. cbn [log] in Hq.
    apply elem_of_app in Hq as [Hq|Hq]; [by left|].
    apply list_elem_of_singleton in Hq. discriminate Hq.
Qed.
End manifest.

Section manifest_claim.
Context (JSON_parse : string -> heap -> res (val * heap)).
Context (JSON_stringify : heap -> val -> nat -> res string).
Context (mergeFuel : nat).

(** The manifest branch, given what the parser and the merge return.  For a
    source file named [package.json] and a destination that is an existing
    file, [renderTemplate] parses the destination, then the source, merges the
    source document into the destination's, and writes over the destination
    the serialization, with indentation 2 and a newline, of a new object that
    has the keys of the merged manifest in place: each of the four fields that
    holds a mapping points to a new mapping with the same keys and values,
    array-index keys first in numeric order and the names in ascending order
    of their code units; falsy fields among the four and all other fields keep
    their value.  No other path of [render_file] reads a file. *)
Lemma render_manifest (fuel : nat) (src dest : path) (w : world)
    (new_text existing_text : string) (p : loc) (newPackage : val)
    (h1 h2 h : heap) (ps : props) :
  basename src = "package.json"%string ->
  statSync (tree w) src = Ok (File new_text) ->
  statSync (tree w) dest = Ok (File existing_text) ->
  JSON_parse existing_text [] = Ok (VRef p, h1) ->
  JSON_parse new_text h1 = Ok (newPackage, h2) ->
  deepMerge mergeFuel (VRef p) newPackage h2 = Ok h ->
  h !! p = Some (OObj ps) -> NoDup ps.*1 -> key_ordered ps.*1 ->
  (forall t, t ∈ depTypes -> field_ok h ps t) ->
  exists r h' qs,
    sortDependencies (VRef p) h = Ok (VRef r, h') /\
    h' !! r = Some (OObj qs) /\
    qs.*1 = ps.*1 /\
    (forall k, k ∉ KName <$> depTypes -> own qs k = own ps k) /\
    (forall t v, own ps (KName t) = Some v -> truthy v = false ->
       own qs (KName t) = Some v) /\
    (forall t dl dps, t ∈ depTypes -> own ps (KName t) = Some (VRef dl) ->
       h !! dl = Some (OObj dps) ->
       exists n sd,
         own qs (KName t) = Some (VRef n) /\ h' !! n = Some (OObj sd) /\
         sd.*1 ≡ₚ dps.*1 /\
         (forall k, k ∈ dps.*1 -> own sd k = own dps k) /\
         key_ordered sd.*1 /\
         filter (fun k => is_name k = true) sd.*1 =
           filter (fun k => is_name k = true) (sort dps.*1) /\
         ascending
           (key_to_string <$> filter (fun k => is_name k = true) sd.*1) /\
         (Forall (fun k => is_name k = true) dps.*1 ->
          ascending (key_to_string <$> sd.*1))) /\
    (forall text, JSON_stringify h' (VRef r) 2 = Ok text ->
       exists t',
         renderTemplate JSON_parse JSON_stringify mergeFuel (S fuel) src dest w =
           Ok (World t'
                 (log w ++ [EReadFile dest; EReadFile src; EWriteFile dest])) /\
         readFileSync t' dest =
           Ok (text ++ String "010"%char EmptyString)%string) /\
    (forall src0 dest0 w0 w0' q,
       render_file JSON_parse JSON_stringify mergeFuel src0 dest0 w0 = Ok w0' ->
       EReadFile q ∈ log w0' ->
       EReadFile q ∈ log w0 \/
       (basename src0 = "package.json"%string /\
        existsSync (tree w0) dest0 = Ok true)).
Proof.
  intros Hname Hsrc Hdest Hparse1 Hparse2 Hmerge Hp Hnd Hord Hok.
  destruct (sortDependencies_sorted h p ps Hp Hnd Hord Hok)
    as (r & h' & qs & Hrun & Hr & _ & Hkeys & Hother & Hfalsy & Hmap).
  exists r, h', qs. do 5 (split; [done|]).
  split; [|split].
  - intros t dl dps Ht Hv Hdl.
    destruct (Hmap t dl dps Ht Hv Hdl) as (n & Hn & _ & Hh').
    exists n, (build dps (sort dps.*1)). do 2 (split; [done|]).
    assert (Hnd' : NoDup dps.*1).
    { pose proof (Hok t Ht) as Hf. unfold field_ok in Hf. rewrite Hv in Hf.
      destruct Hf as [Hf|(dl' & dps' & Heq & Hdl' & Hnd' & _)]; [done|].
      injection Heq as <-. rewrite Hdl in Hdl'. by injection Hdl' as <-. }
    destruct (sorted_field dps Hnd') as (H1 & H2 & H3 & H4 & H5 & H6).
    do 5 (split; [done|]). intros Hnames. by apply H6.
  - intros text Htext. cbn [renderTemplate]. rewrite Hsrc.
    cbn [rbind isDirectory].
    apply (render_file_manifest _ _ _ _ _ _ new_text existing_text);
      [done..|].
    unfold merge_manifest. rewrite Hparse1. cbn [rbind].
    rewrite Hparse2. cbn [rbind]. rewrite Hmerge. cbn [rbind].
    rewrite Hrun. cbn [rbind]. by rewrite Htext.
  - apply render_file_reads.
Qed.
End manifest_claim.

(** C2.  The manifest branch does not always leave the dependency fields
    sorted.  On a destination [package.json] whose [dependencies] have the
    names 9 and 10, [sortDependencies] sorts the names as the strings 10, 9,
    but the object it fills enumerates them, as every object does its
    integer-like keys, in numeric order: the text written lists 9, 10, axios,
    which is not in ascending order. *)
Theorem render_manifest_numbered :
  let src := ["tpl"; "package.json"]%string in
  let dest := ["num"; "package.json"]%string in
  parse_example "numbered" [] = Ok (VRef 0%nat, numbered) /\
  sort [KIdx 9; KIdx 10] = [KIdx 10; KIdx 9] /\
  (exists r d h',
     sortDependencies (VRef 0%nat) numbered = Ok (VRef r, h') /\
     get h' (VRef r) (KName "dependencies") = Ok (VRef d) /\
     keys h' (VRef d) = Ok [KIdx 9; KIdx 10] /\
     ~ ascending (key_to_string <$> [KIdx 9; KIdx 10])) /\
  exists t',
    renderTemplate parse_example stringify_example 3 1 src dest
      (World scaffold []) =
      Ok (World t' [EReadFile dest; EReadFile src; EWriteFile dest]) /\
    readFileSync t' dest =
      Ok ("9,10,axios" ++ String "010"%char EmptyString)%string /\
    ~ ascending ["9"; "10"; "axios"]%string.
Proof.
  cbv zeta. split; [reflexivity|]. split; [vm_compute; reflexivity|]. split.
  - eexists _, _, _. split; [vm_compute; reflexivity|].
    split; [vm_compute; reflexivity|]. split; [vm_compute; reflexivity|].
    vm_compute. intros [H _]. discriminate H.
  - eexists. split; [vm_compute; reflexivity|]. split; [vm_compute; reflexivity|].
    vm_compute. intros [H _]. discriminate H.
Qed.

(** The branch on a manifest whose dependencies have names only. *)
Lemma render_manifest_names :
  exists t',
    renderTemplate parse_example stringify_example 3 1
      ["tpl"; "package.json"]%string ["out"; "package.json"]%string
      (World scaffold []) =
      Ok (World t'
            [EReadFile ["out"; "package.json"]%string;
             EReadFile ["tpl"; "package.json"]%string;
             EWriteFile ["out"; "package.json"]%string]) /\
    readFileSync t' ["out"; "package.json"]%string =
      Ok ("axios,pinia,vue" ++ String "010"%char EmptyString)%string.
Proof.
  edestruct (render_manifest parse_example stringify_example 3%nat 0%nat
               ["tpl"; "package.json"]%string ["out"; "package.json"]%string
               (World scaffold []) "new" "existing")
    as (r & h' & qs & Hrun & _ & _ & _ & _ & _ & Hwrite & _).
  - reflexivity.
  - reflexivity.
  - reflexivity.
  - reflexivity.
  - reflexivity.
  - vm_compute. reflexivity.
  - reflexivity.
  - apply (bool_decide_eq_true_1 _). vm_compute. reflexivity.
  - cbn. repeat constructor.
  - intros t Ht. unfold field_ok.
    repeat (apply elem_of_cons in Ht as [->|Ht]); try (by apply elem_of_nil in Ht);
      cbn; try done.
    right. eexists _, _. split; [reflexivity|]. split; [reflexivity|].
    split; apply (bool_decide_eq_true_1 _); vm_compute; reflexivity.
  - vm_compute in Hrun. injection Hrun as <- <-.
    apply (Hwrite "axios,pinia,vue"%string). vm_compute. reflexivity.
Defined.

End RenderFacts.
(** * Updates of the file tree *)

Module TreeFacts.
Import JS FS Traverse TraverseFacts RenderFacts Index.

Lemma set_entry_twice (s : string) (a b : node) (es : entries) :
  set_entry s b (set_entry s a es) = set_entry s b es.
Proof.
  induction es as [|[s' n'] es IH]; cbn [set_entry].
  - by rewrite decide_True.
  - destruct (decide (s' = s)) as [->|Hne]; cbn [set_entry].
    + by rewrite decide_True.
    + rewrite decide_False by done. by rewrite IH.
Qed.

Lemma put_child_eq (n : node) (s : string) (p : path) :
  forall t es, walk t p = Ok (Dir es) ->
  put t (p ++ [s]) n = put t p (Dir (set_entry s n es)).
Proof.
  induction p as [|s0 p IH]; intros t es Hw.
  - cbn in Hw. injection Hw as ->. done.
  - cbn [walk] in Hw. destruct t as [d|l|es0]; try done.
    destruct (entry s0 es0) as [c|] eqn:He; [|done].
    change ((s0 :: p) ++ [s]) with (s0 :: (p ++ [s])). cbn [put].
    rewrite He. destruct p as [|s1 p].
    + cbn in Hw. injection Hw as ->. done.
    + change ((s1 :: p) ++ [s]) with (s1 :: (p ++ [s])).
      change (s1 :: (p ++ [s])) with ((s1 :: p) ++ [s]).
      rewrite (IH c es Hw).
      destruct ((s1 :: p) ++ [s]) eqn:E; [by destruct p|done].
Qed.

Lemma remove_child_eq (ok : node -> res unit) (s : string) (c : node) (p : path) :
  forall t es, walk t p = Ok (Dir es) -> entry s es = Some c -> ok c = Ok tt ->
  remove ok t (p ++ [s]) = put t p (Dir (del_entry s es)).
Proof.
  induction p as [|s0 p IH]; intros t es Hw He Hok.
  - cbn in Hw. injection Hw as ->. cbn. by rewrite He, Hok.
  - cbn [walk] in Hw. destruct t as [d|l|es0]; try done.
    destruct (entry s0 es0) as [c0|] eqn:He0; [|done].
    change ((s0 :: p) ++ [s]) with (s0 :: (p ++ [s])). cbn [remove put].
    rewrite He0. rewrite (IH c0 es Hw He Hok).
    destruct p as [|s1 p]; [|done].
    cbn in Hw. injection Hw as ->. done.
Qed.

Lemma put_cons (es : entries) (s s1 : string) (p : path) (new : node) :
  put (Dir es) (s :: s1 :: p) new =
  match entry s es with
  | Some c => let* c' := put c (s1 :: p) new in Ok (Dir (set_entry s c' es))
  | None => Throw ENOENT
  end.
Proof. done. Qed.

Lemma put_twice (a b : node) (p : path) :
  forall t t1, put t p a = Ok t1 -> put t1 p b = put t p b.
Proof.
  induction p as [|s p IH]; intros t t1 Hput; [done|].
  destruct t as [d|l|es]; try done.
  destruct p as [|s1 p].
  - cbn [put] in Hput. injection Hput as <-. cbn [put].
    by rewrite set_entry_twice.
  - rewrite put_cons in Hput.
    destruct (entry s es) as [c|] eqn:He; [|done].
    destruct (put c (s1 :: p) a) as [c1| | |] eqn:Hc; try done.
    cbn [rbind] in Hput. injection Hput as <-.
    rewrite !put_cons, entry_set_eq, He, (IH c c1 Hc).
    destruct (put c (s1 :: p) b); cbn [rbind]; [|done..].
    by rewrite set_entry_twice.
Qed.

Lemma walk_put (a : node) (p : path) :
  forall t t1, put t p a = Ok t1 -> walk t1 p = Ok a.
Proof.
  induction p as [|s p IH]; intros t t1 Hput.
  - cbn in Hput. by injection Hput as <-.
  - cbn [put] in Hput. destruct t as [d|l|es]; try done.
    destruct p as [|s1 p].
    + injection Hput as <-. cbn [walk]. by rewrite entry_set_eq.
    + destruct (entry s es) as [c|] eqn:He; [|done].
      destruct (put c (s1 :: p) a) as [c1| | |] eqn:Hc; try done.
      cbn [rbind] in Hput. injection Hput as <-.
      change (walk (Dir (set_entry s c1 es)) (s :: s1 :: p))
        with (match entry s (set_entry s c1 es) with
              | Some c => walk c (s1 :: p)
              | None => Throw ENOENT
              end).
      rewrite entry_set_eq. by apply (IH c).
Qed.

Lemma put_at (a : node) (t : node) (p : path) (n : node) :
  walk t p = Ok n -> exists t1, put t p a = Ok t1 /\ walk t1 p = Ok a.
Proof. apply put_existing. Qed.

Lemma set_entry_same (s : string) (c : node) (es : entries) :
  entry s es = Some c -> set_entry s c es = es.
Proof.
  induction es as [|[s' n'] es IH]; [done|]. cbn [entry set_entry].
  destruct (decide (s' = s)) as [->|Hne]; [by intros [= ->]|].
  intros He. by rewrite IH.
Qed.

Lemma put_same (p : path) : forall t n, walk t p = Ok n -> put t p n = Ok t.
Proof.
  induction p as [|s p IH]; intros t n Hw.
  - cbn in *. congruence.
  - cbn [walk] in Hw. destruct t as [d|l|es]; try done.
    destruct (entry s es) as [c|] eqn:He; [|done].
    destruct p as [|s1 p].
    + cbn in Hw. injection Hw as ->. cbn [put]. by rewrite set_entry_same.
    + rewrite put_cons, He, (IH c n Hw). cbn [rbind].
      by rewrite set_entry_same.
Qed.

Lemma entry_set_ne (s s' : string) (n : node) (es : entries) :
  s <> s' -> entry s' (set_entry s n es) = entry s' es.
Proof.
  intros Hne. induction es as [|[s0 n0] es IH]; cbn [entry set_entry].
  - by rewrite decide_False.
  - destruct (decide (s0 = s)) as [->|Hne0]; cbn [entry].
    + by rewrite !decide_False.
    + destruct (decide (s0 = s')); [done|apply IH].
Qed.

(** Putting a node at [p] changes nothing at a path that neither lies below
    [p] nor leads to it. *)
Lemma walk_put_other (a : node) (p : path) :
  forall t t1 q, put t p a = Ok t1 ->
  ~ p `prefix_of` q -> ~ q `prefix_of` p -> walk t1 q = walk t q.
Proof.
  induction p as [|s p IH]; intros t t1 q Hput Hpq Hqp.
  { exfalso. apply Hpq, prefix_nil. }
  destruct q as [|s' q]; [exfalso; apply Hqp, prefix_nil|].
  destruct t as [d|l|es]; try done.
  assert (Hshape : exists x, t1 = Dir (set_entry s x es) /\
            (s = s' -> exists c, entry s es = Some c /\ put c p a = Ok x)).
  { destruct p as [|s1 p].
    - cbn [put] in Hput. injection Hput as <-. eexists. split; [done|].
      intros ->. exfalso. apply Hpq. by apply prefix_cons, prefix_nil.
    - rewrite put_cons in Hput. destruct (entry s es) as [c|] eqn:He; [|done].
      destruct (put c (s1 :: p) a) as [c1| | |] eqn:Hc; try done.
      cbn [rbind] in Hput. injection Hput as <-. eexists. split; [done|].
      intros _. eauto. }
  destruct Hshape as (x & -> & Hx). cbn [walk].
  destruct (decide (s = s')) as [<-|Hne].
  - destruct (Hx eq_refl) as (c & He & Hc). rewrite entry_set_eq, He.
    apply (IH c x q Hc).
    + intros Hpre. apply Hpq. by apply prefix_cons.
    + intros Hpre. apply Hqp. by apply prefix_cons.
  - by rewrite entry_set_ne.
Qed.

End TreeFacts.

(** * [emptyDir] *)

Module EmptyDirFacts.
Import JS FS Traverse TraverseFacts RenderFacts Index TreeFacts.

Lemma walk_head (t : node) (dir : path) (s : string) (c : node) (rest : entries) :
  walk t dir = Ok (Dir ((s, c) :: rest)) -> walk t (dir ++ [s]) = Ok c.
Proof.
  intros Hw. rewrite walk_app, Hw. cbn [rbind walk entry].
  by rewrite decide_True.
Qed.

Lemma remove_head (ok : node -> res unit) (t : node) (dir : path) (s : string)
    (c : node) (rest : entries) :
  walk t dir = Ok (Dir ((s, c) :: rest)) -> ok c = Ok tt ->
  exists t2, remove ok t (dir ++ [s]) = Ok t2 /\
    put t dir (Dir rest) = Ok t2 /\ walk t2 dir = Ok (Dir rest).
Proof.
  intros Hw Hok.
  destruct (put_at (Dir rest) t dir _ Hw) as (t2 & Hput & Hw2).
  exists t2. split; [|done].
  rewrite (remove_child_eq ok s c dir t _ Hw); [|cbn; by rewrite decide_True|done].
  cbn [del_entry]. by rewrite decide_True.
Qed.

Lemma clear_loop (fuel : nat) (dir : path) (es : entries) :
  Forall (fun e => clears e.2) es ->
  Forall (fun e => depth e.2 <= fuel)%nat es ->
  Forall ok_name es.*1 ->
  forall t l, walk t dir = Ok (Dir es) ->
  exists t' l',
    forEach
      (postOrder_entry
         (fun p => postOrderDirectoryTraverse fuel p (fun p t => rmdirSync t p)
                     (fun p t => unlinkSync t p))
         dir (fun p t => rmdirSync t p) (fun p t => unlinkSync t p))
      es.*1 (World t l) = Ok (World t' l') /\
    put t dir (Dir []) = Ok t'.
Proof.
  induction es as [|[s c] es IH]; intros Hcl Hdepth Hnames t l Hw.
  { exists t, l. split; [done|]. by apply put_same. }
  apply Forall_cons in Hcl as [Hc Hcl]. apply Forall_cons in Hdepth as [Hd Hdepth].
  csimpl in Hnames. apply Forall_cons in Hnames as [Hs Hnames]. cbn [fst snd] in *.
  pose proof (walk_head t dir s c es Hw) as Hwc.
  assert (Hstep : exists t2 l2,
            postOrder_entry
              (fun p => postOrderDirectoryTraverse fuel p (fun p t => rmdirSync t p)
                          (fun p t => unlinkSync t p))
              dir (fun p t => rmdirSync t p) (fun p t => unlinkSync t p) s
              (World t l) = Ok (World t2 l2) /\
            put t dir (Dir es) = Ok t2 /\ walk t2 dir = Ok (Dir es)).
  { unfold postOrder_entry. rewrite (path_resolve_ok dir s Hs).
    unfold lstatSync. cbn [tree]. rewrite Hwc. cbn [rbind].
    destruct c as [d|lk|sub]; cbn [isDirectory].
    - destruct (remove_head (fun n => match n with Dir _ => Throw EISDIR | _ => Ok tt end)
                  t dir s (File d) es Hw eq_refl) as (t2 & Hrm & Hput & Hw2).
      unfold change, unlinkSync. cbn [tree log]. rewrite Hrm. cbn [rbind]. eauto.
    - destruct (remove_head (fun n => match n with Dir _ => Throw EISDIR | _ => Ok tt end)
                  t dir s (Link lk) es Hw eq_refl) as (t2 & Hrm & Hput & Hw2).
      unfold change, unlinkSync. cbn [tree log]. rewrite Hrm. cbn [rbind]. eauto.
    - destruct (Hc fuel t (dir ++ [s]) l sub eq_refl Hd Hwc) as (t1 & l1 & Hrun & Hput1).
      rewrite Hrun. cbn [rbind].
      rewrite (put_child_eq (Dir []) s dir t _ Hw) in Hput1.
      cbn [set_entry] in Hput1. rewrite decide_True in Hput1 by done.
      pose proof (walk_put _ _ _ _ Hput1) as Hw1.
      destruct (remove_head (fun n => match n with
                                      | Dir [] => Ok tt
                                      | Dir _ => Throw ENOTEMPTY
                                      | _ => Throw ENOTDIR
                                      end)
                  t1 dir s (Dir []) es Hw1 eq_refl) as (t2 & Hrm & Hput & Hw2).
      unfold change, rmdirSync. cbn [tree log]. rewrite Hrm. cbn [rbind].
      exists t2, (l1 ++ [EOnDir (dir ++ [s])]). split; [done|]. split; [|done].
      by rewrite <- (put_twice _ (Dir es) dir t t1 Hput1). }
  destruct Hstep as (t2 & l2 & Hstep & Hput2 & Hw2).
  destruct (IH Hcl Hdepth Hnames t2 l2 Hw2) as (t' & l' & Hrun & Hput').
  exists t', l'. split.
  - csimpl. rewrite Hstep. cbn [rbind]. exact Hrun.
  - by rewrite <- (put_twice _ (Dir []) dir t t2 Hput2).
Qed.

Lemma readdirSync_dir (t : node) (dir : path) (es : entries) :
  walk t dir = Ok (Dir es) -> readdirSync t dir = Ok es.*1.
Proof. intros Hw. unfold readdirSync, statSync. by rewrite Hw. Qed.

Lemma clear_node (c : node) : wf_node c -> clears c.
Proof.
  induction c as [d|lk|es IH] using node_ind'; intros Hwf fuel t dir l sub Hc;
    try done.
  injection Hc as <-. intros Hdepth Hw.
  apply wf_node_dir in Hwf as (Hnd & Hnames & Hwfs).
  destruct fuel as [|fuel]; [cbn in Hdepth; lia|].
  cbn [postOrderDirectoryTraverse]. unfold observe. cbn [tree].
  rewrite (readdirSync_dir t dir es Hw). cbn [rbind].
  apply (clear_loop fuel dir es); try done.
  - rewrite Forall_forall in IH, Hwfs. apply Forall_forall.
    intros e He. by apply IH, Hwfs.
  - apply Forall_forall. intros [s c] He.
    pose proof (depth_dir es s c He). cbn [snd]. lia.
Qed.

Lemma emptyDir_node (c : node) :
  wf_node c -> forall fuel t dir sub, c = Dir sub -> (depth c <= fuel)%nat ->
  walk t dir = Ok c ->
  exists t', emptyDir fuel dir t = Ok t' /\ put t dir (Dir []) = Ok t'.
Proof.
  intros Hwf fuel t dir sub Hc Hdepth Hw.
  destruct (clear_node c Hwf fuel t dir [] sub Hc Hdepth Hw)
    as (t' & l' & Hrun & Hput).
  exists t'. split; [|done]. unfold emptyDir. by rewrite Hrun.
Qed.



End EmptyDirFacts.

(** * The clean-up pass over test directories *)

Module PruneFacts.
Import JS FS Traverse TraverseFacts RenderFacts Index TreeFacts EmptyDirFacts.

Lemma entry_absent (s : string) (es : entries) : s ∉ es.*1 -> entry s es = None.
Proof.
  induction es as [|[s' n'] es IH]; [done|]. csimpl. intros Hs.
  apply not_elem_of_cons in Hs as [Hne Hs]. rewrite decide_False by done.
  by apply IH.
Qed.

Lemma entry_mid (s : string) (c : node) (pre rest : entries) :
  s ∉ pre.*1 -> entry s (pre ++ (s, c) :: rest) = Some c.
Proof.
  induction pre as [|[s' n'] pre IH]; csimpl; intros Hs.
  - by rewrite decide_True.
  - apply not_elem_of_cons in Hs as [Hne Hs]. rewrite decide_False by done.
    by apply IH.
Qed.

Lemma set_entry_mid (s : string) (c n : node) (pre rest : entries) :
  s ∉ pre.*1 -> set_entry s n (pre ++ (s, c) :: rest) = pre ++ (s, n) :: rest.
Proof.
  induction pre as [|[s' n'] pre IH]; csimpl; intros Hs.
  - by rewrite decide_True.
  - apply not_elem_of_cons in Hs as [Hne Hs]. rewrite decide_False by done.
    by rewrite IH.
Qed.

Lemma del_entry_mid (s : string) (c : node) (pre rest : entries) :
  s ∉ pre.*1 -> del_entry s (pre ++ (s, c) :: rest) = pre ++ rest.
Proof.
  induction pre as [|[s' n'] pre IH]; csimpl; intros Hs.
  - by rewrite decide_True.
  - apply not_elem_of_cons in Hs as [Hne Hs]. rewrite decide_False by done.
    by rewrite IH.
Qed.

Lemma pruned_dir (es : entries) : pruned (Dir es) = Dir (pruned_entries es).
Proof. done. Qed.

Lemma pruned_entries_cons (s : string) (c : node) (es : entries) :
  pruned_entries ((s, c) :: es) =
  match c with
  | Dir _ => if is_test_dir s then pruned_entries es
             else (s, pruned c) :: pruned_entries es
  | _ => (s, c) :: pruned_entries es
  end.
Proof. unfold pruned_entries. cbn [pruned]. by destruct c, (is_test_dir s). Qed.

Lemma is_test_dir_spec (s : string) :
  is_test_dir s = true <-> (s = "cypress" \/ s = "__tests__")%string.
Proof. unfold is_test_dir. apply bool_decide_eq_true. Qed.

Lemma prune_test (fuel : nat) (p : path) (t : node) :
  is_test_dir (basename p) = true ->
  prune fuel p t = let* t1 := emptyDir fuel p t in rmdirSync t1 p.
Proof.
  intros Htest. apply is_test_dir_spec in Htest. unfold prune.
  by rewrite decide_True.
Qed.

Lemma prune_other (fuel : nat) (p : path) (t : node) :
  is_test_dir (basename p) = false -> prune fuel p t = Ok t.
Proof.
  intros Htest. unfold prune. rewrite decide_False; [done|].
  intros Hin. apply is_test_dir_spec in Hin. congruence.
Qed.

Lemma prune_loop (fuel fuel2 : nat) (dir : path) (es : entries) :
  Forall (fun e => prunes e.2) es ->
  Forall (fun e => wf_node e.2) es ->
  Forall (fun e => depth e.2 <= fuel)%nat es ->
  Forall (fun e => depth e.2 <= fuel2)%nat es ->
  Forall ok_name es.*1 ->
  forall done t l, walk t dir = Ok (Dir (done ++ es)) ->
  NoDup (done.*1 ++ es.*1) ->
  exists t' l',
    forEach
      (preOrder_entry
         (fun p => preOrderDirectoryTraverse fuel p (prune fuel2) noop)
         dir (prune fuel2) noop)
      es.*1 (World t l) = Ok (World t' l') /\
    put t dir (Dir (done ++ pruned_entries es)) = Ok t'.
Proof.
  induction es as [|[s c] es IH];
    intros Hpr Hwfs Hdepth Hdepth2 Hnames done t l Hw Hnd.
  { exists t, l. split; [done|]. by apply put_same. }
  apply Forall_cons in Hpr as [Hc Hpr]. apply Forall_cons in Hwfs as [Hwf Hwfs].
  apply Forall_cons in Hdepth as [Hd Hdepth].
  apply Forall_cons in Hdepth2 as [Hd2 Hdepth2].
  csimpl in Hnames. apply Forall_cons in Hnames as [Hs Hnames].
  csimpl in Hnd. cbn [fst snd] in *.
  assert (Hs_done : s ∉ done.*1).
  { apply NoDup_app in Hnd as (_ & Hdis & _). intros Hin.
    apply (Hdis s Hin). by left. }
  assert (Hs_rest : s ∉ es.*1).
  { apply NoDup_app in Hnd as (_ & _ & Hnd). by apply NoDup_cons in Hnd as [? _]. }
  assert (Hnd_rest : NoDup (done.*1 ++ es.*1)).
  { apply NoDup_app in Hnd as (Hnd1 & Hdis & Hnd2).
    apply NoDup_cons in Hnd2 as [_ Hnd2]. apply NoDup_app.
    split; [done|]. split; [|done]. intros x Hx Hx'. apply (Hdis x Hx). by right. }
  assert (Hwc : walk t (dir ++ [s]) = Ok c).
  { rewrite walk_app, Hw. cbn [rbind walk]. by rewrite entry_mid. }
  assert (Hstep : exists t2 l2 done2,
            preOrder_entry
              (fun p => preOrderDirectoryTraverse fuel p (prune fuel2) noop)
              dir (prune fuel2) noop s (World t l) = Ok (World t2 l2) /\
            put t dir (Dir (done2 ++ es)) = Ok t2 /\
            walk t2 dir = Ok (Dir (done2 ++ es)) /\
            NoDup (done2.*1 ++ es.*1) /\
            done2 ++ pruned_entries es = done ++ pruned_entries ((s, c) :: es)).
  { unfold preOrder_entry. rewrite (path_resolve_ok dir s Hs).
    unfold lstatSync. cbn [tree]. rewrite Hwc. cbn [rbind].
    rewrite pruned_entries_cons.
    assert (Hleaf : isDirectory c = false ->
              exists done2, put t dir (Dir (done2 ++ es)) = Ok t /\
                walk t dir = Ok (Dir (done2 ++ es)) /\
                NoDup (done2.*1 ++ es.*1) /\
                done2 ++ pruned_entries es = done ++ (s, c) :: pruned_entries es).
    { intros _. exists (done ++ [(s, c)]). rewrite <- !app_assoc. cbn [app].
      split; [by apply put_same|]. split; [done|]. split; [|done].
      rewrite fmap_app. csimpl. by rewrite <- app_assoc. }
    destruct c as [d|lk|sub]; cbn [isDirectory].
    - destruct (Hleaf eq_refl) as (done2 & ?). unfold change, noop. cbn [tree log rbind].
      eauto 10.
    - destruct (Hleaf eq_refl) as (done2 & ?). unfold change, noop. cbn [tree log rbind].
      eauto 10.
    - clear Hleaf. unfold change. cbn [tree log].
      destruct (is_test_dir s) eqn:Htest.
      + rewrite prune_test by by rewrite basename_app.
        destruct (emptyDir_node (Dir sub) Hwf fuel2 t (dir ++ [s]) sub eq_refl Hd2 Hwc)
          as (t1 & Hempty & Hput1).
        rewrite Hempty. cbn [rbind].
        rewrite (put_child_eq (Dir []) s dir t _ Hw), set_entry_mid in Hput1 by done.
        pose proof (walk_put _ _ _ _ Hput1) as Hw1.
        destruct (put_at (Dir (done ++ es)) t dir _ Hw) as (t2 & Hput2 & Hw2).
        assert (Hrm : rmdirSync t1 (dir ++ [s]) = Ok t2).
        { unfold rmdirSync.
          rewrite (remove_child_eq _ s (Dir []) dir t1 _ Hw1);
            [|by apply entry_mid|done].
          rewrite del_entry_mid by done.
          by rewrite (put_twice _ _ dir t t1 Hput1). }
        rewrite Hrm. cbn [rbind tree].
        assert (Hex : existsSync t2 (dir ++ [s]) = Ok false).
        { unfold existsSync, statSync. rewrite walk_app, Hw2. cbn [rbind walk].
          rewrite entry_absent; [done|].
          rewrite fmap_app. apply not_elem_of_app. by split. }
        rewrite Hex. cbn [rbind]. unfold emit. cbn [tree log].
        exists t2, ((l ++ [EOnDir (dir ++ [s])]) ++ [EExists (dir ++ [s]) false]), done.
        by repeat split.
      + rewrite prune_other by by rewrite basename_app.
        cbn [rbind tree].
        assert (Hex : existsSync t (dir ++ [s]) = Ok true).
        { unfold existsSync, statSync. by rewrite Hwc. }
        rewrite Hex. cbn [rbind]. unfold emit. cbn [tree log].
        destruct (Hc fuel fuel2 t (dir ++ [s])
                    ((l ++ [EOnDir (dir ++ [s])]) ++ [EExists (dir ++ [s]) true])
                    sub eq_refl Hd Hd2 Hwc) as (t1 & l1 & Hrun & Hput1).
        rewrite Hrun.
        rewrite (put_child_eq _ s dir t _ Hw), set_entry_mid in Hput1 by done.
        pose proof (walk_put _ _ _ _ Hput1) as Hw1.
        exists t1, l1, (done ++ [(s, pruned (Dir sub))]).
        rewrite <- !app_assoc. cbn [app]. split; [done|].
        split; [done|]. split; [done|]. split; [|done].
        rewrite fmap_app. csimpl. by rewrite <- app_assoc. }
  destruct Hstep as (t2 & l2 & done2 & Hstep & Hput2 & Hw2 & Hnd2 & Heq).
  destruct (IH Hpr Hwfs Hdepth Hdepth2 Hnames done2 t2 l2 Hw2 Hnd2)
    as (t' & l' & Hrun & Hput').
  exists t', l'. split.
  - csimpl. rewrite Hstep. cbn [rbind]. exact Hrun.
  - rewrite <- Heq. by rewrite <- (put_twice _ _ dir t t2 Hput2).
Qed.

Lemma prune_node (c : node) : wf_node c -> prunes c.
Proof.
  induction c as [d|lk|es IH] using node_ind';
    intros Hwf fuel fuel2 t dir l sub Hc; try done.
  injection Hc as <-. intros Hdepth Hdepth2 Hw.
  apply wf_node_dir in Hwf as (Hnd & Hnames & Hwfs).
  destruct fuel as [|fuel]; [cbn in Hdepth; lia|].
  cbn [preOrderDirectoryTraverse]. unfold observe. cbn [tree].
  rewrite (readdirSync_dir t dir es Hw). cbn [rbind].
  apply (prune_loop fuel fuel2 dir es) with (done := []); try done.
  - rewrite Forall_forall in IH, Hwfs. apply Forall_forall.
    intros e He. by apply IH, Hwfs.
  - apply Forall_forall. intros [s c] He.
    pose proof (depth_dir es s c He). cbn [snd]. lia.
  - apply Forall_forall. intros [s c] He.
    pose proof (depth_dir es s c He). cbn [snd]. lia.
Qed.

Lemma entry_pruned (x : string) (c' : node) (es : entries) :
  entry x (pruned_entries es) = Some c' ->
  exists c0, (x, c0) ∈ es /\ c' = pruned c0 /\
    (isDirectory c0 = true -> is_test_dir x = false).
Proof.
  induction es as [|[s c] es IH]; [done|]. rewrite pruned_entries_cons.
  assert (Hrest : entry x (pruned_entries es) = Some c' ->
            exists c0, (x, c0) ∈ (s, c) :: es /\ c' = pruned c0 /\
              (isDirectory c0 = true -> is_test_dir x = false)).
  { intros H. destruct (IH H) as (c0 & Hin & Heq & Hd). exists c0.
    split; [by right|done]. }
  destruct c as [d|lk|sub].
  - cbn [entry]. destruct (decide (s = x)) as [->|]; [|done].
    intros [= <-]. exists (File d). split; [by left|done].
  - cbn [entry]. destruct (decide (s = x)) as [->|]; [|done].
    intros [= <-]. exists (Link lk). split; [by left|done].
  - destruct (is_test_dir s) eqn:Htest; [done|]. cbn [entry].
    destruct (decide (s = x)) as [->|]; [|done].
    intros [= <-]. exists (Dir sub). split; [by left|done].
Qed.

(** No directory of a pruned tree is named [cypress] or [__tests__]. *)
Lemma pruned_clean (c : node) :
  forall rel s sub, walk (pruned c) (rel ++ [s]) = Ok (Dir sub) ->
  is_test_dir s = false.
Proof.
  induction c as [d|lk|es IH] using node_ind'; intros rel s sub Hw.
  - by destruct rel.
  - by destruct rel.
  - rewrite pruned_dir in Hw. destruct rel as [|x rel]; cbn [app walk] in Hw.
    + destruct (entry s (pruned_entries es)) as [c'|] eqn:He; [|done].
      destruct (entry_pruned s c' es He) as (c0 & Hin & -> & Hd).
      cbn in Hw. apply Hd. destruct c0; try done.
    + destruct (entry x (pruned_entries es)) as [c'|] eqn:He; [|done].
      destruct (entry_pruned x c' es He) as (c0 & Hin & -> & Hd).
      rewrite Forall_forall in IH. by apply (IH (x, c0) Hin rel s sub).
Qed.



End PruneFacts.

(** * The order of the callbacks *)

Module OrderFacts.
Import JS FS Traverse TraverseFacts Index.

Lemma split_at {A} (a b l1 l2 : list A) (x : A) :
  a ++ b = l1 ++ x :: l2 ->
  (exists l, a = l1 ++ x :: l /\ l2 = l ++ b) \/
  (exists l, l1 = a ++ l /\ b = l ++ x :: l2).
Proof.
  intros Heq. destruct (app_eq_app _ _ _ _ Heq) as [l [[Ha Hl]|[Ha Hl]]].
  - destruct l as [|y l].
    + right. exists []. rewrite app_nil_r in *. by subst.
    + injection Hl as <- ->. left. by exists l.
  - right. by exists l.
Qed.

Lemma post_node_paths (c : node) (p : path) (e : event) :
  e ∈ post_node p c -> exists rel, event_path e = p ++ rel.
Proof.
  revert p. induction c as [d|lk|es IH] using node_ind'; intros p.
  - intros ->%list_elem_of_singleton. exists []. by rewrite app_nil_r.
  - intros ->%list_elem_of_singleton. exists []. by rewrite app_nil_r.
  - rewrite post_node_dir, elem_of_cons, elem_of_app, post_events_elem,
      list_elem_of_singleton.
    intros [->|[(s & c & Hin & He)| ->]]; [exists []; by rewrite app_nil_r| |
      exists []; by rewrite app_nil_r].
    rewrite Forall_forall in IH.
    destruct (IH (s, c) Hin (p ++ [s]) He) as [rel ->].
    exists (s :: rel). by rewrite <- app_assoc.
Qed.

Lemma sibling_apart (p : path) (s s' : string) (rel rel' : path) :
  s <> s' -> ~ ((p ++ [s']) ++ rel') `prefix_of` ((p ++ [s]) ++ rel).
Proof.
  intros Hne Hpre. rewrite <- !app_assoc in Hpre.
  apply prefix_app_inv in Hpre. cbn in Hpre.
  by apply prefix_cons_inv_1 in Hpre.
Qed.

Lemma below_longer (p : path) (s : string) (rel : path) :
  ~ ((p ++ [s]) ++ rel) `prefix_of` p.
Proof.
  intros Hpre. apply prefix_length in Hpre.
  rewrite !length_app in Hpre. cbn in Hpre. lia.
Qed.

Lemma pre_events_ordered (p : path) (es : entries) :
  NoDup es.*1 -> Forall (fun e => forall p, pre_ordered (pre_node p e.2)) es ->
  pre_ordered (pre_events p es).
Proof.
  induction es as [|[s c] es IH]; intros Hnd Hall l1 l2 q Heq.
  { by destruct l1. }
  csimpl in Hnd. apply NoDup_cons in Hnd as [Hs Hnd].
  apply Forall_cons in Hall as [Hc Hall]. cbn [snd] in Hc.
  rewrite pre_events_cons in Heq.
  apply split_at in Heq as [(l & Ha & ->)|(l & -> & Hb)].
  - by apply (Hc (p ++ [s]) l1 l q).
  - intros e He Hcb. apply elem_of_app in He as [He|He].
    + destruct (pre_node_paths _ _ _ He) as [rel ->].
      assert (Hq : EOnDir q ∈ pre_events p es).
      { rewrite Hb. apply elem_of_app. right. by left. }
      apply pre_events_elem in Hq as (s' & c' & Hin & Hq).
      destruct (pre_node_paths _ _ _ Hq) as [rel' Hrel']. cbn in Hrel'.
      rewrite Hrel'. apply sibling_apart. intros ->. apply Hs.
      apply list_elem_of_fmap. by exists (s', c').
    + by apply (IH Hnd Hall l l2 q Hb).
Qed.

Lemma pre_node_ordered (c : node) : wf_node c -> forall p, pre_ordered (pre_node p c).
Proof.
  induction c as [d|lk|es IH] using node_ind'; intros Hwf p l1 l2 q Heq.
  - destruct l1 as [|? [|? ?]]; done.
  - destruct l1 as [|? [|? ?]]; done.
  - apply wf_node_dir in Hwf as (Hnd & _ & Hwfs).
    rewrite pre_node_dir in Heq.
    destruct l1 as [|x1 l1]; [intros e He; by apply elem_of_nil in He|].
    injection Heq as <- Heq. destruct l1 as [|x2 l1]; [done|].
    injection Heq as <- Heq. destruct l1 as [|x3 l1]; [done|].
    injection Heq as <- Heq.
    intros e He Hcb. rewrite !elem_of_cons in He.
    destruct He as [->|[->|[->|He]]]; try done.
    + assert (Hq : EOnDir q ∈ pre_events p es).
      { rewrite Heq. apply elem_of_app. right. by left. }
      apply pre_events_elem in Hq as (s' & c' & Hin & Hq).
      destruct (pre_node_paths _ _ _ Hq) as [rel' Hrel']. cbn in Hrel'.
      rewrite Hrel'. apply below_longer.
    + apply (pre_events_ordered p es Hnd) with (l1 := l1) (l2 := l2); try done.
      rewrite Forall_forall in IH, Hwfs. apply Forall_forall.
      intros x Hx. by apply IH, Hwfs.
Qed.

Lemma post_events_ordered (p : path) (es : entries) :
  NoDup es.*1 -> Forall (fun e => forall p, post_ordered (post_node p e.2)) es ->
  post_ordered (post_events p es).
Proof.
  induction es as [|[s c] es IH]; intros Hnd Hall l1 l2 q Heq.
  { by destruct l1. }
  csimpl in Hnd. apply NoDup_cons in Hnd as [Hs Hnd].
  apply Forall_cons in Hall as [Hc Hall]. cbn [snd] in Hc.
  rewrite post_events_cons in Heq.
  apply split_at in Heq as [(l & Ha & ->)|(l & -> & Hb)].
  - intros e He Hcb. apply elem_of_app in He as [He|He].
    + by apply (Hc (p ++ [s]) l1 l q Ha).
    + apply post_events_elem in He as (s' & c' & Hin & He).
      destruct (post_node_paths _ _ _ He) as [rel' ->].
      assert (Hq : EOnDir q ∈ post_node (p ++ [s]) c).
      { rewrite Ha. apply elem_of_app. right. by left. }
      destruct (post_node_paths _ _ _ Hq) as [rel Hrel]. cbn in Hrel.
      rewrite Hrel. apply sibling_apart. intros ->. apply Hs.
      apply list_elem_of_fmap. by exists (s, c').
  - by apply (IH Hnd Hall l l2 q Hb).
Qed.

Lemma post_node_ordered (c : node) :
  wf_node c -> forall p, post_ordered (post_node p c).
Proof.
  induction c as [d|lk|es IH] using node_ind'; intros Hwf p l1 l2 q Heq.
  - destruct l1 as [|? [|? ?]]; done.
  - destruct l1 as [|? [|? ?]]; done.
  - apply wf_node_dir in Hwf as (Hnd & _ & Hwfs).
    rewrite post_node_dir in Heq.
    destruct l1 as [|x1 l1]; [done|]. injection Heq as <- Heq.
    apply split_at in Heq as [(l & Ha & ->)|(l & -> & Hb)].
    + intros e He Hcb. apply elem_of_app in He as [He|He].
      * apply (post_events_ordered p es Hnd) with (l1 := l1) (l2 := l); try done.
        rewrite Forall_forall in IH, Hwfs. apply Forall_forall.
        intros x Hx. by apply IH, Hwfs.
      * apply list_elem_of_singleton in He as ->.
        assert (Hq : EOnDir q ∈ post_events p es).
        { rewrite Ha. apply elem_of_app. right. by left. }
        apply post_events_elem in Hq as (s' & c' & Hin & Hq).
        destruct (post_node_paths _ _ _ Hq) as [rel' Hrel']. cbn in Hrel'.
        rewrite Hrel'. apply below_longer.
    + destruct l as [|y l].
      * injection Hb as <- <-. intros e He. by apply elem_of_nil in He.
      * injection Hb as _ Hb. by destruct l.
Qed.



(** X3.  [canSafelyOverwrite]: true exactly for a path that does not resolve
    and for an empty directory; for a directory, whether it is empty; for a
    path that names a regular file it throws [ENOTDIR]. *)
Theorem canSafelyOverwrite_cases (t : node) (dir : path) :
  (canSafelyOverwrite t dir = Ok true <->
     (exists e, walk t dir = Throw e) \/ walk t dir = Ok (Dir [])) /\
  (forall es, walk t dir = Ok (Dir es) ->
     canSafelyOverwrite t dir = Ok (bool_decide (es = []))) /\
  (forall d, walk t dir = Ok (File d) ->
     canSafelyOverwrite t dir = Throw ENOTDIR).
Proof.
  unfold canSafelyOverwrite, existsSync, readdirSync, statSync.
  split; [|split].
  - destruct (walk t dir) as [[d|lk|es]|e| |] eqn:Hw; cbn.
    + split; [done|]. intros [[e He]|He]; done.
    + split; [done|]. intros [[e He]|He]; done.
    + destruct es as [|x es]; cbn.
      * split; [by right|done].
      * split; [done|]. intros [[e He]|He]; done.
    + split; [|done]. intros _. left. by exists e.
    + split; [done|]. intros [[e He]|He]; done.
    + split; [done|]. intros [[e He]|He]; done.
  - intros es ->. cbn. by destruct es.
  - by intros d ->.
Qed.

End OrderFacts.

(** * The copying branches of [renderTemplate] *)

Module CopyFacts.
Import JS FS Traverse Render TraverseFacts RenderFacts Index RenderWords MoreExamples TreeFacts EmptyDirFacts PruneFacts.

Lemma plain_dir (es : entries) :
  plain (Dir es) <->
  Forall (fun e => (isDirectory e.2 = false -> startsWith_underscore e.1 = false) /\
                   plain e.2) es.
Proof.
  induction es as [|[s c] es IH]; [by split; [constructor|]|].
  rewrite Forall_cons. cbn [fst snd]. rewrite <- IH. cbn. tauto.
Qed.

Lemma apart_app (p q a b : path) : apart p q -> apart (p ++ a) (q ++ b).
Proof.
  intros [H1 H2]. split; intros Hpre.
  - assert (Hp : p `prefix_of` q ++ b).
    { etrans; [|exact Hpre]. by apply prefix_app_r. }
    destruct (prefix_weak_total p q (q ++ b) Hp) as [?|?]; try done.
    by apply prefix_app_r.
  - assert (Hq : q `prefix_of` p ++ a).
    { etrans; [|exact Hpre]. by apply prefix_app_r. }
    destruct (prefix_weak_total q p (p ++ a) Hq) as [?|?]; try done.
    by apply prefix_app_r.
Qed.

Lemma set_entry_absent (s : string) (n : node) (es : entries) :
  s ∉ es.*1 -> set_entry s n es = es ++ [(s, n)].
Proof.
  induction es as [|[s' n'] es IH]; [done|]. csimpl. intros Hs.
  apply not_elem_of_cons in Hs as [Hne Hs]. rewrite decide_False by done.
  by rewrite IH.
Qed.

Lemma mkdir_fresh (dn : string) (dparent : path) :
  forall t ds, walk t dparent = Ok (Dir ds) -> dn ∉ ds.*1 ->
  mkdirSync t (dparent ++ [dn]) = put t (dparent ++ [dn]) (Dir []).
Proof.
  induction dparent as [|s0 p IH]; intros t ds Hw Hdn.
  - cbn in Hw. injection Hw as ->. cbn. rewrite entry_absent by done. cbn.
    by rewrite set_entry_absent.
  - cbn [walk] in Hw. destruct t as [d|lk|es0]; try done.
    destruct (entry s0 es0) as [c|] eqn:He; [|done].
    change ((s0 :: p) ++ [dn]) with (s0 :: (p ++ [dn])).
    cbn [mkdirSync]. rewrite He, (IH c ds Hw Hdn).
    destruct (p ++ [dn]) as [|s1 p1] eqn:E; [by destruct p|].
    by rewrite put_cons, He.
Qed.

Lemma fresh_missing (t : node) (dparent : path) (ds : entries) (dn : string) :
  walk t dparent = Ok (Dir ds) -> dn ∉ ds.*1 ->
  walk t (dparent ++ [dn]) = Throw ENOENT.
Proof.
  intros Hw Hdn. rewrite walk_app, Hw. cbn [rbind walk].
  by rewrite entry_absent.
Qed.

Lemma put_fresh (t : node) (dparent : path) (ds : entries) (dn : string) (n : node) :
  walk t dparent = Ok (Dir ds) -> dn ∉ ds.*1 ->
  exists t', put t (dparent ++ [dn]) n = Ok t' /\
    put t dparent (Dir (ds ++ [(dn, n)])) = Ok t' /\
    walk t' dparent = Ok (Dir (ds ++ [(dn, n)])).
Proof.
  intros Hw Hdn.
  destruct (put_at (Dir (ds ++ [(dn, n)])) t dparent _ Hw) as (t' & Hput & Hw').
  exists t'. split; [|done].
  by rewrite (put_child_eq n dn dparent t ds Hw), set_entry_absent.
Qed.

Section copy_entries.
Context (JSON_parse : string -> heap -> res (val * heap)).
Context (JSON_stringify : heap -> val -> nat -> res string).
Context (mergeFuel : nat).

Lemma copy_file (fuel : nat) (t : node) (src : path) (l : list event)
    (dparent : path) (dn : string) (ds : entries) (d : string) :
  walk t src = Ok (File d) -> walk t dparent = Ok (Dir ds) -> dn ∉ ds.*1 ->
  startsWith_underscore (basename src) = false ->
  exists t',
    renderTemplate JSON_parse JSON_stringify mergeFuel (S fuel) src
      (dparent ++ [dn]) (World t l) =
      Ok (World t' (l ++ [ECopyFile src (dparent ++ [dn])])) /\
    put t (dparent ++ [dn]) (File d) = Ok t'.
Proof.
  intros Hsrc Hdp Hdn Hname.
  pose proof (fresh_missing t dparent ds dn Hdp Hdn) as Hmiss.
  destruct (put_fresh t dparent ds dn (File d) Hdp Hdn) as (t' & Hput & _).
  exists t'. split; [|done].
  cbn [renderTemplate tree]. unfold statSync. rewrite Hsrc. cbn [rbind isDirectory].
  unfold render_file. cbn [tree].
  assert (Hex : (if decide (basename src = "package.json"%string)
                 then existsSync t (dparent ++ [dn]) else Ok false) = Ok false).
  { destruct (decide _); [|done]. unfold existsSync, statSync. by rewrite Hmiss. }
  rewrite Hex. cbn [rbind]. rewrite Hname.
  unfold change, copyFileSync, readFileSync, writeFileSync, statSync. cbn [tree log].
  rewrite Hsrc, Hmiss. cbn [rbind]. by rewrite Hput.
Qed.

Lemma copy_loop (fuel : nat) (src dest : path) (all : entries) (es : entries) :
  Forall (fun e => copies JSON_parse JSON_stringify mergeFuel e.2) es ->
  Forall (fun e => depth e.2 <= fuel)%nat es ->
  Forall (fun e => isDirectory e.2 = false -> startsWith_underscore e.1 = false) es ->
  Forall ok_name es.*1 ->
  NoDup all.*1 -> (forall e, e ∈ es -> e ∈ all) ->
  apart src dest ->
  forall done t l, walk t src = Ok (Dir all) -> walk t dest = Ok (Dir done) ->
  NoDup (done.*1 ++ es.*1) ->
  exists t' l',
    forEach
      (fun file w =>
         renderTemplate JSON_parse JSON_stringify mergeFuel (S fuel)
           (path_resolve src file) (path_resolve dest file) w)
      es.*1 (World t l) = Ok (World t' l') /\
    put t dest (Dir (done ++ es)) = Ok t'.
Proof.
  induction es as [|[s c] es IH];
    intros Hcp Hdepth Hplain Hnames Hnda Hsub Hapart done t l Hsrc Hdest Hnd.
  { exists t, l. split; [done|]. rewrite app_nil_r. by apply put_same. }
  apply Forall_cons in Hcp as [Hc Hcp]. apply Forall_cons in Hdepth as [Hd Hdepth].
  apply Forall_cons in Hplain as [Hp Hplain].
  csimpl in Hnames. apply Forall_cons in Hnames as [Hs Hnames].
  csimpl in Hnd. cbn [fst snd] in *.
  assert (Hs_done : s ∉ done.*1).
  { apply NoDup_app in Hnd as (_ & Hdis & _). intros Hin.
    apply (Hdis s Hin). by left. }
  assert (Hwc : walk t (src ++ [s]) = Ok c).
  { apply (walk_child t src all s c Hsrc Hnda). apply Hsub. by left. }
  destruct (Hc fuel t (src ++ [s]) l dest s done Hwc Hdest Hs_done)
    as (t2 & l2 & Hrun & Hput2).
  { by apply apart_app. }
  { by rewrite basename_app. }
  { done. }
  destruct (put_fresh t dest done s c Hdest Hs_done) as (t2' & Hput2' & Hputd & Hw2).
  assert (t2' = t2) as -> by congruence.
  assert (Hsrc2 : walk t2 src = Ok (Dir all)).
  { rewrite <- Hsrc. apply (walk_put_other c (dest ++ [s]) t); [done| |].
    - intros Hpre. destruct Hapart as [_ H2]. apply H2.
      etrans; [|exact Hpre]. by apply prefix_app_r.
    - intros Hpre. destruct Hapart as [H1 H2].
      assert (Hsd : src `prefix_of` dest ++ [s]) by done.
      destruct (prefix_weak_total src dest (dest ++ [s]) Hsd) as [?|?]; try done.
      by apply prefix_app_r. }
  destruct (IH Hcp Hdepth Hplain Hnames Hnda) with (done := done ++ [(s, c)])
    (t := t2) (l := l2) as (t' & l' & Hrun' & Hput'); try done.
  { intros e He. apply Hsub. by right. }
  { rewrite fmap_app. csimpl. by rewrite <- app_assoc. }
  exists t', l'. split.
  - change (((s, c) :: es).*1) with (s :: es.*1). cbn [forEach].
    rewrite !(path_resolve_ok _ s Hs), Hrun. cbn [rbind]. exact Hrun'.
  - rewrite <- app_assoc in Hput'. cbn [app] in Hput'.
    by rewrite <- (put_twice _ _ dest t t2 Hputd).
Qed.

End copy_entries.

Section copy_nodes.
Context (JSON_parse : string -> heap -> res (val * heap)).
Context (JSON_stringify : heap -> val -> nat -> res string).
Context (mergeFuel : nat).

Lemma renderTemplate_S (fuel : nat) (src dest : path) (w : world) :
  renderTemplate JSON_parse JSON_stringify mergeFuel (S fuel) src dest w =
  let* stats := statSync (tree w) src in
  if isDirectory stats then
    let* w := change (EMkdir dest) (fun t => mkdirSync t dest) w in
    let* r := observe (EReaddir src) (fun t => readdirSync t src) w in
    let '(files, w) := r in
    forEach (fun file w =>
               renderTemplate JSON_parse JSON_stringify mergeFuel fuel
                 (path_resolve src file) (path_resolve dest file) w)
      files w
  else render_file JSON_parse JSON_stringify mergeFuel src dest w.
Proof. done. Qed.

Lemma copy_node (n : node) :
  wf_node n -> plain n -> copies JSON_parse JSON_stringify mergeFuel n.
Proof.
  induction n as [d|lk|es IH] using node_ind';
    intros Hwf Hplain fuel t src l dparent dn ds Hsrc Hdp Hdn Hapart Hname Hdepth.
  - destruct (copy_file JSON_parse JSON_stringify mergeFuel fuel t src l
                dparent dn ds d Hsrc Hdp Hdn (Hname eq_refl)) as (t' & Hrun & Hput).
    eauto.
  - done.
  - apply wf_node_dir in Hwf as (Hnd & Hnames & Hwfs).
    apply plain_dir in Hplain.
    destruct fuel as [|fuel]; [cbn in Hdepth; lia|].
    destruct (put_fresh t dparent ds dn (Dir []) Hdp Hdn) as (t1 & Hput1 & _ & _).
    pose proof (walk_put _ _ _ _ Hput1) as Hdest1.
    assert (Hsrc1 : walk t1 src = Ok (Dir es)).
    { rewrite <- Hsrc. destruct Hapart as [H1 H2].
      by apply (walk_put_other (Dir []) (dparent ++ [dn]) t). }
    destruct (copy_loop JSON_parse JSON_stringify mergeFuel fuel src
                (dparent ++ [dn]) es es) with (done := @nil (string * node))
      (t := t1) (l := l ++ [EMkdir (dparent ++ [dn])] ++ [EReaddir src])
      as (t' & l' & Hrun & Hput'); try done.
    + rewrite Forall_forall in IH, Hwfs, Hplain. apply Forall_forall.
      intros e He. apply IH; [done|by apply Hwfs|by apply Hplain].
    + apply Forall_forall. intros [s c] He.
      pose proof (depth_dir es s c He). cbn [snd]. lia.
    + eapply Forall_impl; [exact Hplain|]. by intros e [? _].
    + exists t', l'. split.
      * rewrite renderTemplate_S. cbn [tree]. unfold statSync. rewrite Hsrc.
        cbn [rbind isDirectory]. unfold change. cbn [tree log].
        rewrite (mkdir_fresh dn dparent t ds Hdp Hdn), Hput1. cbn [rbind].
        unfold observe, emit. cbn [tree log].
        rewrite (readdirSync_dir t1 src es Hsrc1). cbn [rbind].
        rewrite <- app_assoc. exact Hrun.
      * cbn [app] in Hput'. by rewrite <- (put_twice _ _ _ t t1 Hput1).
Qed.

(** X5.  Rendering a template directory, without links and without file names
    that start with an underscore, into a destination that is not there yet:
    the destination becomes a copy of the directory, the template is
    unchanged, and so is everything that is not on the way to the
    destination. *)
Theorem render_copies_directory (fuel : nat) (src dparent : path) (dn : string)
    (w : world) (es ds : entries) :
  wf_node (Dir es) -> plain (Dir es) ->
  walk (tree w) src = Ok (Dir es) ->
  walk (tree w) dparent = Ok (Dir ds) -> dn ∉ ds.*1 ->
  apart src (dparent ++ [dn]) ->
  (depth (Dir es) <= fuel)%nat ->
  exists t' l',
    renderTemplate JSON_parse JSON_stringify mergeFuel (S fuel) src
      (dparent ++ [dn]) w = Ok (World t' l') /\
    put (tree w) (dparent ++ [dn]) (Dir es) = Ok t' /\
    walk t' (dparent ++ [dn]) = Ok (Dir es) /\
    walk t' src = Ok (Dir es) /\
    forall q, apart (dparent ++ [dn]) q -> walk t' q = walk (tree w) q.
Proof.
  intros Hwf Hplain Hsrc Hdp Hdn Hapart Hdepth. destruct w as [t l]. cbn [tree] in *.
  destruct (copy_node (Dir es) Hwf Hplain fuel t src l dparent dn ds)
    as (t' & l' & Hrun & Hput); try done.
  exists t', l'. split; [done|]. split; [done|].
  assert (Hother : forall q, apart (dparent ++ [dn]) q -> walk t' q = walk t q).
  { intros q [H1 H2]. by apply (walk_put_other (Dir es) (dparent ++ [dn]) t). }
  split; [by apply (walk_put _ _ t)|]. split; [|done].
  rewrite <- Hsrc. apply Hother. by destruct Hapart.
Qed.

End copy_nodes.

Section copy_files.
Context (JSON_parse : string -> heap -> res (val * heap)).
Context (JSON_stringify : heap -> val -> nat -> res string).
Context (mergeFuel : nat).

(** X6.  A file whose name does not start with an underscore, and that is not
    a [package.json] with a destination to merge with, is copied to the
    destination path as it is, over a file that is there; nothing is parsed,
    and nothing changes at a path that is not on the way to the destination. *)
Theorem render_copies_file (fuel : nat) (src dest : path) (w : world)
    (data : string) (es : entries) :
  statSync (tree w) src = Ok (File data) ->
  startsWith_underscore (basename src) = false ->
  basename src <> "package.json"%string \/ existsSync (tree w) dest = Ok false ->
  dest <> [] ->
  walk (tree w) (dirname dest) = Ok (Dir es) ->
  (forall n, entry (basename dest) es = Some n -> exists d, n = File d) ->
  exists t',
    renderTemplate JSON_parse JSON_stringify mergeFuel (S fuel) src dest w =
      Ok (World t' (log w ++ [ECopyFile src dest])) /\
    lstatSync t' dest = Ok (File data) /\
    forall q, apart dest q -> walk t' q = walk (tree w) q.
Proof.
  intros Hsrc Hname Hpkg Hne Hdir Hentry.
  assert (Hdest : dest = dirname dest ++ [basename dest]).
  { unfold dirname, basename. by apply app_removelast_last. }
  destruct (put_child (tree w) (dirname dest) es (basename dest) (File data) Hdir)
    as (t' & Hput & Hwalk).
  rewrite <- Hdest in Hput, Hwalk.
  exists t'. split; [|split; [done|]].
  - rewrite renderTemplate_S, Hsrc. cbn [rbind isDirectory].
    unfold render_file.
    assert (Hex : (if decide (basename src = "package.json"%string)
                   then existsSync (tree w) dest else Ok false) = Ok false).
    { destruct (decide _) as [Heq|]; [|done]. by destruct Hpkg. }
    rewrite Hex. cbn [rbind]. rewrite Hname.
    unfold change, copyFileSync, readFileSync. rewrite Hsrc. cbn [rbind].
    unfold writeFileSync, statSync. rewrite Hdest at 1.
    rewrite walk_app, Hdir. cbn [rbind walk].
    destruct (entry (basename dest) es) as [n|] eqn:He.
    + destruct (Hentry n eq_refl) as [d ->]. by rewrite Hput.
    + by rewrite Hput.
  - intros q [H1 H2]. by apply (walk_put_other (File data) dest (tree w)).
Qed.

End copy_files.

Lemma render_copies_directory_witness :
  exists t' l',
    renderTemplate parse_example stringify_example 5 4 ["tpl"]%string
      (["out"%string] ++ ["app"%string]) (World starter []) = Ok (World t' l') /\
    put starter (["out"%string] ++ ["app"%string])
      (Dir [("src", Dir [("main.js", File "m")]);
            ("package.json", File "new"); ("README", File "r")]%string) = Ok t' /\
    walk t' (["out"%string] ++ ["app"%string]) =
      Ok (Dir [("src", Dir [("main.js", File "m")]);
               ("package.json", File "new"); ("README", File "r")]%string) /\
    walk t' ["tpl"]%string =
      Ok (Dir [("src", Dir [("main.js", File "m")]);
               ("package.json", File "new"); ("README", File "r")]%string) /\
    forall q, apart (["out"%string] ++ ["app"%string]) q -> walk t' q = walk starter q.
Proof.
  apply (render_copies_directory parse_example stringify_example 5 3
           ["tpl"]%string ["out"]%string "app"%string (World starter [])
           [("src", Dir [("main.js", File "m")]);
            ("package.json", File "new"); ("README", File "r")]%string []).
  - wf_tree.
  - cbn. repeat split; done.
  - reflexivity.
  - reflexivity.
  - cbn. apply not_elem_of_nil.
  - split; intros [k Hk]; discriminate Hk.
  - cbn. lia.
Defined.

Lemma render_copies_file_witness :
  exists t',
    renderTemplate parse_example stringify_example 5 1 ["tpl"; "main.js"]%string
      ["out"; "main.js"]%string (World template []) =
      Ok (World t' ([] ++ [ECopyFile ["tpl"; "main.js"]%string ["out"; "main.js"]%string])) /\
    lstatSync t' ["out"; "main.js"]%string = Ok (File "m") /\
    forall q, apart ["out"; "main.js"]%string q -> walk t' q = walk template q.
Proof.
  apply (render_copies_file parse_example stringify_example 5 0
           ["tpl"; "main.js"]%string ["out"; "main.js"]%string (World template [])
           "m"%string []).
  - reflexivity.
  - reflexivity.
  - left. discriminate.
  - discriminate.
  - reflexivity.
  - intros n Hn. discriminate Hn.
Defined.

End CopyFacts.

(** * [emptyDir], [canSafelyOverwrite] and the clean-up pass together *)

Module ComposeFacts.
Import JS FS Traverse TraverseFacts RenderFacts Index TreeFacts EmptyDirFacts PruneFacts.

Lemma pruned_names (es : entries) (x : string) :
  x ∈ (pruned_entries es).*1 -> x ∈ es.*1.
Proof.
  induction es as [|[s c] es IH]; [done|]. rewrite pruned_entries_cons.
  change (((s, c) :: es).*1) with (s :: es.*1).
  destruct c as [d|lk|sub]; [| |destruct (is_test_dir s)]; csimpl;
    rewrite ?elem_of_cons; try (intros [->|H]; [by left|right; by apply IH]).
  intros H. right. by apply IH.
Qed.

Lemma pruned_names_NoDup (es : entries) :
  NoDup es.*1 -> NoDup (pruned_entries es).*1.
Proof.
  induction es as [|[s c] es IH]; [done|]. rewrite pruned_entries_cons.
  change (((s, c) :: es).*1) with (s :: es.*1). rewrite NoDup_cons.
  intros [Hs Hnd].
  assert (Hkeep : forall c', NoDup (((s, c') :: pruned_entries es).*1)).
  { intros c'. csimpl. apply NoDup_cons. split; [|by apply IH].
    intros Hin. by apply Hs, pruned_names. }
  destruct c as [d|lk|sub]; [apply Hkeep|apply Hkeep|].
  destruct (is_test_dir s); [by apply IH|apply Hkeep].
Qed.

Lemma pruned_wf (n : node) : wf_node n -> wf_node (pruned n).
Proof.
  induction n as [d|lk|es IH] using node_ind'; [done|done|].
  rewrite pruned_dir, !wf_node_dir. intros (Hnd & Hnames & Hwfs).
  split; [by apply pruned_names_NoDup|]. split.
  - apply Forall_forall. intros x Hx. rewrite Forall_forall in Hnames.
    by apply Hnames, pruned_names.
  - clear Hnd Hnames. induction es as [|[s c] es IHes]; [constructor|].
    apply Forall_cons in IH as [IHc IH]. apply Forall_cons in Hwfs as [Hc Hwfs].
    cbn [snd] in *. rewrite pruned_entries_cons. specialize (IHes IH Hwfs).
    destruct c as [d|lk|sub]; [by constructor|by constructor|].
    destruct (is_test_dir s); [done|]. constructor; [by apply IHc|done].
Qed.

Lemma depth_dir_cons (s : string) (c : node) (es : entries) :
  depth (Dir ((s, c) :: es)) = S (Nat.max (depth c) (Nat.pred (depth (Dir es)))).
Proof. done. Qed.

Lemma pruned_depth (n : node) : (depth (pruned n) <= depth n)%nat.
Proof.
  induction n as [d|lk|es IH] using node_ind'; [done|done|].
  rewrite pruned_dir. induction es as [|[s c] es IHes]; [done|].
  apply Forall_cons in IH as [IHc IH]. cbn [snd] in IHc. specialize (IHes IH).
  rewrite pruned_entries_cons, depth_dir_cons.
  assert (Hd : forall es', depth (Dir es') = S (Nat.pred (depth (Dir es')))) by done.
  destruct c as [d|lk|sub]; [| |destruct (is_test_dir s)];
    rewrite ?depth_dir_cons; cbn [depth] in *; lia.
Qed.

(** Nothing is left to take away from a tree without its test directories. *)
Lemma pruned_idem (n : node) : pruned (pruned n) = pruned n.
Proof.
  induction n as [d|lk|es IH] using node_ind'; [done|done|].
  rewrite !pruned_dir. f_equal.
  induction es as [|[s c] es IHes]; [done|].
  apply Forall_cons in IH as [IHc IH]. cbn [snd] in IHc. specialize (IHes IH).
  rewrite pruned_entries_cons.
  destruct c as [d|lk|sub].
  - rewrite pruned_entries_cons. by rewrite IHes.
  - rewrite pruned_entries_cons. by rewrite IHes.
  - destruct (is_test_dir s) eqn:Ht; [done|].
    rewrite pruned_entries_cons. rewrite pruned_dir at 1. rewrite Ht.
    by rewrite IHc, IHes.
Qed.

(** X16.  [emptyDir] and [canSafelyOverwrite]: once a directory has been
    emptied, it can be overwritten safely. *)
Theorem emptyDir_then_safe (t : node) (dir : path) (es : entries) (fuel : nat) :
  wf_node (Dir es) -> walk t dir = Ok (Dir es) ->
  (depth (Dir es) <= fuel)%nat ->
  exists t', emptyDir fuel dir t = Ok t' /\ canSafelyOverwrite t' dir = Ok true.
Proof.
  intros Hwf Hw Hdepth.
  destruct (emptyDir_node (Dir es) Hwf fuel t dir es eq_refl Hdepth Hw)
    as (t' & Hrun & Hput).
  exists t'. split; [done|].
  pose proof (walk_put _ _ _ _ Hput) as Hw'.
  unfold canSafelyOverwrite, existsSync, readdirSync, statSync.
  by rewrite Hw'.
Qed.

Lemma emptyDir_then_safe_witness :
  canSafelyOverwrite project ["proj"%string] = Ok false /\
  exists t', emptyDir 4 ["proj"%string] project = Ok t' /\
    canSafelyOverwrite t' ["proj"%string] = Ok true.
Proof.
  split; [reflexivity|].
  apply (emptyDir_then_safe project ["proj"%string] project_entries 4).
  - wf_tree.
  - reflexivity.
  - cbn. lia.
Defined.



End ComposeFacts.

(** * Pre-order traversal with a callback that deletes *)

Module DeletionFacts.
Import JS FS Traverse TraverseFacts RenderFacts Index TreeFacts EmptyDirFacts PruneFacts Deletion.

Lemma not_dirs_cons (s : string) (c : node) (es : entries) :
  not_dirs ((s, c) :: es) =
  if isDirectory c then not_dirs es else (s, c) :: not_dirs es.
Proof.
  unfold not_dirs. rewrite filter_cons. cbn [snd].
  destruct (isDirectory c); [by rewrite decide_False|by rewrite decide_True].
Qed.

Lemma not_dirs_names (es : entries) (x : string) :
  x ∈ (not_dirs es).*1 -> x ∈ es.*1.
Proof.
  intros H. apply list_elem_of_fmap in H as ([s c] & -> & Hin).
  apply list_elem_of_filter in Hin as [_ Hin].
  apply list_elem_of_fmap. by exists (s, c).
Qed.

Lemma rmSync_deletes : deletes rmSync.
Proof.
  intros dir s t es sub Hw He. unfold rmSync.
  by apply (remove_child_eq _ s (Dir sub)).
Qed.

Section skip.
Context (dirCallback fileCallback : callback).
Context (Hdir : deletes dirCallback).
Context (Hfile : forall p t, fileCallback p t = Ok t).

Lemma skip_loop (rec : path -> world -> res world) (dir : path) (es : entries) :
  Forall ok_name es.*1 ->
  forall done t l, walk t dir = Ok (Dir (done ++ es)) ->
  NoDup (done.*1 ++ es.*1) ->
  exists t',
    forEach (preOrder_entry rec dir dirCallback fileCallback) es.*1 (World t l) =
      Ok (World t' (l ++ skip_events dir es)) /\
    put t dir (Dir (done ++ not_dirs es)) = Ok t'.
Proof using Hdir Hfile.
  induction es as [|[s c] es IH]; intros Hnames done t l Hw Hnd.
  { exists t. rewrite app_nil_r in Hw. cbn. rewrite ?app_nil_r.
    split; [done|]. by apply put_same. }
  csimpl in Hnames. apply Forall_cons in Hnames as [Hs Hnames].
  csimpl in Hnd.
  assert (Hs_done : s ∉ done.*1).
  { apply NoDup_app in Hnd as (_ & Hdis & _). intros Hin.
    apply (Hdis s Hin). by left. }
  assert (Hs_rest : s ∉ es.*1).
  { apply NoDup_app in Hnd as (_ & _ & Hnd). by apply NoDup_cons in Hnd as [? _]. }
  assert (Hnd_rest : NoDup (done.*1 ++ es.*1)).
  { apply NoDup_app in Hnd as (Hnd1 & Hdis & Hnd2).
    apply NoDup_cons in Hnd2 as [_ Hnd2]. apply NoDup_app.
    split; [done|]. split; [|done]. intros x Hx Hx'. apply (Hdis x Hx). by right. }
  assert (Hwc : walk t (dir ++ [s]) = Ok c).
  { rewrite walk_app, Hw. cbn [rbind walk]. by rewrite entry_mid. }
  change (((s, c) :: es).*1) with (s :: es.*1). cbn [forEach].
  unfold preOrder_entry at 1. rewrite (path_resolve_ok dir s Hs).
  unfold lstatSync. cbn [tree]. rewrite Hwc. cbn [rbind].
  rewrite not_dirs_cons.
  assert (Hlog : skip_events dir ((s, c) :: es) =
                 (if isDirectory c
                  then [EOnDir (dir ++ [s]); EExists (dir ++ [s]) false]
                  else [EOnFile (dir ++ [s])]) ++ skip_events dir es) by done.
  rewrite Hlog.
  destruct (isDirectory c) eqn:Hc.
  - destruct c as [| |sub]; try done.
    unfold change. cbn [tree log].
    rewrite (Hdir dir s t (done ++ (s, Dir sub) :: es) sub Hw) by by apply entry_mid.
    rewrite del_entry_mid by done.
    destruct (put_at (Dir (done ++ es)) t dir _ Hw) as (t1 & Hput1 & Hw1).
    rewrite Hput1. cbn [rbind tree].
    assert (Hex : existsSync t1 (dir ++ [s]) = Ok false).
    { unfold existsSync, statSync. rewrite walk_app, Hw1. cbn [rbind walk].
      rewrite entry_absent; [done|].
      rewrite fmap_app. apply not_elem_of_app. by split. }
    rewrite Hex. cbn [rbind]. unfold emit. cbn [tree log].
    destruct (IH Hnames done t1 ((l ++ [EOnDir (dir ++ [s])]) ++
                                   [EExists (dir ++ [s]) false]) Hw1 Hnd_rest)
      as (t' & Hrun & Hput').
    exists t'. rewrite Hrun. split.
    + by rewrite <- !app_assoc.
    + by rewrite <- (put_twice _ _ dir t t1 Hput1).
  - unfold change. cbn [tree log]. rewrite Hfile. cbn [rbind].
    destruct (IH Hnames (done ++ [(s, c)]) t (l ++ [EOnFile (dir ++ [s])]))
      as (t' & Hrun & Hput').
    + by rewrite <- app_assoc.
    + rewrite fmap_app. csimpl. by rewrite <- app_assoc.
    + exists t'. rewrite Hrun. split.
      * by rewrite <- !app_assoc.
      * by rewrite <- app_assoc in Hput'.
Qed.

End skip.

Lemma skip_events_shape (dir : path) (es : entries) (e : event) :
  e ∈ skip_events dir es ->
  exists s c, (s, c) ∈ es /\
    (e = EOnFile (dir ++ [s]) /\ isDirectory c = false \/
     (e = EOnDir (dir ++ [s]) \/ e = EExists (dir ++ [s]) false) /\
     isDirectory c = true).
Proof.
  unfold skip_events. intros He. apply list_elem_of_bind in He as ([s c] & He & Hin).
  exists s, c. split; [done|]. cbn [fst snd] in He.
  destruct (isDirectory c).
  - right. split; [|done]. apply elem_of_cons in He as [->|He]; [by left|].
    apply list_elem_of_singleton in He as ->. by right.
  - left. split; [|done]. by apply list_elem_of_singleton in He.
Qed.



(** The run of the witness, written out. *)
Example preOrder_rmSync :
  preOrderDirectoryTraverse 1 ["proj"%string] rmSync noop (World project []) =
  Ok (World
        (Dir [("proj", Dir [("lnk", Link "src"); ("README", File "r")])]%string)
        [EReaddir ["proj"];
         EOnDir ["proj"; "src"]; EExists ["proj"; "src"] false;
         EOnDir ["proj"; "cypress"]; EExists ["proj"; "cypress"] false;
         EOnFile ["proj"; "lnk"]; EOnFile ["proj"; "README"]]%string).
Proof. vm_compute. reflexivity. Qed.

End DeletionFacts.

(** * More on [deepMerge] *)

Module MergeMore.
Import JS DeepMerge MergeExamples Documents SortDeps DeepMergeFacts DocFacts SortFacts MoreExamples.





End MergeMore.

(** * More on [sortDependencies] *)

Module SortMore.
Import JS DeepMerge MergeExamples Documents SortDeps DeepMergeFacts DocFacts SortFacts MoreExamples.

Lemma plan_none (h : heap) (ps : props) (n : nat) (types : list string) :
  (forall t, t ∈ types ->
     match own ps (KName t) with
     | Some v => truthy v = false
     | None => True
     end) ->
  plan h ps n types = ([], []).
Proof.
  induction types as [|t ts IH]; intros Hall; [done|].
  cbn [plan]. pose proof (Hall t ltac:(by left)) as Ht.
  assert (Hrest : plan h ps n ts = ([], [])).
  { apply IH. intros t' Ht'. apply Hall. by right. }
  destruct (own ps (KName t)) as [[| | | | |dl]|]; try done.
Qed.

(** X9.  [sortDependencies] on a manifest in which each of the four fields is
    absent or falsy returns a new object with the properties of the manifest,
    keys in the same order: a shallow copy.  The manifest is not touched. *)
Theorem sortDependencies_plain_copy (h : heap) (p : loc) (ps : props) :
  h !! p = Some (OObj ps) -> NoDup ps.*1 -> key_ordered ps.*1 ->
  (forall t, t ∈ depTypes ->
     match own ps (KName t) with
     | Some v => truthy v = false
     | None => True
     end) ->
  sortDependencies (VRef p) h =
    Ok (VRef (S (length h)), h ++ [OObj []; OObj ps]) /\
  S (length h) <> p /\
  forall l o, h !! l = Some o -> (h ++ [OObj []; OObj ps]) !! l = Some o.
Proof.
  intros Hp Hnd Hord Hnone.
  pose proof (sortDependencies_spec h p ps Hp Hnd Hord) as Hrun.
  rewrite (plan_none h ps (S (length h)) depTypes Hnone) in Hrun.
  cbn [fst snd length overlay foldl app] in Hrun.
  split; [|split].
  - rewrite Hrun; [by rewrite Nat.add_0_r|]. intros t Ht. unfold field_ok.
    pose proof (Hnone t Ht) as Hf. destruct (own ps (KName t)); [by left|done].
  - apply lookup_lt_Some in Hp. lia.
  - intros l o Hl. by apply lookup_app_l_Some.
Qed.

Lemma sortDependencies_plain_copy_witness :
  sortDependencies (VRef 0%nat) bare_manifest =
    Ok (VRef 2%nat,
        bare_manifest ++
          [OObj [];
           OObj [(KName "name", VStr "app"); (KName "version", VStr "1");
                 (KName "private", VBool true); (KName "dependencies", VNull)]]) /\
  2%nat <> 0%nat /\
  forall l o, bare_manifest !! l = Some o ->
    (bare_manifest ++
       [OObj [];
        OObj [(KName "name", VStr "app"); (KName "version", VStr "1");
              (KName "private", VBool true); (KName "dependencies", VNull)]])
      !! l = Some o.
Proof.
  apply (sortDependencies_plain_copy bare_manifest 0
           [(KName "name", VStr "app"); (KName "version", VStr "1");
            (KName "private", VBool true); (KName "dependencies", VNull)]).
  - reflexivity.
  - apply (bool_decide_eq_true_1 _). vm_compute. reflexivity.
  - cbn. repeat constructor.
  - intros t Ht.
    repeat (apply elem_of_cons in Ht as [->|Ht]); try (by apply elem_of_nil in Ht);
      by cbn.
Defined.

(** X10.  [sortDependencies] does not write to what it is given: the object it
    returns and the mappings it puts in the four fields are new, and every
    object that was there is unchanged. *)
Theorem sortDependencies_writes_new (h : heap) (p : loc) (ps : props) :
  h !! p = Some (OObj ps) -> NoDup ps.*1 -> key_ordered ps.*1 ->
  (forall t, t ∈ depTypes -> field_ok h ps t) ->
  exists r h' qs,
    sortDependencies (VRef p) h = Ok (VRef r, h') /\
    h !! r = None /\ h' !! r = Some (OObj qs) /\
    (forall l o, h !! l = Some o -> h' !! l = Some o) /\
    (forall t dl dps, t ∈ depTypes -> own ps (KName t) = Some (VRef dl) ->
       h !! dl = Some (OObj dps) ->
       exists n, own qs (KName t) = Some (VRef n) /\ h !! n = None).
Proof.
  intros Hp Hnd Hord Hok.
  pose proof (sortDependencies_spec h p ps Hp Hnd Hord Hok) as Hrun.
  destruct (sortDependencies_sorted h p ps Hp Hnd Hord Hok)
    as (r & h' & qs & Hrun' & Hr & Hframe & _ & _ & _ & Hmap).
  exists r, h', qs. split; [done|]. split.
  - cbv zeta in Hrun. rewrite Hrun in Hrun'. injection Hrun' as <- _.
    apply lookup_ge_None. lia.
  - split; [done|]. split; [done|].
    intros t dl dps Ht Hv Hdl. destruct (Hmap t dl dps Ht Hv Hdl) as (n & Hn & Hfresh & _).
    eauto.
Qed.

Lemma sortDependencies_writes_new_witness :
  exists r h' qs,
    sortDependencies (VRef 0%nat) manifest = Ok (VRef r, h') /\
    manifest !! r = None /\ h' !! r = Some (OObj qs) /\
    (forall l o, manifest !! l = Some o -> h' !! l = Some o) /\
    (forall t dl dps, t ∈ depTypes ->
       own [(KName "name", VStr "app"); (KName "dependencies", VRef 1%nat);
            (KName "version", VStr "1")] (KName t) = Some (VRef dl) ->
       manifest !! dl = Some (OObj dps) ->
       exists n, own qs (KName t) = Some (VRef n) /\ manifest !! n = None).
Proof.
  apply (sortDependencies_writes_new manifest 0
           [(KName "name", VStr "app"); (KName "dependencies", VRef 1%nat);
            (KName "version", VStr "1")]).
  - reflexivity.
  - apply (bool_decide_eq_true_1 _). vm_compute. reflexivity.
  - cbn. repeat constructor.
  - intros t Ht. unfold field_ok.
    repeat (apply elem_of_cons in Ht as [->|Ht]); try (by apply elem_of_nil in Ht);
      cbn; try done.
    right. eexists _, _. split; [reflexivity|]. split; [reflexivity|].
    split; apply (bool_decide_eq_true_1 _); vm_compute; reflexivity.
Defined.

End SortMore.

(** * Package names and commands *)

Module NameFacts.
Import JS Names.

Lemma string_prefix_app (s t : string) : String.prefix s (s +:+ t) = true.
Proof.
  induction s as [|a s IH]; [by destruct t|].
  change (String.prefix (String a s) (String a (s +:+ t)) = true).
  cbn [String.prefix].
  destruct (ascii_dec a a) as [_|Hne]; [exact IH|by destruct Hne].
Qed.

(** X11.  The command [getCommand] builds starts with the name of the package
    manager it is given. *)
Theorem getCommand_runs_manager (packageManager scriptName : string) :
  String.prefix packageManager (getCommand packageManager scriptName) = true.
Proof.
  unfold getCommand.
  destruct (String.eqb scriptName "install").
  - destruct (String.eqb packageManager "yarn") eqn:E.
    + apply String.eqb_eq in E as ->. reflexivity.
    + apply string_prefix_app.
  - destruct (String.eqb packageManager "npm") eqn:E.
    + apply String.eqb_eq in E as ->. reflexivity.
    + apply string_prefix_app.
Qed.

(** X12.  For one package manager, two script names that get the same command
    are the same name. *)
Theorem getCommand_inj (packageManager s1 s2 : string) :
  getCommand packageManager s1 = getCommand packageManager s2 -> s1 = s2.
Proof.
  unfold getCommand.
  destruct (String.eqb s1 "install") eqn:E1, (String.eqb s2 "install") eqn:E2.
  - apply String.eqb_eq in E1, E2. congruence.
  - apply String.eqb_neq in E2.
    destruct (String.eqb packageManager "yarn") eqn:Ey,
             (String.eqb packageManager "npm") eqn:En;
      try apply String.eqb_eq in Ey as ->; try apply String.eqb_eq in En as ->;
      try done; intros H.
    apply (inj (String.app packageManager)) in H.
    cbv [String.append] in H. by injection H as <-.
  - apply String.eqb_neq in E1.
    destruct (String.eqb packageManager "yarn") eqn:Ey,
             (String.eqb packageManager "npm") eqn:En;
      try apply String.eqb_eq in Ey as ->; try apply String.eqb_eq in En as ->;
      try done; intros H.
    apply (inj (String.app packageManager)) in H.
    cbv [String.append] in H. by injection H as ->.
  - destruct (String.eqb packageManager "npm") eqn:En.
    + intros H. by apply (inj (String.app "npm run ")) in H.
    + intros H. apply (inj (String.app packageManager)) in H.
      by apply (inj (String.app " ")) in H.
Qed.

Lemma getCommand_inj_witness :
  getCommand "pnpm" "dev" = getCommand "pnpm" "dev" /\ "dev"%string = "dev"%string.
Proof.
  split; [reflexivity|]. by apply (getCommand_inj "pnpm" "dev" "dev").
Defined.

Lemma lang_nullable (r : regex) (s : list ascii) :
  lang r s -> s = [] -> nullable r = true.
Proof.
  induction 1 as [|f c Hc|r1 r2 s1 s2 _ IH1 _ IH2|r1 r2 s _ IH|r1 r2 s _ IH|r|
                  r s1 s2 _ _ _ _]; intros Hs; cbn; try done.
  - apply app_eq_nil in Hs as [-> ->]. by rewrite IH1, IH2.
  - by rewrite IH.
  - rewrite IH by done. by destruct (nullable r1).
Qed.

Lemma lang_deriv (r : regex) (cs : list ascii) :
  lang r cs -> forall c s, cs = c :: s -> lang (deriv c r) s.
Proof.
  induction 1 as [|f c0 Hc|r1 r2 s1 s2 H1 IH1 H2 IH2|r1 r2 s0 _ IH|r1 r2 s0 _ IH|r|
                  r s1 s2 H1 IH1 H2 IH2]; intros c s Heq; cbn [deriv]; try done.
  - injection Heq as -> <-. rewrite Hc. constructor.
  - destruct s1 as [|c1 s1].
    + cbn in Heq. rewrite (lang_nullable r1 [] H1 eq_refl).
      apply lang_alt_r. by apply IH2.
    + injection Heq as -> <-.
      assert (Hseq : lang (RSeq (deriv c r1) r2) (s1 ++ s2)).
      { constructor; [by apply IH1|done]. }
      destruct (nullable r1); [by apply lang_alt_l|done].
  - apply lang_alt_l. by apply IH.
  - apply lang_alt_r. by apply IH.
  - destruct s1 as [|c1 s1].
    + cbn in Heq. by apply IH2.
    + injection Heq as -> <-. constructor; [by apply IH1|done].
Qed.

(** The test accepts every string of the expression. *)
Lemma test_complete (s : list ascii) : forall r, lang r s -> test r s = true.
Proof.
  induction s as [|c s IH]; intros r Hr; cbn [test].
  - by apply (lang_nullable r []).
  - apply IH. by apply (lang_deriv r (c :: s)).
Qed.

Lemma name_first_facts (c : ascii) :
  name_first c = true ->
  name_rest c = true /\ is_space c = false /\ lower c = c /\ is_ascii c = true /\
  (chr "." c || chr "_" c) = false.
Proof.
  destruct c as [[] [] [] [] [] [] [] []]; vm_compute; intros H;
    try discriminate H; repeat split.
Qed.

Lemma lang_star_class (f : ascii -> bool) (s : list ascii) :
  Forall (fun c => f c = true) s -> lang (RStar (RClass f)) s.
Proof.
  induction 1 as [|c s Hc _ IH]; [constructor|].
  change (c :: s) with ([c] ++ s). constructor; [by constructor|done].
Qed.

Lemma name_valid (c : ascii) (s : list ascii) :
  name_first c = true -> Forall (fun c => name_first c = true) s ->
  test package_name_re (c :: s) = true.
Proof.
  intros Hc Hs. apply test_complete. unfold package_name_re.
  change (c :: s) with ([] ++ ([c] ++ s)). constructor.
  - apply lang_alt_r. constructor.
  - constructor; [by constructor|]. apply lang_star_class.
    eapply Forall_impl; [exact Hs|]. intros x Hx. by apply name_first_facts.
Qed.

Lemma replace_runs_class (cls : ascii -> bool) (rep s : list ascii) :
  Forall (fun c => cls c = false) rep ->
  Forall (fun c => cls c = false) (replace_runs cls rep s).
Proof.
  intros Hrep. induction s as [|c s IH]; [constructor|]. cbn [replace_runs].
  destruct (cls c) eqn:Hc.
  - destruct s as [|c' s]; [done|]. destruct (cls c'); [done|].
    by apply Forall_app.
  - by constructor.
Qed.

Lemma replace_runs_none (cls : ascii -> bool) (rep s : list ascii) :
  Forall (fun c => cls c = false) s -> replace_runs cls rep s = s.
Proof.
  induction 1 as [|c s Hc _ IH]; [done|]. cbn [replace_runs].
  by rewrite Hc, IH.
Qed.

(** What [toValidPackageName] returns is made of the characters
    [a-z0-9-~]. *)
Lemma toValid_chars (s : string) (r : string) :
  toValidPackageName s = Ok r ->
  Forall (fun c => name_first c = true) (String.list_ascii_of_string r).
Proof.
  unfold toValidPackageName. destruct (forallb is_ascii _); [|done].
  intros [= <-]. rewrite String.list_ascii_of_string_of_list_ascii.
  eapply Forall_impl.
  - apply (replace_runs_class (fun c => negb (name_first c)) ["-"%char]).
    by repeat constructor.
  - cbn. intros c Hc. by apply negb_false_iff.
Qed.

(** X13.  A name that [toValidPackageName] returns passes
    [isValidPackageName], unless it is the empty string. *)
Theorem toValidPackageName_valid (s r : string) :
  toValidPackageName s = Ok r -> r <> ""%string -> isValidPackageName r = true.
Proof.
  intros Hr Hne. pose proof (toValid_chars s r Hr) as Hchars.
  unfold isValidPackageName. destruct r as [|c r]; [done|].
  cbn [String.list_ascii_of_string] in *. apply Forall_cons in Hchars as [Hc Hchars].
  by apply name_valid.
Qed.

Lemma toValidPackageName_valid_witness :
  toValidPackageName "  My Cool.App  " = Ok "my-cool-app"%string /\
  isValidPackageName "my-cool-app" = true.
Proof.
  split; [vm_compute; reflexivity|].
  apply (toValidPackageName_valid "  My Cool.App  " "my-cool-app").
  - vm_compute. reflexivity.
  - discriminate.
Defined.

Lemma trim_start_id (s : list ascii) :
  Forall (fun c => is_space c = false) s -> trim_start s = s.
Proof. destruct 1 as [|c s Hc _]; [done|]. cbn. by rewrite Hc. Qed.

Lemma trim_id (s : list ascii) :
  Forall (fun c => is_space c = false) s -> trim s = s.
Proof.
  intros Hs. unfold trim. rewrite (trim_start_id s Hs).
  rewrite trim_start_id; [apply rev_involutive|]. by apply Forall_rev.
Qed.

Lemma map_lower_id (s : list ascii) :
  Forall (fun c => lower c = c) s -> map lower s = s.
Proof. induction 1 as [|c s Hc _ IH]; [done|]. cbn. by rewrite Hc, IH. Qed.

Lemma name_chars_fixed (s : list ascii) :
  Forall (fun c => name_first c = true) s ->
  forallb is_ascii s = true /\
  replace_runs (fun c => negb (name_first c)) ["-"%char]
    (drop_leading_mark
       (replace_runs is_space ["-"%char] (map lower (trim s)))) = s.
Proof.
  intros Hs.
  assert (Hall : Forall (fun c => name_rest c = true /\ is_space c = false /\
                   lower c = c /\ is_ascii c = true /\
                   (chr "." c || chr "_" c) = false) s).
  { eapply Forall_impl; [exact Hs|]. intros c. apply name_first_facts. }
  split.
  - apply forallb_forall. intros c Hc. apply list_elem_of_In in Hc.
    rewrite Forall_forall in Hall. by apply Hall.
  - rewrite trim_id by (eapply Forall_impl; [exact Hall|]; by intros c (_ & ? & _)).
    rewrite map_lower_id
      by (eapply Forall_impl; [exact Hall|]; by intros c (_ & _ & ? & _)).
    rewrite (replace_runs_none is_space _ s)
      by (eapply Forall_impl; [exact Hall|]; by intros c (_ & ? & _)).
    assert (Hdrop : drop_leading_mark s = s).
    { destruct Hall as [|c s' (_ & _ & _ & _ & Hc) _]; [done|].
      unfold drop_leading_mark. by rewrite Hc. }
    rewrite Hdrop. apply replace_runs_none.
    eapply Forall_impl; [exact Hs|]. cbn. intros c ->. done.
Qed.

(** X14.  [toValidPackageName] changes nothing in a name it has returned. *)
Theorem toValidPackageName_idempotent (s r : string) :
  toValidPackageName s = Ok r -> toValidPackageName r = Ok r.
Proof.
  intros Hr. pose proof (toValid_chars s r Hr) as Hchars.
  destruct (name_chars_fixed _ Hchars) as [Hascii Hfix].
  unfold toValidPackageName. rewrite Hascii, Hfix.
  by rewrite String.string_of_list_ascii_of_string.
Qed.

Lemma toValidPackageName_idempotent_witness :
  toValidPackageName "_hidden dir" = Ok "hidden-dir"%string /\
  toValidPackageName "hidden-dir" = Ok "hidden-dir"%string.
Proof.
  split; [vm_compute; reflexivity|].
  apply (toValidPackageName_idempotent "_hidden dir" "hidden-dir").
  vm_compute. reflexivity.
Defined.

Lemma nullable_lang (r : regex) : nullable r = true -> lang r [].
Proof.
  induction r as [| |f|r1 IH1 r2 IH2|r1 IH1 r2 IH2|r IH]; cbn; intros H; try done.
  - constructor.
  - apply andb_true_iff in H as [H1 H2].
    change (@nil ascii) with (@nil ascii ++ []). constructor; auto.
  - apply orb_true_iff in H as [H|H]; [apply lang_alt_l|apply lang_alt_r]; auto.
  - constructor.
Qed.

Lemma deriv_lang (c : ascii) (r : regex) :
  forall s, lang (deriv c r) s -> lang r (c :: s).
Proof.
  induction r as [| |f|r1 IH1 r2 IH2|r1 IH1 r2 IH2|r IH]; cbn [deriv]; intros s H.
  - inversion H.
  - inversion H.
  - destruct (f c) eqn:Hc; inversion H; subst. by constructor.
  - assert (Hseq : forall s, lang (RSeq (deriv c r1) r2) s -> lang (RSeq r1 r2) (c :: s)).
    { intros s0 H0. inversion H0 as [| |? ? s1 s2 Ha Hb| | | |]; subst.
      change (c :: s1 ++ s2) with ((c :: s1) ++ s2). constructor; auto. }
    destruct (nullable r1) eqn:Hn; [|by apply Hseq].
    inversion H as [| | |? ? ? Ha|? ? ? Hb| |]; subst; [by apply Hseq|].
    change (c :: s) with ([] ++ c :: s). constructor; [by apply nullable_lang|auto].
  - inversion H as [| | |? ? ? Ha|? ? ? Hb| |]; subst;
      [apply lang_alt_l|apply lang_alt_r]; auto.
  - inversion H as [| |? ? s1 s2 Ha Hb| | | |]; subst.
    change (c :: s1 ++ s2) with ((c :: s1) ++ s2). constructor; auto.
Qed.

(** The test accepts only strings of the expression. *)
Lemma test_sound (s : list ascii) : forall r, test r s = true -> lang r s.
Proof.
  induction s as [|c s IH]; intros r Hr; cbn [test] in Hr.
  - by apply nullable_lang.
  - by apply deriv_lang, IH.
Qed.

Lemma class_chars (c : ascii) :
  (scope_first c = true -> name_char c = true) /\
  (scope_rest c = true -> name_char c = true) /\
  (name_first c = true -> name_char c = true) /\
  (name_rest c = true -> name_char c = true) /\
  (chr "@" c = true -> name_char c = true) /\
  (chr "/" c = true -> name_char c = true) /\
  (name_char c = true -> is_space c = false /\ lower c = c).
Proof.
  destruct c as [[] [] [] [] [] [] [] []]; vm_compute; repeat split; congruence.
Qed.

Lemma lang_star_chars (f : ascii -> bool) (s : list ascii) :
  (forall c, f c = true -> name_char c = true) ->
  lang (RStar (RClass f)) s -> Forall (fun c => name_char c = true) s.
Proof.
  intros Hf H. remember (RStar (RClass f)) as r eqn:Hr.
  induction H as [| | | | | |r0 s1 s2 H1 _ H2 IH2]; try done.
  injection Hr as ->. apply Forall_app. split; [|by apply IH2].
  inversion H1; subst. constructor; [by apply Hf|constructor].
Qed.

(** X15. [isValidPackageName]: a name the test accepts is not empty and is
    made only of the characters [a-z0-9-*._~@/]; in particular it has no
    upper-case letter and no white space. *)
Theorem isValidPackageName_chars (projectName : string) :
  isValidPackageName projectName = true ->
  projectName <> ""%string /\
  Forall (fun c => name_char c = true /\ is_space c = false /\ lower c = c)
    (String.list_ascii_of_string projectName).
Proof.
  unfold isValidPackageName. intros H. apply test_sound in H.
  assert (Hall : String.list_ascii_of_string projectName <> [] /\
    Forall (fun c => name_char c = true) (String.list_ascii_of_string projectName)).
  { revert H. generalize (String.list_ascii_of_string projectName). intros s H.
    unfold package_name_re in H.
    inversion H as [| |? ? s1 s2 Hscope Hname| | | |]; subst.
    inversion Hname as [| |? ? n1 n2 Hf Hr| | | |]; subst.
    inversion Hf as [|? c Hc| | | | |]; subst.
    split; [by destruct s1|].
    apply Forall_app. split.
    - inversion Hscope as [| | |? ? ? Ha|? ? ? Hb| |]; subst; [|inversion Hb; constructor].
      inversion Ha as [| |? ? a1 a2 Hat Ha2| | | |]; subst.
      inversion Hat as [|? c1 Hc1| | | | |]; subst.
      inversion Ha2 as [| |? ? b1 b2 Hsf Hb2| | | |]; subst.
      inversion Hsf as [|? c2 Hc2| | | | |]; subst.
      inversion Hb2 as [| |? ? d1 d2 Hsr Hsl| | | |]; subst.
      inversion Hsl as [|? c3 Hc3| | | | |]; subst.
      repeat (apply Forall_app; split); try (constructor; [|constructor]).
      + by apply (proj1 (proj2 (proj2 (proj2 (proj2 (class_chars c1)))))).
      + by apply (proj1 (class_chars c2)).
      + apply (lang_star_chars scope_rest); [|done]. intros c0. apply (proj1 (proj2 (class_chars c0))).
      + by apply (proj1 (proj2 (proj2 (proj2 (proj2 (proj2 (class_chars c3))))))).
    - apply Forall_app. split; [constructor; [by apply (proj1 (proj2 (proj2 (class_chars c))))|constructor]|].
      apply (lang_star_chars name_rest); [|done]. intros c0. apply (proj1 (proj2 (proj2 (proj2 (class_chars c0))))). }
  destruct Hall as [Hne Hall]. split.
  - intros ->. by apply Hne.
  - eapply Forall_impl; [exact Hall|]. intros c Hc. split; [done|].
    by apply (proj2 (proj2 (proj2 (proj2 (proj2 (proj2 (class_chars c))))))).
Qed.

Lemma isValidPackageName_chars_witness :
  isValidPackageName "@vue/create-app" = true /\
  ("@vue/create-app"%string <> ""%string /\
   Forall (fun c => name_char c = true /\ is_space c = false /\ lower c = c)
     (String.list_ascii_of_string "@vue/create-app")).
Proof.
  split; [by vm_compute|]. apply (isValidPackageName_chars "@vue/create-app"). by vm_compute.
Defined.

End NameFacts.
